(** * RmlUi style sheet parser: a shallow embedding of
      [Source/Core/StyleSheetParser.cpp] and the properties of its
      buffered reader, declaration reader, rule state machine, style tree
      insertion and keyframes post-processing. *)

From Stdlib Require Import Ascii String ZArith Floats.SpecFloat.
From stdpp Require Import base tactics option list gmap strings sorting.

Local Open Scope string_scope.
Local Open Scope nat_scope.

(** ** Characters and strings

    [Rml::Core::String] is a byte string; it is modelled by [string], whose
    characters are the 8-bit [ascii]. *)

Definition NUL : ascii := "000"%char.
Definition NEWLINE : ascii := "010"%char.
Definition DQUOTE : ascii := "034"%char.

Module Str.

(** [s[i]]; reading the terminator (or past it) gives NUL. *)
Definition at_ (s : string) (i : nat) : ascii :=
  match String.get i s with Some c => c | None => NUL end.

(** [s.Append(c)]. *)
Definition push (s : string) (c : ascii) : string := s +:+ String c "".

Fixpoint take (n : nat) (s : string) : string :=
  match n, s with
  | S n, String c s => String c (take n s)
  | _, _ => ""
  end.

Fixpoint drop (n : nat) (s : string) : string :=
  match n, s with
  | S n, String _ s => drop n s
  | _, _ => s
  end.

Definition is_empty (s : string) : bool :=
  match s with "" => true | _ => false end.

(** [strchr(tokens, c) != NULL]: [c] occurs in [tokens], or [c] is the
    terminating NUL, which [strchr] finds as well. *)
Fixpoint mem (c : ascii) (s : string) : bool :=
  match s with
  | "" => false
  | String d s => if Ascii.eqb c d then true else mem c s
  end.

Definition strchr (tokens : string) (c : ascii) : bool :=
  mem c tokens || Ascii.eqb c NUL.


End Str.

(** ** The byte stream

    Modelled from the spec: [Stream] (its [IsEOS] and [Read]) is declared
    outside the parser's file.  It is "an abstract, ordered, read-once source
    of bytes with an end-of-stream signal"; [Read] gives "up to N more
    bytes".  The model holds the bytes that are still unread. *)
Definition Stream := string.

Definition IsEOS (s : Stream) : bool := Str.is_empty s.

Definition Read (s : Stream) (bytes : nat) : string * Stream :=
  (Str.take bytes s, Str.drop bytes s).

(** ** Diagnostics

    [Log::Message(Log::LT_WARNING, ...)] calls, one constructor per call site
    of the parser, with the values that are formatted into the message and
    the line counter at the time of the call. *)
Inductive LogMessage :=
  | InvalidKeyframesIdentifier (identifier : string) (line : nat)
  | InvalidKeyframesRules (rules : string) (line : nat)
  | InvalidCharacterGlobal (token : ascii) (line : nat)
  | InvalidCharacterKeyframesIdentifier (token : ascii) (line : nat)
  | InvalidCharacterKeyframes (token : ascii) (line : nat)
  | NameWithNoValue (name : string) (line : nat)
  | EndOfRuleInName (name : string) (line : nat)
  | SyntaxErrorDeclaration (name value : string) (line : nat)
  | EndOfRuleInValue (name value : string) (line : nat)
  | InvalidPropertyDeclaration (name value : string) (line : nat).

(** ** Parser state: the members of [StyleSheetParser] *)
Record Parser := mkParser {
  stream : Stream;
  parse_buffer : string;
  parse_buffer_pos : nat;
  line_number : nat;
  (** what the parser has written to the log, oldest first *)
  log : list LogMessage;
  (** the (name, value) texts handed to the property declaration parser,
      oldest first: a record of the calls, not a member of the class *)
  forwarded : list (string * string)
}.

Definition set_pos (n : nat) (p : Parser) : Parser :=
  mkParser (stream p) (parse_buffer p) n (line_number p) (log p) (forwarded p).
Definition set_buffer (b : string) (p : Parser) : Parser :=
  mkParser (stream p) b (parse_buffer_pos p) (line_number p) (log p) (forwarded p).
Definition set_line (n : nat) (p : Parser) : Parser :=
  mkParser (stream p) (parse_buffer p) (parse_buffer_pos p) n (log p) (forwarded p).
Definition warn (m : LogMessage) (p : Parser) : Parser :=
  mkParser (stream p) (parse_buffer p) (parse_buffer_pos p) (line_number p)
           (log p ++ [m]) (forwarded p).
Definition forward (name value : string) (p : Parser) : Parser :=
  mkParser (stream p) (parse_buffer p) (parse_buffer_pos p) (line_number p)
           (log p) (forwarded p ++ [(name, value)]).

(** [parse_buffer_pos++] and [parse_buffer_pos--]. *)
Definition advance (p : Parser) : Parser := set_pos (S (parse_buffer_pos p)) p.
Definition retreat (p : Parser) : Parser := set_pos (pred (parse_buffer_pos p)) p.

(** [parse_buffer[parse_buffer_pos]]. *)
Definition current (p : Parser) : ascii :=
  Str.at_ (parse_buffer p) (parse_buffer_pos p).

(** A parser as its constructor leaves it, given the stream [Parse] sets. *)
Definition new_parser (s : Stream) : Parser := mkParser s "" 0 0 [] [].

(** What a run leaves behind besides its results. *)
Definition outputs (p : Parser) : list LogMessage * list (string * string) :=
  (log p, forwarded p).

(** The bytes of the input that are still to be looked at. *)
Definition remaining (p : Parser) : nat :=
  (String.length (parse_buffer p) - parse_buffer_pos p) + String.length (stream p).

Section Reader.

(** The number of bytes [FillBuffer] asks the stream for: 4092 in the
    source.  The reader is defined for any size, so that refills in the
    middle of a comment can be looked at on short inputs. *)
Variable read_size : nat.

(** [StyleSheetParser::FillBuffer]. *)
Definition FillBuffer (p : Parser) : bool * Parser :=
  if IsEOS (stream p) then (false, p)
  else
    let '(chunk, rest) := Read (stream p) read_size in
    (negb (Str.is_empty chunk),
     mkParser rest chunk 0 (line_number p) (log p) (forwarded p)).

(** The [if (parse_buffer_pos >= parse_buffer.Length()) FillBuffer()]
    that follows the look-ahead [parse_buffer_pos++]. *)
Definition refill_at_end (p : Parser) : bool * Parser :=
  if (String.length (parse_buffer p) <=? parse_buffer_pos p)%nat
  then FillBuffer p else (true, p).

(** [StyleSheetParser::ReadCharacter]: the two nested loops, entered at
    the test of the inner [while]; [comment] is the local flag.  The
    character is returned without moving the cursor past it: the callers
    do that. *)
Fixpoint ReadCharacter_loop (fuel : nat) (comment : bool) (p : Parser)
  : option (option ascii * Parser) :=
  match fuel with
  | O => None
  | S fuel =>
    if (parse_buffer_pos p <? String.length (parse_buffer p))%nat then
      if Ascii.eqb (current p) NEWLINE then
        ReadCharacter_loop fuel comment
          (advance (set_line (S (line_number p)) p))
      else if comment then
        if Ascii.eqb (current p) "*" then
          match refill_at_end (advance p) with
          | (false, p2) => Some (None, p2)
          | (true, p2) =>
            ReadCharacter_loop fuel
              (if Ascii.eqb (current p2) "/" then false else true)
              (advance p2)
          end
        else ReadCharacter_loop fuel comment (advance p)
      else
        if Ascii.eqb (current p) "/" then
          match refill_at_end (advance p) with
          | (false, p2) => Some (Some "/"%char, set_buffer "/" p2)
          | (true, p2) =>
            if Ascii.eqb (current p2) "*" then
              ReadCharacter_loop fuel true (advance p2)
            else if (parse_buffer_pos p2 =? 0)%nat then
              Some (Some "/"%char,
                    set_buffer (String "/" (parse_buffer p2)) p2)
            else Some (Some "/"%char, retreat p2)
          end
        else Some (Some (current p), p)
    else
      match FillBuffer p with
      | (true, p') => ReadCharacter_loop fuel comment p'
      | (false, p') => Some (None, p')
      end
  end.

(** Enough iterations for any state: every iteration moves the cursor
    or refills an exhausted buffer. *)
Definition ReadCharacter_fuel (p : Parser) : nat := 2 * remaining p + 2.

Definition ReadCharacter (p : Parser) : option ascii * Parser :=
  match ReadCharacter_loop (ReadCharacter_fuel p) false p with
  | Some r => r
  | None => (None, p)
  end.

(** [StyleSheetParser::FindToken]. The result character is NUL when the
    stream ran out, as in the source. *)
Fixpoint FindToken_loop (fuel : nat) (buffer : string) (tokens : string)
    (remove_token : bool) (p : Parser) : option (ascii * string * Parser) :=
  match fuel with
  | O => None
  | S fuel =>
    match ReadCharacter p with
    | (Some character, p') =>
      if Str.strchr tokens character then
        Some (character, buffer, if remove_token then advance p' else p')
      else
        FindToken_loop fuel (Str.push buffer character) tokens remove_token
                       (advance p')
    | (None, p') => Some (NUL, buffer, p')
    end
  end.

Definition FindToken (tokens : string) (remove_token : bool) (p : Parser)
  : ascii * string * Parser :=
  match FindToken_loop (S (remaining p)) "" tokens remove_token p with
  | Some r => r
  | None => (NUL, "", p)
  end.

End Reader.



(** ** Properties

    Modelled from the spec: [PropertyDictionary], [Property] and
    [PropertyId] are declared outside the parser's file.  A dictionary is a
    "mapping from property identifier to a semantically-typed value (opaque
    to this core beyond identity and merge semantics)" that "supports
    import/merge from another dictionary overwriting existing keys".
    Identifiers are the property names; a value is kept as its text. *)
Definition PropertyId := string.
Definition Property := string.
Abbreviation PropertyDictionary := (gmap PropertyId Property).

Definition GetNumProperties (d : PropertyDictionary) : nat := size d.

(** [PropertyDictionary::GetProperties]: the entries, in the order the
    container iterates over them. *)
Definition GetProperties (d : PropertyDictionary) : list (PropertyId * Property) :=
  map_to_list d.

(** [target.Import(source)]: the entries of [source] overwrite. *)
Definition Import (target source : PropertyDictionary) : PropertyDictionary :=
  source ∪ target.

Module StringUtilities.

(** Modelled from the spec: [StringUtilities::StripWhitespace] is defined
    outside the parser's file; it is "trimming whitespace" from both ends
    of a string. *)
Fixpoint strip_left (s : string) : string :=
  match s with
  | String c s' => if Ascii.is_space c then strip_left s' else s
  | "" => ""
  end.

Definition StripWhitespace (s : string) : string :=
  String.rev (strip_left (String.rev (strip_left s))).

(** Modelled from the spec: [StringUtilities::ExpandString] is defined
    outside the parser's file; it turns a "comma/space-separated" text
    into the list of its parts, each one without the whitespace around it.
    A part in front of a delimiter is kept even when it is empty; the text
    after the last delimiter is a part when something is left of it. *)
Fixpoint split_on (delimiter : ascii) (cur : string) (s : string) : list string :=
  match s with
  | "" => if Str.is_empty (StripWhitespace cur) then [] else [StripWhitespace cur]
  | String c s' =>
    if Ascii.eqb c delimiter
    then StripWhitespace cur :: split_on delimiter "" s'
    else split_on delimiter (Str.push cur c) s'
  end.

Definition ExpandString (s : string) (delimiter : ascii) : list string :=
  split_on delimiter "" s.

(** Modelled from the spec: [String::ToLower], defined outside the parser's
    file: the ASCII capital letters are replaced by the small ones. *)
Definition lower (c : ascii) : ascii :=
  let n := nat_of_ascii c in
  if (65 <=? n) && (n <=? 90) then ascii_of_nat (n + 32) else c.

Fixpoint ToLower (s : string) : string :=
  match s with
  | "" => ""
  | String c s' => String (lower c) (ToLower s')
  end.

End StringUtilities.
Import StringUtilities.

(** ** The declaration reader *)

Inductive ParseState := NAME | VALUE | QUOTE.

Section Declarations.

Variable read_size : nat.

(** [StyleSheetSpecification::ParsePropertyDeclaration(properties, name,
    value, ...)], the collaborator that interprets one declaration: it
    reports success and may add to the dictionary. *)
Variable ParsePropertyDeclaration :
  PropertyDictionary → string → string → bool * PropertyDictionary.

(** [StyleSheetParser::ReadProperties]: the [while (ReadCharacter(...))]
    loop with its locals [state], [name], [value] and
    [previous_character]; the result is the returned flag, the
    dictionary and the parser. *)
Fixpoint ReadProperties_loop (fuel : nat) (state : ParseState)
    (name value : string) (previous_character : ascii)
    (properties : PropertyDictionary) (p : Parser)
  : option (bool * PropertyDictionary * Parser) :=
  match fuel with
  | O => None
  | S fuel =>
    match ReadCharacter read_size p with
    | (None, p) =>
      Some (true, properties,
            if negb (Str.is_empty name) || negb (Str.is_empty value)
            then warn (InvalidPropertyDeclaration name value (line_number p)) p
            else p)
    | (Some character, p) =>
      let p := advance p in
      match state with
      | NAME =>
        if Ascii.eqb character ";" then
          let name := StripWhitespace name in
          if negb (Str.is_empty name) then
            ReadProperties_loop fuel NAME "" value character properties
              (warn (NameWithNoValue name (line_number p)) p)
          else
            ReadProperties_loop fuel NAME name value character properties p
        else if Ascii.eqb character "}" then
          let name := StripWhitespace name in
          Some (true, properties,
                if negb (Str.is_empty (StripWhitespace name))
                then warn (EndOfRuleInName name (line_number p)) p
                else p)
        else if Ascii.eqb character ":" then
          ReadProperties_loop fuel VALUE (StripWhitespace name) value
                              character properties p
        else
          ReadProperties_loop fuel NAME (Str.push name character) value
                              character properties p
      | VALUE =>
        if Ascii.eqb character ";" then
          let value := StripWhitespace value in
          let '(ok, properties) := ParsePropertyDeclaration properties name value in
          let p := forward name value p in
          ReadProperties_loop fuel NAME "" "" character properties
            (if ok then p
             else warn (SyntaxErrorDeclaration name value (line_number p)) p)
        else if Ascii.eqb character "}" then
          Some (true, properties,
                warn (EndOfRuleInValue name value (line_number p)) p)
        else
          ReadProperties_loop fuel
            (if Ascii.eqb character DQUOTE then QUOTE else VALUE)
            name (Str.push value character) character properties p
      | QUOTE =>
        ReadProperties_loop fuel
          (if Ascii.eqb character DQUOTE && negb (Ascii.eqb previous_character "/")
           then VALUE else QUOTE)
          name (Str.push value character) character properties p
      end
    end
  end.

Definition ReadProperties (properties : PropertyDictionary) (p : Parser)
  : bool * PropertyDictionary * Parser :=
  match ReadProperties_loop (S (remaining p)) NAME "" "" NUL properties p with
  | Some r => r
  | None => (false, properties, p)
  end.

End Declarations.

(** [StyleSheetParser::ParseProperties]: the text becomes the stream of the
    parser (a [StreamMemory] over it), [ReadProperties] reads it, and the
    stream is released.  The buffer, the cursor and the line counter are
    not touched before the read; the parser is left without a stream (the
    empty stream here). *)
Definition ParseProperties (read_size : nat)
    (ParsePropertyDeclaration :
       PropertyDictionary → string → string → bool * PropertyDictionary)
    (this : Parser) (parsed_properties : PropertyDictionary) (properties : string)
  : bool * PropertyDictionary * Parser :=
  let this :=
    mkParser properties (parse_buffer this) (parse_buffer_pos this)
             (line_number this) (log this) (forwarded this) in
  let '(success, parsed_properties, this) :=
    ReadProperties read_size ParsePropertyDeclaration parsed_properties this in
  (success, parsed_properties,
   mkParser "" (parse_buffer this) (parse_buffer_pos this) (line_number this)
            (log this) (forwarded this)).

(** ** The style tree

    Modelled from the spec: [StyleSheetNode] (with [GetChildNode] and its own
    [ImportProperties]) is declared outside the parser's file.  A node "has
    a kind, a name, a mapping of declaration-property-id to (value,
    specificity) for rules attached directly at this node, and a mapping
    from (kind, name) to child, uniquely keyed". *)
Inductive NodeType :=
  TAG | CLASS | ID | PSEUDO_CLASS | STRUCTURAL_PSEUDO_CLASS | ROOT.

Global Instance NodeType_eq_dec : EqDecision NodeType.
Proof. solve_decision. Defined.

Local Unset Elimination Schemes.
Inductive StyleSheetNode := Node {
  node_name : string;
  node_type : NodeType;
  node_properties : gmap PropertyId (Property * nat);
  node_children : list StyleSheetNode
}.
Local Set Elimination Schemes.

Definition NodeKey : Type := NodeType * string.

Definition node_key (n : StyleSheetNode) : NodeKey := (node_type n, node_name n).

Definition new_node (k : NodeKey) : StyleSheetNode := Node k.2 k.1 ∅ [].

Definition root_node : StyleSheetNode := Node "" ROOT ∅ [].

(** The parser holds a pointer to the child [GetChildNode] gives and goes
    on from there; what it does at the end of its way down is a change [f]
    of the node it has reached.  [in_child k f] is that change seen from the
    parent: the child with key [k] is looked up, created at the end of the
    children when there is none, and changed by [f]. *)
Fixpoint in_children (k : NodeKey) (f : StyleSheetNode → StyleSheetNode)
    (children : list StyleSheetNode) : list StyleSheetNode :=
  match children with
  | [] => [f (new_node k)]
  | c :: children =>
    if decide (node_key c = k) then f c :: children
    else c :: in_children k f children
  end.

Definition in_child (k : NodeKey) (f : StyleSheetNode → StyleSheetNode)
    (n : StyleSheetNode) : StyleSheetNode :=
  Node (node_name n) (node_type n) (node_properties n)
       (in_children k f (node_children n)).

(** A chain of [leaf_node = leaf_node->GetChildNode(name, type)] steps. *)
Fixpoint at_path (path : list NodeKey) (f : StyleSheetNode → StyleSheetNode)
    (n : StyleSheetNode) : StyleSheetNode :=
  match path with
  | [] => f n
  | k :: path => in_child k (at_path path f) n
  end.

(** [StyleSheetNode::ImportProperties(properties, rule_specificity)]: per
    property the (value, specificity) pair is recorded, "overwriting any
    existing entry of lower specificity"; on equal specificity the later
    rule wins. *)
Definition import_entry (rule_specificity : nat)
    (old : option (Property * nat)) (new : option Property)
  : option (Property * nat) :=
  match new, old with
  | None, _ => old
  | Some v, Some (v0, s0) =>
    if s0 <=? rule_specificity then Some (v, rule_specificity) else Some (v0, s0)
  | Some v, None => Some (v, rule_specificity)
  end.

Definition node_ImportProperties (properties : PropertyDictionary)
    (rule_specificity : nat) (n : StyleSheetNode) : StyleSheetNode :=
  Node (node_name n) (node_type n)
       (merge (import_entry rule_specificity) (node_properties n) properties)
       (node_children n).

(** The node a path leads to, when all its nodes exist. *)
Fixpoint find_node (path : list NodeKey) (n : StyleSheetNode)
  : option StyleSheetNode :=
  match path with
  | [] => Some n
  | k :: path =>
    match List.find (λ c, bool_decide (node_key c = k)) (node_children n) with
    | Some c => find_node path c
    | None => None
    end
  end.

(** ** Selectors and [ImportProperties] *)

(** The locals [tag], [id], [classes], [pseudo_classes] and
    [structural_pseudo_classes] of one round of the loop over the nodes. *)
Record Compound := mkCompound {
  tag : string;
  id : string;
  classes : list string;
  pseudo_classes : list string;
  structural_pseudo_classes : list string
}.

Definition empty_compound : Compound := mkCompound "" "" [] [] [].

(** [std::sort] on a [StringList].  Strings that compare equal are the same
    string, so the sorted list is determined by the contents whatever the
    algorithm; it is computed by a merge sort here. *)
Definition sort_strings (l : list string) : list string :=
  merge_sort String.le l.

Section Selectors.

(** [StyleSheetFactory::GetSelector(name) != NULL]: whether the name is a
    registered structural selector. *)
Variable GetSelector : string → bool.

Definition is_delimiter (c : ascii) : bool :=
  Ascii.eqb c "#" || Ascii.eqb c "." || Ascii.eqb c ":".

(** The scan [while (index < name.Length())]: an identifier starts at
    [start_index], whatever its first character is, and runs up to the
    next ['#'], ['.'] or [':'].  [cur] is the text from [start_index] up
    to the character being looked at. *)
Fixpoint identifiers_from (cur : string) (rest : string) : list string :=
  match rest with
  | "" => [cur]
  | String c rest =>
    if is_delimiter c then cur :: identifiers_from (String c "") rest
    else identifiers_from (Str.push cur c) rest
  end.

Definition identifiers (name : string) : list string :=
  match name with
  | "" => []
  | String c rest => identifiers_from (String c "") rest
  end.

(** The [switch (identifier[0])]. *)
Definition add_identifier (c : Compound) (identifier : string) : Compound :=
  match identifier with
  | "" => c
  | String "#" rest =>
    mkCompound (tag c) rest (classes c) (pseudo_classes c)
               (structural_pseudo_classes c)
  | String "." rest =>
    mkCompound (tag c) (id c) (classes c ++ [rest]) (pseudo_classes c)
               (structural_pseudo_classes c)
  | String ":" rest =>
    if GetSelector rest then
      mkCompound (tag c) (id c) (classes c) (pseudo_classes c)
                 (structural_pseudo_classes c ++ [rest])
    else
      mkCompound (tag c) (id c) (classes c) (pseudo_classes c ++ [rest])
                 (structural_pseudo_classes c)
  | _ => mkCompound identifier (id c) (classes c) (pseudo_classes c)
                    (structural_pseudo_classes c)
  end.

Definition decompose (name : string) : Compound :=
  foldl add_identifier empty_compound (identifiers name).

(** The way down for one compound selector: the three sorts, then the
    [GetChildNode] calls in the order of the source. *)
Definition compound_path (c : Compound) : list NodeKey :=
  [(TAG, tag c)]
  ++ (if Str.is_empty (id c) then [] else [(ID, id c)])
  ++ ((λ x, (CLASS, x)) <$> sort_strings (classes c))
  ++ ((λ x, (STRUCTURAL_PSEUDO_CLASS, x))
        <$> sort_strings (structural_pseudo_classes c))
  ++ ((λ x, (PSEUDO_CLASS, x)) <$> sort_strings (pseudo_classes c)).

(** The node [leaf_node] points to after the loop, as its path from
    [node]. *)
Definition leaf_path (names : string) : list NodeKey :=
  mjoin ((λ name, compound_path (decompose name)) <$> ExpandString names " ").


(** [StyleSheetParser::ImportProperties]. *)
Definition ImportProperties (node : StyleSheetNode) (names : string)
    (properties : PropertyDictionary) (rule_specificity : nat)
  : bool * StyleSheetNode :=
  (true,
   at_path (leaf_path names)
           (node_ImportProperties properties rule_specificity) node).

End Selectors.

(** ** Single precision numbers

    [float] is IEEE 754 binary32: 24 bits of precision, exponents of finite
    numbers below 128.  The operations are those of the specification of
    floating-point arithmetic in the standard library, rounding to nearest
    with ties to even. *)
Module F32.

Definition prec : Z := 24.
Definition emax : Z := 128.

Abbreviation float := spec_float.

Definition mul : float → float → float := SFmul prec emax.
Definition sub : float → float → float := SFsub prec emax.
Definition abs : float → float := SFabs.
Definition ltb : float → float → bool := SFltb.
Definition leb : float → float → bool := SFleb.
Definition valid : float → bool := valid_binary prec emax.

(** The literals of the source: [0.0f], [1.0f], [100.0f], [0.01f] and
    [0.0001f], the last two rounded to the nearest binary32 number. *)
Definition zero : float := S754_zero false.
Definition one : float := S754_finite false 8388608 (-23).
Definition hundred : float := S754_finite false 13107200 (-17).
Definition hundredth : float := S754_finite false 10737418 (-30).
Definition tolerance : float := S754_finite false 13743895 (-37).

(** Neither infinite nor a NaN. *)
Definition is_finite (x : float) : bool :=
  match x with
  | S754_zero _ | S754_finite _ _ _ => true
  | _ => false
  end.

(** [x == y]. *)
Definition eqb : float → float → bool := SFeqb.

(** [0.0f <= x && x <= 1.0f]. *)
Definition in_unit_interval (x : float) : bool := leb zero x && leb x one.

(** Not negative, and not above one. *)
Definition small (x : float) : Prop :=
  match x with
  | S754_zero _ => True
  | S754_finite s m e =>
    s = false ∧ (e < -23 ∨ (e = -23 ∧ m = 8388608%positive))%Z
  | _ => False
  end.

(** A whole number as a float, for examples. *)
Definition of_Z (n : Z) : float := binary_normalize prec emax n 0 false.

End F32.

(** ** Keyframes *)

Record KeyframeBlock := mkKeyframeBlock {
  normalized_time : F32.float;
  properties : PropertyDictionary
}.

Record Keyframes := mkKeyframes {
  property_names : list PropertyId;
  blocks : list KeyframeBlock
}.

Abbreviation KeyframesMap := (gmap string Keyframes).

(** [IsValidIdentifier]. *)
Definition valid_character (c : ascii) : bool :=
  let n := nat_of_ascii c in
  ((97 <=? n) && (n <=? 122))
  || ((65 <=? n) && (n <=? 90))
  || ((48 <=? n) && (n <=? 57))
  || Ascii.eqb c "-"
  || Ascii.eqb c "_".

Fixpoint all_valid_characters (str : string) : bool :=
  match str with
  | "" => true
  | String c str => if valid_character c then all_valid_characters str else false
  end.

Definition IsValidIdentifier (str : string) : bool :=
  if Str.is_empty str then false else all_valid_characters str.

(** [Math::AbsoluteValue(keyframe_block.normalized_time - selector) < 0.0001f],
    the test of the [find_if]. *)
Definition same_time (selector : F32.float) (keyframe_block : KeyframeBlock) : bool :=
  F32.ltb (F32.abs (F32.sub (normalized_time keyframe_block) selector))
          F32.tolerance.

(** One round of the loop over [rule_values]: the first block the test
    finds gets a fresh dictionary, and when there is none a block is added
    at the end; then the properties are imported into it. *)
Fixpoint set_block (selector : F32.float) (properties : PropertyDictionary)
    (blocks : list KeyframeBlock) : list KeyframeBlock :=
  match blocks with
  | [] => [mkKeyframeBlock selector (Import ∅ properties)]
  | b :: blocks =>
    if same_time selector b
    then mkKeyframeBlock (normalized_time b) (Import ∅ properties) :: blocks
    else b :: set_block selector properties blocks
  end.

(** [std::unique]: of each run of equal neighbours the first is kept. *)
Fixpoint unique (l : list string) : list string :=
  match l with
  | [] => []
  | x :: l =>
    match l with
    | y :: _ => if decide (x = y) then unique l else x :: unique l
    | [] => [x]
    end
  end.

(** The comparison of the block sort. *)
Definition block_lt (a b : KeyframeBlock) : bool :=
  F32.ltb (normalized_time a) (normalized_time b).

(** [a] may stand in front of [b] in a sorted sequence. *)
Definition block_le (a b : KeyframeBlock) : Prop := block_lt b a = false.

(** The blocks of a sequence as the parser builds it: no block is within
    the tolerance of a block in front of it, and every time is in [0, 1]. *)
Definition apart_from (b : KeyframeBlock) (later : list KeyframeBlock) : Prop :=
  Forall (λ b', same_time (normalized_time b') b = false) later.

Fixpoint apart (blocks : list KeyframeBlock) : Prop :=
  match blocks with
  | [] => True
  | b :: blocks => apart_from b blocks ∧ apart blocks
  end.

Definition well_formed_blocks (blocks : list KeyframeBlock) : Prop :=
  apart blocks ∧
  Forall (λ b, F32.in_unit_interval (normalized_time b) = true) blocks.

(** No two blocks have times that compare equal. *)
Fixpoint distinct_times (blocks : list KeyframeBlock) : Prop :=
  match blocks with
  | [] => True
  | b :: blocks =>
    Forall (λ b', F32.eqb (normalized_time b) (normalized_time b') = false) blocks
    ∧ distinct_times blocks
  end.

(** [a.normalized_time <= b.normalized_time]. *)
Definition time_le (a b : KeyframeBlock) : Prop :=
  F32.leb (normalized_time a) (normalized_time b) = true.

(** A sequence that has been filled by the parser and not yet been
    post-processed. *)
Definition fresh_sequence (keyframes : Keyframes) : Prop :=
  property_names keyframes = [] ∧ well_formed_blocks (blocks keyframes).

Definition fresh_keyframes (keyframes_map : gmap string Keyframes) : Prop :=
  ∀ name keyframes, keyframes_map !! name = Some keyframes →
                    fresh_sequence keyframes.

(** What the parser relies on: the number [sscanf] reads is a number of the
    format, and [std::sort] gives a sorted rearrangement of the blocks when
    their times can be compared (none is a NaN). *)
Definition scan_float_valid (scan_float : string → option (F32.float * string))
  : Prop :=
  ∀ input value rest, scan_float input = Some (value, rest) →
                      F32.valid value = true.

Definition sort_contract (sort_blocks : list KeyframeBlock → list KeyframeBlock)
  : Prop :=
  ∀ l, Forall (λ b, normalized_time b ≠ S754_nan) l →
       sort_blocks l ≡ₚ l ∧ Sorted block_le (sort_blocks l).

Section KeyframesCode.

(** The [%f] conversion of [sscanf]: given the input, the number it reads
    (white space in front of it skipped) and the unread rest, or nothing
    when the input does not start with a number. *)
Variable scan_float : string → option (F32.float * string).

(** [std::sort] on the blocks with the comparison [block_lt].  It is not
    known to keep blocks of equal time in their order. *)
Variable sort_blocks : list KeyframeBlock → list KeyframeBlock.

(** [sscanf(rule, "%f%%%n", &value, &count)]: the returned number of
    conversions (EOF is -1), [value] and [count].  [value] and [count]
    keep what they were set to before the call (0) unless the call writes
    them. *)
Definition sscanf_float_percent (rule : string) : Z * F32.float * nat :=
  match scan_float rule with
  | None =>
    (if Str.is_empty (strip_left rule) then (-1)%Z else 0%Z, F32.zero, 0)
  | Some (value, rest) =>
    match strip_left rest with
    | String "%" rest => (1%Z, value, String.length rule - String.length rest)
    | _ => (1%Z, value, 0)
    end
  end.

(** The body of the loop over [rule_list]: what the rule adds to
    [rule_values], if anything. *)
Definition rule_value (rule : string) : option F32.float :=
  let rule := ToLower rule in
  if String.eqb rule "from" then Some F32.zero
  else if String.eqb rule "to" then Some F32.one
  else
    let '(conversions, value, count) := sscanf_float_percent rule in
    if (conversions =? 1)%Z then
      if (0 <? count) && F32.leb F32.zero value && F32.leb value F32.hundred
      then Some (F32.mul F32.hundredth value)
      else None
    else None.

Definition rule_values (rules : string) : list F32.float :=
  omap rule_value (ExpandString rules ",").

(** [keyframes_map[identifier]]: the entry, made when it is missing. *)
Definition entry (keyframes_map : KeyframesMap) (identifier : string) : Keyframes :=
  default (mkKeyframes [] []) (keyframes_map !! identifier).

(** [StyleSheetParser::ParseKeyframeBlock]. *)
Definition ParseKeyframeBlock (keyframes_map : KeyframesMap)
    (identifier rules : string) (properties : PropertyDictionary) (p : Parser)
  : bool * KeyframesMap * Parser :=
  if negb (IsValidIdentifier identifier) then
    (false, keyframes_map,
     warn (InvalidKeyframesIdentifier identifier (line_number p)) p)
  else if GetNumProperties properties =? 0 then (true, keyframes_map, p)
  else
    let values := rule_values rules in
    match values with
    | [] =>
      (false, keyframes_map,
       warn (InvalidKeyframesRules rules (line_number p)) p)
    | _ =>
      let keyframes := entry keyframes_map identifier in
      (true,
       <[identifier :=
           mkKeyframes (property_names keyframes)
             (foldl (λ blocks selector, set_block selector properties blocks)
                    (blocks keyframes) values)]> keyframes_map,
       p)
    end.

(** The names the blocks give, block by block. *)
Definition block_names (blocks : list KeyframeBlock) : list PropertyId :=
  mjoin ((λ block, (GetProperties (properties block)).*1) <$> blocks).

(** The body of the loop of [PostprocessKeyframes]. *)
Definition postprocess (keyframes : Keyframes) : Keyframes :=
  let blocks := sort_blocks (blocks keyframes) in
  mkKeyframes
    (unique (sort_strings (property_names keyframes ++ block_names blocks)))
    blocks.

(** [PostprocessKeyframes]. *)
Definition PostprocessKeyframes (keyframes_map : KeyframesMap) : KeyframesMap :=
  postprocess <$> keyframes_map.

End KeyframesCode.

(** ** The rule state machine *)

Inductive State := Global | KeyframesIdentifier | KeyframesRules | Invalid.

Global Instance State_eq_dec : EqDecision State.
Proof. solve_decision. Defined.

(** Modelled from the spec: the constant [KEYFRAMES] is defined outside the
    parser's file; it is "the literal at-rule keyword". *)
Definition KEYFRAMES : string := "keyframes".

(** [s.Substring(start, length)] and [s.Substring(start)]. *)
Definition Substring (s : string) (start : nat) (length : option nat) : string :=
  match length with
  | Some n => Str.take n (Str.drop start s)
  | None => Str.drop start s
  end.

(** The locals of [Parse] together with what it works on. *)
Record Parsing := mkParsing {
  state : State;
  keyframes_identifier : string;
  rule_count : nat;
  node : StyleSheetNode;
  keyframes : KeyframesMap;
  parser : Parser
}.

Definition set_parser (p : Parser) (c : Parsing) : Parsing :=
  mkParsing (state c) (keyframes_identifier c) (rule_count c) (node c)
            (keyframes c) p.
Definition set_state (s : State) (c : Parsing) : Parsing :=
  mkParsing s (keyframes_identifier c) (rule_count c) (node c)
            (keyframes c) (parser c).

(** How the body of the token loop is left: by [continue], or at its end,
    where the test for [State::Invalid] is. *)
Inductive Flow := ByContinue | AtEnd.

Section ParseCode.

Variable read_size : nat.
Variable ParsePropertyDeclaration :
  PropertyDictionary → string → string → bool * PropertyDictionary.
Variable GetSelector : string → bool.
Variable scan_float : string → option (F32.float * string).
Variable sort_blocks : list KeyframeBlock → list KeyframeBlock.

(** The [switch (state)] for one token, [pre_token_str] being the text in
    front of it. *)
Definition Parse_token (token : ascii) (pre_token_str : string) (c : Parsing)
  : Flow * Parsing :=
  match state c with
  | Global =>
    if Ascii.eqb token "{" then
      let '(ok, properties, p) :=
        ReadProperties read_size ParsePropertyDeclaration ∅ (parser c) in
      if negb ok then (ByContinue, set_parser p c)
      else
        let style_name_list := ExpandString pre_token_str "," in
        let node :=
          foldl (λ node name,
                   (ImportProperties GetSelector node name properties
                                     (rule_count c)).2)
                (node c) style_name_list in
        (AtEnd,
         mkParsing Global (keyframes_identifier c) (S (rule_count c)) node
                   (keyframes c) p)
    else if Ascii.eqb token "@" then (AtEnd, set_state KeyframesIdentifier c)
    else
      (AtEnd,
       set_parser
         (warn (InvalidCharacterGlobal token (line_number (parser c))) (parser c))
         c)
  | KeyframesIdentifier =>
    if Ascii.eqb token "{" then
      (AtEnd,
       mkParsing KeyframesRules
         (if String.eqb (Substring pre_token_str 0 (Some (String.length KEYFRAMES)))
                        KEYFRAMES
          then StripWhitespace
                 (Substring pre_token_str (String.length KEYFRAMES) None)
          else "")
         (rule_count c) (node c) (keyframes c) (parser c))
    else
      (AtEnd,
       mkParsing Invalid (keyframes_identifier c) (rule_count c) (node c)
         (keyframes c)
         (warn (InvalidCharacterKeyframesIdentifier token
                  (line_number (parser c))) (parser c)))
  | KeyframesRules =>
    if Ascii.eqb token "{" then
      let '(ok, properties, p) :=
        ReadProperties read_size ParsePropertyDeclaration ∅ (parser c) in
      if negb ok then (ByContinue, set_parser p c)
      else
        let '(ok, keyframes, p) :=
          ParseKeyframeBlock scan_float (keyframes c) (keyframes_identifier c)
                             pre_token_str properties p in
        (if ok then AtEnd else ByContinue,
         mkParsing KeyframesRules (keyframes_identifier c) (rule_count c)
                   (node c) keyframes p)
    else if Ascii.eqb token "}" then (AtEnd, set_state Global c)
    else
      (AtEnd,
       mkParsing Invalid (keyframes_identifier c) (rule_count c) (node c)
         (keyframes c)
         (warn (InvalidCharacterKeyframes token (line_number (parser c)))
               (parser c)))
  | Invalid => (AtEnd, set_state Invalid c)
  end.

(** The inner loop [while (char token = FindToken(...))], up to the point
    where it is left: no token any more, or [State::Invalid]. *)
Fixpoint Parse_tokens (fuel : nat) (c : Parsing) : option Parsing :=
  match fuel with
  | O => None
  | S fuel =>
    let '(token, pre_token_str, p) := FindToken read_size "{@}" true (parser c) in
    let c := set_parser p c in
    if Ascii.eqb token NUL then Some c
    else
      match Parse_token token pre_token_str c with
      | (ByContinue, c) => Parse_tokens fuel c
      | (AtEnd, c) =>
        if decide (state c = Invalid) then Some c else Parse_tokens fuel c
      end
  end.

(** The outer loop [while (FillBuffer())]. *)
Fixpoint Parse_buffers (fuel : nat) (c : Parsing) : option Parsing :=
  match fuel with
  | O => None
  | S fuel =>
    match FillBuffer read_size (parser c) with
    | (false, p) => Some (set_parser p c)
    | (true, p) =>
      match Parse_tokens (S (remaining p)) (set_parser p c) with
      | None => None
      | Some c =>
        if decide (state c = Invalid) then Some c else Parse_buffers fuel c
      end
    end
  end.

(** What is left of the two loops from the test of the inner one on. *)
Definition Parse_rest (fuel_tokens fuel_buffers : nat) (c : Parsing)
  : option Parsing :=
  match Parse_tokens fuel_tokens c with
  | None => None
  | Some c =>
    if decide (state c = Invalid) then Some c else Parse_buffers fuel_buffers c
  end.

(** What [Parse] sets up before its loops; [this] is the parser object
    the method is called on. *)
Definition Parse_start (this : Parser) (node : StyleSheetNode)
    (keyframes : KeyframesMap) (_stream : Stream) : Parsing :=
  mkParsing Global "" 0 node keyframes
    (mkParser _stream (parse_buffer this) (parse_buffer_pos this) 0
              (log this) (forwarded this)).

(** What [Parse] does after its loops. *)
Definition Parse_finish (c : Parsing) : nat * StyleSheetNode * KeyframesMap * Parser :=
  (rule_count c, node c, PostprocessKeyframes sort_blocks (keyframes c), parser c).

(** [StyleSheetParser::Parse]: the returned rule count, and the tree, the
    keyframes map and the parser as the call leaves them. *)
Definition Parse (this : Parser) (node : StyleSheetNode)
    (keyframes : KeyframesMap) (_stream : Stream)
  : option (nat * StyleSheetNode * KeyframesMap * Parser) :=
  Parse_finish <$>
    Parse_buffers (S (String.length _stream))
                  (Parse_start this node keyframes _stream).

End ParseCode.

(** ** Collaborators for examples *)

(** A declaration parser that takes every declaration with a name and a
    value, and keeps the value text. *)
Definition keep_declaration (d : PropertyDictionary) (name value : string)
  : bool * PropertyDictionary :=
  if Str.is_empty name || Str.is_empty value then (false, d)
  else (true, <[name := value]> d).

(** A registry of structural selectors. *)
Definition structural (name : string) : bool :=
  bool_decide (name ∈ ["first-child"; "last-child"; "only-child"]).

(** Reading an unsigned decimal number, [digits] or [digits.digits]. *)
Fixpoint scan_digits (acc : Z) (count : nat) (s : string) : Z * nat * string :=
  match s with
  | String c rest =>
    match Ascii.is_nat c with
    | Some d => scan_digits (10 * acc + Z.of_nat d) (S count) rest
    | None => (acc, count, s)
    end
  | "" => (acc, count, s)
  end.

Definition scan_decimal (s : string) : option (F32.float * string) :=
  let '(whole, n, rest) := scan_digits 0 0 (strip_left s) in
  if n =? 0 then None
  else
    let '(number, places, rest) :=
      match rest with
      | String "." rest' => scan_digits whole 0 rest'
      | _ => (whole, 0, rest)
      end in
    let value :=
      match number with
      | Zpos m =>
        SFdiv F32.prec F32.emax
              (S754_finite false m 0)
              (S754_finite false (Z.to_pos (10 ^ Z.of_nat places)) 0)
      | _ => F32.zero
      end in
    if F32.valid value then Some (value, rest) else None.

(** A stable insertion sort of the blocks. *)
Fixpoint insert_block (b : KeyframeBlock) (l : list KeyframeBlock)
  : list KeyframeBlock :=
  match l with
  | [] => [b]
  | c :: l' => if block_lt c b then c :: insert_block b l' else b :: l
  end.

Definition stable_sort_blocks (l : list KeyframeBlock) : list KeyframeBlock :=
  foldr insert_block [] l.

(** The text [s] between double quotes. *)
Definition quoted (s : string) : string := String DQUOTE s +:+ String DQUOTE "".

(** All the characters of a stream as the callers of [ReadCharacter] get
    them, each call followed by [parse_buffer_pos++]. *)
Fixpoint read_all (read_size fuel : nat) (p : Parser) : string * Parser :=
  match fuel with
  | O => ("", p)
  | S fuel =>
    match ReadCharacter read_size p with
    | (Some c, p') =>
      let '(s, p'') := read_all read_size fuel (advance p') in (String c s, p'')
    | (None, p') => ("", p')
    end
  end.

(** ** Descriptions for the properties

    What follows is not code of the parser.  It is what the properties of
    the code are stated with: the text a parser has still to read;
    descriptions of the reader and of the declaration reader as one pass
    over this text, which the code is compared with; and the texts and
    predicates of the round trips. *)

(** The bytes that are still to be looked at, in their order: the rest of
    the buffer, then the rest of the stream. *)
Definition pending (p : Parser) : string :=
  Str.drop (parse_buffer_pos p) (parse_buffer p) +:+ stream p.

(** The characters [ReadCharacter] gives for a text, call after call,
    written as one pass over the text; [comment] tells whether the pass is
    inside a comment. *)
Fixpoint logical (comment : bool) (s : string) : string :=
  match s with
  | "" => ""
  | String c s' =>
    if Ascii.eqb c NEWLINE then logical comment s'
    else if comment then
      if Ascii.eqb c "*" then
        match s' with
        | "" => ""
        | String x s'' => logical (if Ascii.eqb x "/" then false else true) s''
        end
      else logical true s'
    else if Ascii.eqb c "/" then
      match s' with
      | "" => "/"
      | String x s'' =>
        if Ascii.eqb x "*" then logical true s'' else String "/" (logical false s')
      end
    else String c (logical false s')
  end.

(** The line feeds the same pass counts. *)
Fixpoint counted_lines (comment : bool) (s : string) : nat :=
  match s with
  | "" => 0
  | String c s' =>
    if Ascii.eqb c NEWLINE then S (counted_lines comment s')
    else if comment then
      if Ascii.eqb c "*" then
        match s' with
        | "" => 0
        | String x s'' =>
          counted_lines (if Ascii.eqb x "/" then false else true) s''
        end
      else counted_lines true s'
    else if Ascii.eqb c "/" then
      match s' with
      | "" => 0
      | String x s'' =>
        if Ascii.eqb x "*" then counted_lines true s'' else counted_lines false s'
      end
    else counted_lines false s'
  end.

(** [s] is what is left of [t] after some first characters. *)
Definition rest_of (s t : string) : Prop := ∃ skipped, t = skipped +:+ s.

(** What a call of [ReadCharacter] that starts at [p] and ends at [p'] with
    the result [r] has done, told by the pending text. *)
Definition reads (comment : bool) (p : Parser) (r : option ascii) (p' : Parser)
  : Prop :=
  match r with
  | Some c =>
    logical comment (pending p) = String c (logical false (pending (advance p'))) ∧
    line_number p' + counted_lines false (pending (advance p'))
      = line_number p + counted_lines comment (pending p) ∧
    rest_of (pending (advance p')) (pending p)
  | None =>
    logical comment (pending p) = "" ∧
    line_number p' = line_number p + counted_lines comment (pending p) ∧
    pending p' = ""
  end.

(** Every character of [s] passes the test [P]. *)
Fixpoint all_chars (P : ascii → bool) (s : string) : bool :=
  match s with
  | "" => true
  | String c s => P c && all_chars P s
  end.

(** [s] with every [c] left out, and how often [c] is in [s]. *)
Fixpoint without (c : ascii) (s : string) : string :=
  match s with
  | "" => ""
  | String d s => if Ascii.eqb d c then without c s else String d (without c s)
  end.

Fixpoint occurrences (c : ascii) (s : string) : nat :=
  match s with
  | "" => 0
  | String d s => if Ascii.eqb d c then S (occurrences c s) else occurrences c s
  end.

Definition is_not (c : ascii) (d : ascii) : bool := negb (Ascii.eqb d c).

(** The text that is left when the first of these characters has been
    given: what the caller, who moves the cursor past the character, has
    still to read. *)
Fixpoint unread_after (comment : bool) (s : string) : string :=
  match s with
  | "" => ""
  | String c s' =>
    if Ascii.eqb c NEWLINE then unread_after comment s'
    else if comment then
      if Ascii.eqb c "*" then
        match s' with
        | "" => ""
        | String x s'' =>
          unread_after (if Ascii.eqb x "/" then false else true) s''
        end
      else unread_after true s'
    else if Ascii.eqb c "/" then
      match s' with
      | "" => ""
      | String x s'' => if Ascii.eqb x "*" then unread_after true s'' else s'
      end
    else s'
  end.

(** What a reader passes between two characters: line feeds, and comments
    [/*body*/]. *)
Inductive Blank :=
  | LineFeed
  | Comment (body : string).

Definition render_blank (blank : Blank) : string :=
  match blank with
  | LineFeed => String NEWLINE ""
  | Comment body => "/*" +:+ body +:+ "*/"
  end.

Fixpoint render_blanks (blanks : list Blank) : string :=
  match blanks with
  | [] => ""
  | blank :: blanks => render_blank blank +:+ render_blanks blanks
  end.

(** A comment without a ['*'] in its body. *)
Definition star_free (blank : Blank) : Prop :=
  match blank with
  | LineFeed => True
  | Comment body => all_chars (is_not "*") body = true
  end.

(** The first character of a text, when it has one. *)
Definition first_character (s : string) : option ascii :=
  match s with
  | "" => None
  | String c _ => Some c
  end.

(** The declaration reader as one pass over the characters it is given:
    the declarations it hands on, and the characters after the [}] that
    ends the pass. *)
Fixpoint scan_declarations (state : ParseState) (name value : string)
    (previous_character : ascii) (characters : string)
  : list (string * string) * string :=
  match characters with
  | "" => ([], "")
  | String character characters =>
    match state with
    | NAME =>
      if Ascii.eqb character ";" then
        scan_declarations NAME "" value character characters
      else if Ascii.eqb character "}" then ([], characters)
      else if Ascii.eqb character ":" then
        scan_declarations VALUE (StripWhitespace name) value character characters
      else
        scan_declarations NAME (Str.push name character) value character
                          characters
    | VALUE =>
      if Ascii.eqb character ";" then
        let '(declarations, rest) :=
          scan_declarations NAME "" "" character characters in
        ((name, StripWhitespace value) :: declarations, rest)
      else if Ascii.eqb character "}" then ([], characters)
      else
        scan_declarations (if Ascii.eqb character DQUOTE then QUOTE else VALUE)
                          name (Str.push value character) character characters
    | QUOTE =>
      scan_declarations
        (if Ascii.eqb character DQUOTE && negb (Ascii.eqb previous_character "/")
         then VALUE else QUOTE)
        name (Str.push value character) character characters
    end
  end.

(** The text of a list of declarations, [name:value;] one after the other. *)
Fixpoint render (declarations : list (string * string)) : string :=
  match declarations with
  | [] => ""
  | (name, value) :: declarations =>
    name +:+ ":" +:+ value +:+ ";" +:+ render declarations
  end.

(** A name that the reader takes as it is written: no character that ends
    it, no line feed and nothing that could open a comment. *)
Definition name_character (c : ascii) : bool :=
  negb (Ascii.eqb c ";" || Ascii.eqb c "}" || Ascii.eqb c ":"
        || Ascii.eqb c "/" || Ascii.eqb c NEWLINE).

(** A value that the reader takes as it is written: no line feed and no
    ['/'], every quote closed, and [;] and [}] between quotes only;
    [quote] tells whether a quote is open. *)
Fixpoint value_text (quote : bool) (value : string) : bool :=
  match value with
  | "" => negb quote
  | String c value =>
    negb (Ascii.eqb c "/" || Ascii.eqb c NEWLINE)
    && (if quote then value_text (negb (Ascii.eqb c DQUOTE)) value
        else negb (Ascii.eqb c ";" || Ascii.eqb c "}")
             && value_text (Ascii.eqb c DQUOTE) value)
  end.

Definition plain_declaration (d : string * string) : Prop :=
  all_chars name_character d.1 = true ∧ StripWhitespace d.1 = d.1 ∧
  value_text false d.2 = true ∧ StripWhitespace d.2 = d.2.

(** The dictionary after the declaration parser has been given the
    declarations one after the other. *)
Definition declare
    (ParsePropertyDeclaration :
       PropertyDictionary → string → string → bool * PropertyDictionary)
    (properties : PropertyDictionary) (declarations : list (string * string))
  : PropertyDictionary :=
  foldl (λ d nv, (ParsePropertyDeclaration d nv.1 nv.2).2) properties declarations.

(** A sequence worth keeping: its name is an identifier, it has a block,
    and no block is without properties. *)
Definition tidy_sequence (name : string) (keyframes : Keyframes) : Prop :=
  IsValidIdentifier name = true ∧
  blocks keyframes ≠ [] ∧
  Forall (λ b, properties b ≠ ∅) (blocks keyframes).

Definition tidy_keyframes (keyframes_map : KeyframesMap) : Prop :=
  ∀ name keyframes, keyframes_map !! name = Some keyframes →
                    tidy_sequence name keyframes.

(** A change of a node that leaves its kind, its name and its children. *)
Definition changes_properties_only (f : StyleSheetNode → StyleSheetNode) : Prop :=
  ∀ n, node_name (f n) = node_name n ∧ node_type (f n) = node_type n ∧
       node_children (f n) = node_children n.

(** The properties of the node a path leads to; none when it does not
    exist. *)
Definition properties_at (path : list NodeKey) (n : StyleSheetNode)
  : gmap PropertyId (Property * nat) :=
  match find_node path n with
  | Some m => node_properties m
  | None => ∅
  end.


(** A style sheet of rules, written [selectors{name:value;...}] one after
    the other. *)
Definition Rule : Type := string * list (string * string).

Fixpoint render_sheet (rules : list Rule) : string :=
  match rules with
  | [] => ""
  | (selectors, declarations) :: rules =>
    selectors +:+ "{" +:+ render declarations +:+ "}" +:+ render_sheet rules
  end.

(** The text of the selectors of a rule: none of the characters [Parse]
    looks for, no NUL, no line feed and nothing that could open a
    comment. *)
Definition selector_character (c : ascii) : bool :=
  negb (Str.strchr "{@}" c || Ascii.eqb c "/" || Ascii.eqb c NEWLINE).

Definition plain_rule (rule : Rule) : Prop :=
  all_chars selector_character rule.1 = true ∧ Forall plain_declaration rule.2.

(** A style sheet: rules, at-rules [@prelude{selectors{name:value;...}...}],
    [@keyframes name{...}] among them, and closing braces that close
    nothing, with the text in front of them. *)
Inductive Item :=
  | StyleRule (selectors : string) (declarations : list (string * string))
  | AtRule (prelude : string) (blocks : list Rule)
  | Stray (text : string).

Definition render_item (item : Item) : string :=
  match item with
  | StyleRule selectors declarations =>
    selectors +:+ "{" +:+ render declarations +:+ "}"
  | AtRule prelude blocks =>
    "@" +:+ prelude +:+ "{" +:+ render_sheet blocks +:+ "}"
  | Stray text => text +:+ "}"
  end.

Fixpoint render_items (items : list Item) : string :=
  match items with
  | [] => ""
  | item :: items => render_item item +:+ render_items items
  end.

Definition plain_item (item : Item) : Prop :=
  match item with
  | StyleRule selectors declarations => plain_rule (selectors, declarations)
  | AtRule prelude blocks =>
    all_chars selector_character prelude = true ∧ Forall plain_rule blocks
  | Stray text => all_chars selector_character text = true
  end.

Definition item_declarations (item : Item) : list (string * string) :=
  match item with
  | StyleRule _ declarations => declarations
  | AtRule _ blocks => concat (snd <$> blocks)
  | Stray _ => []
  end.

(** The identifier [Parse] takes from the text between the at sign and the
    brace: what follows the keyword, or nothing when the text does not
    start with the keyword. *)
Definition at_rule_identifier (prelude : string) : string :=
  if String.eqb (Substring prelude 0 (Some (String.length KEYFRAMES))) KEYFRAMES
  then StripWhitespace (Substring prelude (String.length KEYFRAMES) None)
  else "".

(** What [Parse] has in hand between two items: the rule count, the tree
    and the keyframes. *)
Definition Sheet : Type := nat * StyleSheetNode * KeyframesMap.

Section Items.

Variable ParsePropertyDeclaration :
  PropertyDictionary → string → string → bool * PropertyDictionary.
Variable GetSelector : string → bool.
Variable scan_float : string → option (F32.float * string).

(** What a rule does to the rule count and the tree: its declarations are
    parsed into an empty dictionary, which is imported at every selector of
    its comma-separated list with the count as specificity. *)
Definition import_rule (sheet : Sheet) (selectors : string)
    (declarations : list (string * string)) : Sheet :=
  (S sheet.1.1,
   foldl (λ node name,
            (ImportProperties GetSelector node name
               (declare ParsePropertyDeclaration ∅ declarations) sheet.1.1).2)
         sheet.1.2 (ExpandString selectors ","),
   sheet.2).

(** What a block of an at-rule does to the keyframes: its declarations are
    parsed into an empty dictionary, which [ParseKeyframeBlock] gets with
    the identifier of the at-rule and the text in front of the block.  The
    parser of the call matters for its warnings only, not for the
    keyframes. *)
Definition import_block (identifier : string) (keyframes : KeyframesMap)
    (block : Rule) : KeyframesMap :=
  (ParseKeyframeBlock scan_float keyframes identifier block.1
     (declare ParsePropertyDeclaration ∅ block.2) (new_parser "")).1.2.

Definition import_item (sheet : Sheet) (item : Item) : Sheet :=
  match item with
  | StyleRule selectors declarations => import_rule sheet selectors declarations
  | AtRule prelude blocks =>
    (sheet.1, foldl (import_block (at_rule_identifier prelude)) sheet.2 blocks)
  | Stray _ => sheet
  end.

End Items.

(** The state of [Parse] while it reads a text without an at sign. *)
Definition no_at (km : KeyframesMap) (c : Parsing) : Prop :=
  state c = Global ∧ keyframes c = km ∧
  all_chars (is_not "@") (pending (parser c)) = true.

(** * Properties *)

(** ** Strings *)

Module StrFacts.
Import Str.

Lemma length_take n s : String.length (take n s) = min n (String.length s).
Proof. revert s; induction n; intros [|c s]; simpl; auto. Qed.

Lemma length_drop n s : String.length (drop n s) = String.length s - n.
Proof. revert s; induction n; intros [|c s]; simpl; auto. Qed.

Lemma is_empty_length s : is_empty s = true ↔ String.length s = 0.
Proof. destruct s; simpl; split; congruence. Qed.

End StrFacts.

(** ** Termination of the reader *)

Section ReaderFacts.

Variable read_size : nat.

Definition potential (p : Parser) : nat :=
  2 * remaining p +
  (if (parse_buffer_pos p <? String.length (parse_buffer p))%nat then 0 else 1).

Lemma FillBuffer_true p p' :
  FillBuffer read_size p = (true, p') →
  parse_buffer_pos p' = 0 ∧ 0 < String.length (parse_buffer p') ∧
  String.length (parse_buffer p') + String.length (stream p')
    = String.length (stream p) ∧
  outputs p' = outputs p ∧ line_number p' = line_number p.
Proof.
  unfold FillBuffer, IsEOS, Read. destruct (Str.is_empty (stream p)) eqn:E; [done|].
  destruct (Str.is_empty (Str.take read_size (stream p))) eqn:E2; [done|].
  intros [= <-]; simpl. rewrite StrFacts.length_take, StrFacts.length_drop.
  assert (String.length (Str.take read_size (stream p)) ≠ 0) as H.
  { intros H%StrFacts.is_empty_length. congruence. }
  rewrite StrFacts.length_take in H. repeat split; lia.
Qed.

Lemma FillBuffer_false p p' :
  FillBuffer read_size p = (false, p') →
  outputs p' = outputs p ∧ line_number p' = line_number p ∧
  ((p' = p ∧ stream p = "") ∨
   (parse_buffer p' = "" ∧ parse_buffer_pos p' = 0 ∧ stream p' = stream p)).
Proof.
  unfold FillBuffer, IsEOS, Read. destruct (Str.is_empty (stream p)) eqn:E.
  - intros [= <-]. destruct (stream p); [auto|done].
  - destruct (Str.is_empty (Str.take read_size (stream p))) eqn:E2; [|done].
    intros [= <-]; simpl. repeat split; auto. right.
    apply StrFacts.is_empty_length in E2. rewrite StrFacts.length_take in E2.
    destruct read_size; [done|]. destruct (stream p); done.
Qed.

Lemma refill_at_end_true p p' :
  refill_at_end read_size p = (true, p') →
  parse_buffer_pos p' < String.length (parse_buffer p') ∧
  remaining p' = remaining p ∧ outputs p' = outputs p ∧
  (p' = p ∨ (parse_buffer_pos p' = 0 ∧
             String.length (parse_buffer p) ≤ parse_buffer_pos p)).
Proof.
  unfold refill_at_end.
  destruct (Nat.leb_spec (String.length (parse_buffer p)) (parse_buffer_pos p)).
  - intros (?&?&?&?&?)%FillBuffer_true. unfold remaining.
    repeat split; auto; lia.
  - intros [= <-]. auto.
Qed.

Lemma refill_at_end_false p p' :
  refill_at_end read_size p = (false, p') →
  String.length (parse_buffer p) ≤ parse_buffer_pos p ∧ outputs p' = outputs p ∧
  ((p' = p ∧ stream p = "") ∨
   (parse_buffer p' = "" ∧ parse_buffer_pos p' = 0 ∧ stream p' = stream p)).
Proof.
  unfold refill_at_end.
  destruct (Nat.leb_spec (String.length (parse_buffer p)) (parse_buffer_pos p));
    [|done].
  intros (?&?&?)%FillBuffer_false. auto.
Qed.

Lemma ReadCharacter_loop_total fuel : ∀ comment p,
  potential p < fuel →
  ∃ r p', ReadCharacter_loop read_size fuel comment p = Some (r, p') ∧
          remaining p' ≤ remaining p ∧
          (is_Some r → remaining (advance p') < remaining p) ∧
          outputs p' = outputs p.
Proof.
  induction fuel as [|fuel IH]; intros comment p Hfuel; [lia|].
  unfold potential in Hfuel. simpl.
  assert (∀ c q, remaining q < remaining p → outputs q = outputs p →
    ∃ r p', ReadCharacter_loop read_size fuel c q = Some (r, p') ∧
            remaining p' ≤ remaining p ∧
            (is_Some r → remaining (advance p') < remaining p) ∧
            outputs p' = outputs p) as Hrec.
  { intros c q Hq Hl. destruct (IH c q) as (r & p' & -> & ? & ? & ?).
    - unfold potential. repeat case_match; lia.
    - exists r, p'. repeat split; auto; try lia; try congruence.
      intros Hr. specialize (H0 Hr). lia. }
  destruct (Nat.ltb_spec (parse_buffer_pos p) (String.length (parse_buffer p))) as [Hlt|Hge].
  - assert (remaining (advance p) < remaining p) as Hadv.
    { unfold remaining, advance; simpl. lia. }
    destruct (Ascii.eqb (current p) NEWLINE).
    { apply Hrec; [|done]. unfold remaining, advance, set_line in *; simpl in *. lia. }
    destruct comment.
    + destruct (Ascii.eqb (current p) "*"); [|by apply Hrec].
      destruct (refill_at_end read_size (advance p)) as [[] p2] eqn:E.
      * apply refill_at_end_true in E as (Hpos & Hrem & Hlog & _).
        apply Hrec; [|done]. unfold remaining, advance in *; simpl in *. lia.
      * apply refill_at_end_false in E as (Hend & Hlog & Hc).
        exists None, p2. repeat split; auto.
        -- destruct Hc as [[-> ?]|(Hb & Hp & Hs)]; [lia|].
           unfold remaining, advance in *; simpl in *. rewrite Hb, Hp, Hs. simpl. lia.
        -- intros [? [=]].
    + destruct (Ascii.eqb (current p) "/").
      2:{ exists (Some (current p)), p. repeat split; auto. }
      destruct (refill_at_end read_size (advance p)) as [[] p2] eqn:E.
      * apply refill_at_end_true in E as (Hpos & Hrem & Hlog & Hc).
        destruct (Ascii.eqb (current p2) "*").
        { apply Hrec; [|done]. unfold remaining, advance in *; simpl in *. lia. }
        destruct (Nat.eqb_spec (parse_buffer_pos p2) 0) as [Hz|Hz].
        -- eexists _, _; split; [done|].
           destruct Hc as [->|[_ Hc]]; [simpl in Hz; lia|].
           unfold remaining, advance, set_buffer in *; simpl in *.
           rewrite Hz in *. repeat split; auto; lia.
        -- eexists _, _; split; [done|].
           destruct Hc as [->|[? _]]; [|lia].
           unfold remaining, advance, retreat, set_pos in *; simpl in *.
           repeat split; auto; lia.
      * apply refill_at_end_false in E as (Hend & Hlog & Hc).
        eexists _, _; split; [done|].
        destruct Hc as [[-> Hs]|(Hb & Hp & Hs)];
          unfold remaining, advance, set_buffer in *; simpl in *;
          [rewrite Hs|rewrite Hp, Hs]; simpl; repeat split; auto; lia.
  - destruct (FillBuffer read_size p) as [[] p2] eqn:E.
    + apply FillBuffer_true in E as (Hp & Hb & Hs & Hlog & Hline).
      assert (remaining p2 = remaining p) as Hrem.
      { unfold remaining. lia. }
      destruct (IH comment p2) as (r & p' & -> & Hle & Hsome & Hlog').
      { unfold potential. rewrite Hrem, Hp.
        destruct (Nat.ltb_spec 0 (String.length (parse_buffer p2))); lia. }
      exists r, p'. rewrite <- Hrem. repeat split; auto. congruence.
    + apply FillBuffer_false in E as (Hlog & Hline & Hc).
      exists None, p2. repeat split; auto.
      * destruct Hc as [[-> ?]|(Hb & Hp & Hs)]; [lia|].
        unfold remaining. rewrite Hb, Hp, Hs. simpl. lia.
      * intros [? [=]].
Qed.

Lemma ReadCharacter_spec p :
  ∃ r p', ReadCharacter read_size p = (r, p') ∧
          ReadCharacter_loop read_size (ReadCharacter_fuel p) false p = Some (r, p') ∧
          remaining p' ≤ remaining p ∧
          (is_Some r → remaining (advance p') < remaining p) ∧
          outputs p' = outputs p.
Proof.
  destruct (ReadCharacter_loop_total (ReadCharacter_fuel p) false p)
    as (r & p' & E & ?).
  { unfold potential, ReadCharacter_fuel. case_match; lia. }
  exists r, p'. unfold ReadCharacter. rewrite E. auto.
Qed.

Lemma FindToken_loop_total fuel : ∀ buffer tokens p,
  remaining p < fuel →
  ∃ c s p', FindToken_loop read_size fuel buffer tokens true p = Some (c, s, p') ∧
            remaining p' ≤ remaining p ∧
            (c ≠ NUL → remaining p' < remaining p) ∧
            outputs p' = outputs p.
Proof.
  induction fuel as [|fuel IH]; intros buffer tokens p Hfuel; [lia|].
  simpl. destruct (ReadCharacter_spec p) as (r & p1 & -> & _ & Hle & Hsome & Hout).
  destruct r as [character|].
  - specialize (Hsome (mk_is_Some _ _ eq_refl)).
    destruct (Str.strchr tokens character).
    + eexists _, _, _; split; [done|]. repeat split; auto; lia.
    + destruct (IH (Str.push buffer character) tokens (advance p1))
        as (c & s & p' & -> & Hle' & Hlt' & Hout'); [lia|].
      exists c, s, p'. split; [done|]. split; [lia|]. split.
      * intros Hc. specialize (Hlt' Hc). lia.
      * by rewrite Hout'.
  - eexists _, _, _; split; [done|]. repeat split; auto. done.
Qed.

Lemma FindToken_spec tokens p :
  ∃ c s p', FindToken read_size tokens true p = (c, s, p') ∧
            remaining p' ≤ remaining p ∧
            (c ≠ NUL → remaining p' < remaining p) ∧
            outputs p' = outputs p.
Proof.
  destruct (FindToken_loop_total (S (remaining p)) "" tokens p)
    as (c & s & p' & E & ?); [lia|].
  exists c, s, p'. unfold FindToken. rewrite E. auto.
Qed.

(** The stream is only ever read forward. *)
Lemma FillBuffer_stream p b p' :
  FillBuffer read_size p = (b, p') →
  String.length (stream p') ≤ String.length (stream p).
Proof.
  destruct b.
  - intros (_ & _ & ? & _)%FillBuffer_true. lia.
  - intros (_ & _ & [[-> _]|(_ & _ & ->)])%FillBuffer_false; lia.
Qed.

Lemma refill_at_end_stream p b p' :
  refill_at_end read_size p = (b, p') →
  String.length (stream p') ≤ String.length (stream p).
Proof.
  unfold refill_at_end. case_match; [apply FillBuffer_stream|].
  by intros [= _ <-].
Qed.

Lemma ReadCharacter_loop_stream fuel : ∀ comment p r p',
  ReadCharacter_loop read_size fuel comment p = Some (r, p') →
  String.length (stream p') ≤ String.length (stream p).
Proof.
  induction fuel as [|fuel IH]; intros comment p r p'; [done|].
  simpl. repeat case_match; try (intros [= <- <-]);
    repeat match goal with
    | H : refill_at_end _ _ = _ |- _ => apply refill_at_end_stream in H
    | H : FillBuffer _ _ = _ |- _ => apply FillBuffer_stream in H
    end; simpl in *; try lia;
    intros ?%IH; simpl in *; lia.
Qed.

Lemma ReadCharacter_stream p r p' :
  ReadCharacter read_size p = (r, p') →
  String.length (stream p') ≤ String.length (stream p).
Proof.
  unfold ReadCharacter. case_match eqn:E.
  - intros ->. by eapply ReadCharacter_loop_stream.
  - by intros [= _ <-].
Qed.

Lemma FindToken_loop_stream fuel : ∀ buffer tokens b p c s p',
  FindToken_loop read_size fuel buffer tokens b p = Some (c, s, p') →
  String.length (stream p') ≤ String.length (stream p).
Proof.
  induction fuel as [|fuel IH]; intros buffer tokens b p c s p'; [done|].
  simpl. destruct (ReadCharacter read_size p) as [[ch|] p1] eqn:E;
    apply ReadCharacter_stream in E.
  - case_match.
    + intros [= _ _ <-]. by destruct b.
    + intros ?%IH. simpl in *. lia.
  - by intros [= _ _ <-].
Qed.

Lemma FindToken_stream tokens b p c s p' :
  FindToken read_size tokens b p = (c, s, p') →
  String.length (stream p') ≤ String.length (stream p).
Proof.
  unfold FindToken. case_match eqn:E.
  - intros ->. by eapply FindToken_loop_stream.
  - by intros [= _ _ <-].
Qed.

End ReaderFacts.


(** ** The declaration reader comes to an end *)

Section DeclarationFacts.

Variable read_size : nat.
Variable ParsePropertyDeclaration :
  PropertyDictionary → string → string → bool * PropertyDictionary.

Lemma remaining_warn m p : remaining (warn m p) = remaining p.
Proof. done. Qed.

Lemma remaining_forward n v p : remaining (forward n v p) = remaining p.
Proof. done. Qed.

Lemma ReadProperties_loop_total fuel : ∀ state name value previous properties p,
  remaining p < fuel →
  ∃ properties' p',
    ReadProperties_loop read_size ParsePropertyDeclaration fuel state name
      value previous properties p = Some (true, properties', p') ∧
    remaining p' ≤ remaining p.
Proof.
  induction fuel as [|fuel IH]; intros st name value previous properties p Hfuel;
    [lia|].
  simpl. destruct (ReadCharacter_spec read_size p)
    as (r & p1 & -> & _ & Hle & Hsome & _).
  destruct r as [character|].
  2:{ eexists _, _; split; [done|]. by case_match. }
  specialize (Hsome (mk_is_Some _ _ eq_refl)).
  assert (∀ st name value previous properties q,
    remaining q = remaining (advance p1) →
    ∃ properties' p',
      ReadProperties_loop read_size ParsePropertyDeclaration fuel st name
        value previous properties q = Some (true, properties', p') ∧
      remaining p' ≤ remaining p) as Hrec.
  { intros st' n' v' c' d' q' Hq.
    destruct (IH st' n' v' c' d' q') as (d & p' & -> & Hle'); [lia|].
    exists d, p'. split; [done|lia]. }
  assert (∀ (properties' : PropertyDictionary) (q : Parser),
    remaining q = remaining (advance p1) →
    ∃ (properties'' : PropertyDictionary) (p' : Parser),
      Some (true, properties', q) = Some (true, properties'', p') ∧
      remaining p' ≤ remaining p) as Hret.
  { intros d q' Hq. exists d, q'. split; [done|lia]. }
  destruct st.
  - destruct (Ascii.eqb character ";").
    { case_match; by apply Hrec. }
    destruct (Ascii.eqb character "}").
    { apply Hret. by case_match. }
    destruct (Ascii.eqb character ":"); by apply Hrec.
  - destruct (Ascii.eqb character ";").
    { destruct (ParsePropertyDeclaration properties name (StripWhitespace value))
        as [ok d]. apply Hrec. by destruct ok. }
    destruct (Ascii.eqb character "}"); [by apply Hret|by apply Hrec].
  - by apply Hrec.
Qed.

Lemma ReadProperties_spec properties p :
  ∃ properties' p',
    ReadProperties read_size ParsePropertyDeclaration properties p
      = (true, properties', p') ∧
    remaining p' ≤ remaining p.
Proof.
  destruct (ReadProperties_loop_total (S (remaining p)) NAME "" "" NUL properties p)
    as (d & p' & E & Hle); [lia|].
  exists d, p'. unfold ReadProperties. by rewrite E.
Qed.

Lemma ReadProperties_loop_stream fuel : ∀ st name value previous properties p r,
  ReadProperties_loop read_size ParsePropertyDeclaration fuel st name value
    previous properties p = Some r →
  String.length (stream r.2) ≤ String.length (stream p).
Proof.
  induction fuel as [|fuel IH]; intros st name value previous properties p r;
    [done|].
  simpl. destruct (ReadCharacter read_size p) as [[ch|] p1] eqn:E;
    apply ReadCharacter_stream in E.
  2:{ intros [= <-]. simpl. by case_match. }
  repeat case_match; try (intros [= <-]; simpl; lia);
    intros ?%IH; simpl in *; lia.
Qed.

Lemma ReadProperties_stream properties p r :
  ReadProperties read_size ParsePropertyDeclaration properties p = r →
  String.length (stream r.2) ≤ String.length (stream p).
Proof.
  unfold ReadProperties. case_match eqn:E.
  - intros ->. by eapply ReadProperties_loop_stream.
  - by intros <-.
Qed.

End DeclarationFacts.

(** ** The parse comes to an end *)

Section ParseFacts.

Variable read_size : nat.
Variable ParsePropertyDeclaration :
  PropertyDictionary → string → string → bool * PropertyDictionary.
Variable GetSelector : string → bool.
Variable scan_float : string → option (F32.float * string).
Variable sort_blocks : list KeyframeBlock → list KeyframeBlock.

Local Abbreviation token_step :=
  (Parse_token read_size ParsePropertyDeclaration GetSelector scan_float).
Local Abbreviation token_loop :=
  (Parse_tokens read_size ParsePropertyDeclaration GetSelector scan_float).
Local Abbreviation buffer_loop :=
  (Parse_buffers read_size ParsePropertyDeclaration GetSelector scan_float).

Lemma ParseKeyframeBlock_parser km identifier rules properties p :
  let p' := (ParseKeyframeBlock scan_float km identifier rules properties p).2 in
  remaining p' = remaining p ∧ stream p' = stream p.
Proof. unfold ParseKeyframeBlock. by repeat case_match. Qed.

Lemma Parse_token_progress token pre c f c' :
  token_step token pre c = (f, c') →
  remaining (parser c') ≤ remaining (parser c) ∧
  String.length (stream (parser c')) ≤ String.length (stream (parser c)).
Proof.
  unfold Parse_token.
  destruct (ReadProperties_spec read_size ParsePropertyDeclaration ∅ (parser c))
    as (d & p1 & E & Hle).
  pose proof (ReadProperties_stream _ _ _ _ _ E) as Hs. simpl in Hs.
  pose proof (ParseKeyframeBlock_parser (keyframes c) (keyframes_identifier c)
                pre d p1) as [Hk1 Hk2]. simpl in Hk1, Hk2.
  rewrite E. simpl.
  destruct (ParseKeyframeBlock _ _ _ _ _ _) as [[ok km] p2]. simpl in *.
  repeat case_match; intros [= <- <-]; simpl; rewrite ?Hk1, ?Hk2; auto.
Qed.

Lemma Parse_tokens_total fuel : ∀ c,
  remaining (parser c) < fuel →
  ∃ c', token_loop fuel c = Some c' ∧
        String.length (stream (parser c')) ≤ String.length (stream (parser c)).
Proof.
  induction fuel as [|fuel IH]; intros c Hfuel; [lia|].
  simpl. destruct (FindToken_spec read_size "{@}" (parser c))
    as (token & pre & p & E & Hle & Hlt & _).
  pose proof (FindToken_stream _ _ _ _ _ _ _ E) as Hs.
  rewrite E. destruct (Ascii.eqb_spec token NUL) as [->|Hne].
  { eexists; split; [done|]. done. }
  specialize (Hlt Hne).
  destruct (token_step token pre (set_parser p c)) as [f c1] eqn:Et.
  apply Parse_token_progress in Et as [Hr1 Hs1]. simpl in Hr1, Hs1.
  assert (∃ c', token_loop fuel c1 = Some c' ∧
    String.length (stream (parser c')) ≤ String.length (stream (parser c)))
    as Hrec.
  { destruct (IH c1) as (c' & -> & ?); [lia|]. exists c'. split; [done|lia]. }
  destruct f; [done|]. case_decide; [|done].
  eexists; split; [done|]. lia.
Qed.

Lemma Parse_buffers_S fuel c :
  buffer_loop (S fuel) c =
  match FillBuffer read_size (parser c) with
  | (false, p) => Some (set_parser p c)
  | (true, p) =>
    match token_loop (S (remaining p)) (set_parser p c) with
    | None => None
    | Some c =>
      if decide (state c = Invalid) then Some c else buffer_loop fuel c
    end
  end.
Proof. done. Qed.

Lemma Parse_buffers_total fuel : ∀ c,
  String.length (stream (parser c)) < fuel →
  ∃ c', buffer_loop fuel c = Some c'.
Proof.
  induction fuel as [|fuel IH]; intros c Hfuel; [lia|].
  rewrite Parse_buffers_S. destruct (FillBuffer read_size (parser c)) as [[] p] eqn:E; [|eauto].
  apply FillBuffer_true in E as (_ & Hb & Hs & _).
  destruct (Parse_tokens_total (S (remaining p)) (set_parser p c))
    as (c1 & -> & Hs1); [simpl; lia|].
  simpl in Hs1. case_decide; [eauto|]. apply IH. lia.
Qed.

(** X11: [Parse] returns, whatever the stream holds and whatever the read
    size is: every round of its loops takes something from what is left to
    be read. *)
Lemma Parse_total this node keyframes _stream :
  ∃ r, Parse read_size ParsePropertyDeclaration GetSelector scan_float
             sort_blocks this node keyframes _stream = Some r.
Proof.
  unfold Parse.
  destruct (Parse_buffers_total (S (String.length _stream))
              (Parse_start this node keyframes _stream)) as (c & ->);
    [simpl; lia|].
  eauto.
Qed.

Lemma Parse_buffers_rest fuel c :
  buffer_loop (S fuel) c =
  match FillBuffer read_size (parser c) with
  | (false, p) => Some (set_parser p c)
  | (true, p) =>
    Parse_rest read_size ParsePropertyDeclaration GetSelector scan_float
               (S (remaining p)) fuel (set_parser p c)
  end.
Proof. done. Qed.

(** C4: when the token found in state [KeyframesIdentifier] or
    [KeyframesRules] is one the state does not expect, the rest of the
    parse is over at once: a warning is logged, the stream stays as the
    search for the token left it, and [Parse] ends with the rule count,
    the tree and the keyframe blocks it had, the latter post-processed. *)
Theorem Parse_illegal_keyframes_token fuel_tokens fuel_buffers c token pre p :
  (state c = KeyframesIdentifier ∧ token ≠ "{"%char) ∨
  (state c = KeyframesRules ∧ token ≠ "{"%char ∧ token ≠ "}"%char) →
  token ≠ NUL →
  FindToken read_size "{@}" true (parser c) = (token, pre, p) →
  ∃ c' message,
    Parse_rest read_size ParsePropertyDeclaration GetSelector scan_float
               (S fuel_tokens) fuel_buffers c = Some c' ∧
    state c' = Invalid ∧
    Parse_finish sort_blocks c'
      = (rule_count c, node c, PostprocessKeyframes sort_blocks (keyframes c),
         parser c') ∧
    parser c' = warn message p ∧
    stream (parser c') = stream p ∧
    log (parser c') = (log (parser c) ++ [message])%list ∧
    (message = InvalidCharacterKeyframesIdentifier token (line_number p) ∨
     message = InvalidCharacterKeyframes token (line_number p)).
Proof.
  intros Hstate Hnul Htoken.
  destruct (FindToken_spec read_size "{@}" (parser c))
    as (? & ? & ? & E & _ & _ & Hout).
  rewrite Htoken in E. injection E as <- <- <-.
  injection Hout as Hlog _.
  unfold Parse_rest. simpl. rewrite Htoken.
  destruct (Ascii.eqb_spec token NUL) as [|_]; [done|].
  unfold Parse_token. simpl.
  destruct Hstate as [[-> Ho]|(-> & Ho & Hc)].
  - destruct (Ascii.eqb_spec token "{") as [|_]; [done|]. simpl.
    eexists _, _. split; [done|]. simpl. rewrite Hlog. eauto 10.
  - destruct (Ascii.eqb_spec token "{") as [|_]; [done|].
    destruct (Ascii.eqb_spec token "}") as [|_]; [done|]. simpl.
    eexists _, _. split; [done|]. simpl. rewrite Hlog. eauto 10.
Qed.

(** C10: [ReadProperties] returns, and returns [true], from every state of
    the parser; so a ['{'] in state [Global] always ends in a counted
    rule. *)
Theorem ReadProperties_returns_true properties p :
  (∃ properties' p',
     ReadProperties_loop read_size ParsePropertyDeclaration (S (remaining p))
       NAME "" "" NUL properties p = Some (true, properties', p') ∧
     ReadProperties read_size ParsePropertyDeclaration properties p
       = (true, properties', p')) ∧
  (∀ pre identifier count tree km,
     ∃ c', Parse_token read_size ParsePropertyDeclaration GetSelector scan_float
                       "{" pre (mkParsing Global identifier count tree km p)
           = (AtEnd, c') ∧
           state c' = Global ∧ rule_count c' = S count).
Proof.
  split.
  - destruct (ReadProperties_loop_total read_size ParsePropertyDeclaration
                (S (remaining p)) NAME "" "" NUL properties p)
      as (d & p' & E & _); [lia|].
    exists d, p'. split; [done|]. unfold ReadProperties. by rewrite E.
  - intros pre identifier count tree km.
    destruct (ReadProperties_spec read_size ParsePropertyDeclaration ∅ p)
      as (d & p' & E & _).
    unfold Parse_token. simpl. rewrite E. simpl. eauto.
Qed.

End ParseFacts.

(** ** A declaration without its colon *)

(** C6: on [.x { top 1px; }] the parser hands no declaration on, so the
    node for class [x] is made and gets no property; one warning is logged
    for the name without a value, and the rule is counted.  This holds with
    any collaborators. *)
Theorem Parse_missing_colon ParsePropertyDeclaration GetSelector scan_float
    sort_blocks :
  Parse 4092 ParsePropertyDeclaration GetSelector scan_float sort_blocks
        (new_parser "") root_node ∅ ".x { top 1px; }"
  = Some (1,
          Node "" ROOT ∅ [Node "" TAG ∅ [Node "x" CLASS ∅ []]],
          ∅,
          mkParser "" ".x { top 1px; }" 15 0 [NameWithNoValue "top 1px" 0] []).
Proof. vm_compute. reflexivity. Qed.

(** ** The order of classes and pseudo-classes in a selector *)


Section SelectorFacts.

Variable GetSelector : string → bool.


End SelectorFacts.

(** ** Single precision arithmetic *)

Module F32Facts.

Local Open Scope Z_scope.

Abbreviation small := F32.small.

Lemma digits2_pos_bounds p :
  2 ^ (Zpos (digits2_pos p) - 1) ≤ Zpos p < 2 ^ Zpos (digits2_pos p).
Proof.
  induction p as [p IH|p IH|]; simpl digits2_pos; [| |simpl; lia];
    rewrite Pos2Z.inj_succ;
    replace (Z.succ (Zpos (digits2_pos p)) - 1) with (Zpos (digits2_pos p))
      by lia;
    rewrite Z.pow_succ_r by lia;
    (assert (2 ^ Zpos (digits2_pos p) = 2 * 2 ^ (Zpos (digits2_pos p) - 1))
      by (rewrite <- Z.pow_succ_r by lia; f_equal; lia));
    lia.
Qed.

Lemma digits2_pos_le p k : 0 ≤ k → Zpos p < 2 ^ k → Zpos (digits2_pos p) ≤ k.
Proof.
  intros Hk Hp. pose proof (digits2_pos_bounds p) as Hd.
  destruct (Z.le_gt_cases (Zpos (digits2_pos p)) k) as [|Hlt]; [done|].
  assert (2 ^ k ≤ 2 ^ (Zpos (digits2_pos p) - 1))
    by (apply Z.pow_le_mono_r; lia).
  lia.
Qed.

Lemma shr_1_m r : 0 ≤ shr_m r → shr_m (shr_1 r) = shr_m r / 2.
Proof.
  destruct r as [m r s]. simpl. intros Hm.
  destruct m as [|[p|p|]|p]; cbn [shr_m]; try lia; try reflexivity.
  - apply Z.div_unique with 1; lia.
  - apply Z.div_unique with 0; lia.
Qed.

Lemma shr_1_nonneg r : 0 ≤ shr_m r → 0 ≤ shr_m (shr_1 r).
Proof. intros H. rewrite shr_1_m by done. apply Z.div_pos; lia. Qed.

Lemma pow2_xO n : 2 ^ Zpos n~0 = 2 ^ Zpos n * 2 ^ Zpos n.
Proof. rewrite <- Z.pow_add_r by lia. f_equal. lia. Qed.

Lemma pow2_xI n : 2 ^ Zpos n~1 = 2 * (2 ^ Zpos n * 2 ^ Zpos n).
Proof. rewrite <- Z.pow_add_r, <- Z.pow_succ_r by lia. f_equal. lia. Qed.

Lemma iter_shr_1_m n : ∀ r, 0 ≤ shr_m r →
  shr_m (SpecFloat.iter_pos shr_1 n r) = shr_m r / 2 ^ Zpos n ∧
  0 ≤ shr_m (SpecFloat.iter_pos shr_1 n r).
Proof.
  induction n as [n IH|n IH|]; intros r Hr; simpl SpecFloat.iter_pos.
  - pose proof (shr_1_nonneg r Hr) as H1.
    destruct (IH _ H1) as [E1 N1]. destruct (IH _ N1) as [E2 N2].
    split; [|done]. rewrite E2, E1, shr_1_m by done.
    assert (0 < 2 ^ Zpos n) by (apply Z.pow_pos_nonneg; lia).
    rewrite !Z.div_div by lia. f_equal. rewrite pow2_xI. lia.
  - destruct (IH _ Hr) as [E1 N1]. destruct (IH _ N1) as [E2 N2].
    split; [|done]. rewrite E2, E1.
    assert (0 < 2 ^ Zpos n) by (apply Z.pow_pos_nonneg; lia).
    rewrite !Z.div_div by lia. f_equal. rewrite pow2_xO. lia.
  - split; [|by apply shr_1_nonneg]. rewrite shr_1_m by done. f_equal.
Qed.

Lemma shr_spec r e n : 0 ≤ shr_m r → 0 ≤ n →
  shr_m (shr r e n).1 = shr_m r / 2 ^ n ∧ (shr r e n).2 = e + n.
Proof.
  intros Hr Hn. destruct n as [|n|n]; simpl; [| |lia].
  - rewrite Z.div_1_r. lia.
  - split; [|done]. by apply iter_shr_1_m.
Qed.

Lemma round_nearest_even_bounds m l :
  m ≤ round_nearest_even m l ≤ m + 1.
Proof. destruct l as [|[]]; simpl; try lia. destruct (Z.even m); lia. Qed.


(** Rounding a positive number of at least 24 digits whose value is below
    one: the result is at most one. *)
Lemma binary_round_aux_small P ex :
  2 ^ 23 ≤ Zpos P →
  Zdigits2 (Zpos P) + ex ≤ 0 →
  small (binary_round_aux F32.prec F32.emax false (Zpos P) ex loc_Exact).
Proof.
  intros HP Hd.
  pose proof (digits2_pos_bounds P) as HdP.
  set (d := Zpos (digits2_pos P)) in *.
  change (Zdigits2 (Zpos P)) with d in Hd.
  assert (24 ≤ d) as Hd24.
  { destruct (Z.le_gt_cases 24 d) as [|Hlt]; [done|].
    assert (2 ^ d ≤ 2 ^ 23) by (apply Z.pow_le_mono_r; lia). lia. }
  unfold binary_round_aux, shr_fexp.
  change (Zdigits2 (Zpos P)) with d.
  set (fe := fexp F32.prec F32.emax (d + ex)).
  assert (fe = Z.max (d + ex - 24) (-149)) as Hfe by reflexivity.
  destruct (shr_spec (shr_record_of_loc (Zpos P) loc_Exact) ex (fe - ex))
    as [Hm1 He1]; [simpl; lia|lia|].
  destruct (shr (shr_record_of_loc (Zpos P) loc_Exact) ex (fe - ex))
    as [mrs1 e1].
  simpl in Hm1, He1. subst e1. replace (ex + (fe - ex)) with fe by lia.
  set (m1 := shr_m mrs1) in *.
  assert (0 ≤ m1 < 2 ^ 24) as Hm1b.
  { rewrite Hm1. split; [apply Z.div_pos; [lia|apply Z.pow_pos_nonneg; lia]|].
    apply Z.div_lt_upper_bound; [apply Z.pow_pos_nonneg; lia|].
    assert (2 ^ d ≤ 2 ^ (fe - ex) * 2 ^ 24); [|lia].
    rewrite <- Z.pow_add_r by lia. apply Z.pow_le_mono_r; lia. }
  pose proof (round_nearest_even_bounds m1 (loc_of_shr_record mrs1)) as Hr.
  set (mr := round_nearest_even m1 (loc_of_shr_record mrs1)) in *.
  change (2 ^ 24) with 16777216 in Hm1b.
  assert (mr = 16777216 ∨ (0 ≤ mr < 2 ^ 24)) as [Hmr|Hmr] by lia.
  - rewrite Hmr. change (Zdigits2 16777216) with 25.
    assert (fexp F32.prec F32.emax (25 + fe) - fe = 1) as ->.
    { unfold fexp, emin, F32.prec, F32.emax. lia. }
    cbn. change (F32.emax - F32.prec) with 104.
    destruct (Z.leb_spec (fe + 1) 104); [|lia]. cbn. lia.
  - assert (Zdigits2 mr ≤ 24) as Hd2.
    { destruct mr as [|q|q]; simpl; [lia| |lia]. apply digits2_pos_le; lia. }
    assert (fexp F32.prec F32.emax (Zdigits2 mr + fe) - fe ≤ 0) as Hn2.
    { unfold fexp, emin, F32.prec, F32.emax. lia. }
    unfold shr.
    destruct (fexp F32.prec F32.emax (Zdigits2 mr + fe) - fe) eqn:E; try lia;
      cbn; (destruct mr as [|q|q]; [done| |lia]);
      change (F32.emax - F32.prec) with 104;
      (destruct (Z.leb_spec fe 104); [|lia]); cbn; lia.
Qed.

Lemma small_in_unit_interval x :
  small x → F32.in_unit_interval x = true ∧ F32.is_finite x = true.
Proof.
  destruct x as [s|s| |s m e]; simpl; try done.
  intros [-> He]. split; [|done].
  destruct He as [He|[-> ->]]; [|vm_compute; reflexivity].
  unfold F32.in_unit_interval, F32.leb, SFleb, F32.zero, F32.one.
  cbn [SFcompare andb].
  by destruct (Z.compare_spec e (-23)); try lia.
Qed.

Lemma leb_finite_positive m e m' e' :
  F32.leb (S754_finite false m e) (S754_finite false m' e') = true →
  e < e' ∨ (e = e' ∧ Zpos m ≤ Zpos m').
Proof.
  unfold F32.leb, SFleb. cbn [SFcompare].
  change (Pos.compare_cont Eq m m') with (Pos.compare m m').
  destruct (Z.compare_spec e e'); [|lia|done].
  destruct (Pos.compare_spec m m'); [lia|lia|done].
Qed.

(** The product [0.01f * value] for a [value] from 0 to 100. *)
Lemma mul_hundredth_small value :
  F32.valid value = true →
  F32.leb F32.zero value = true →
  F32.leb value F32.hundred = true →
  small (F32.mul F32.hundredth value).
Proof.
  destruct value as [s|s| |s m e]; try done.
  { by destruct s. }
  intros Hvalid Hzero Hhundred.
  destruct s; [done|].
  unfold F32.valid, valid_binary, bounded, canonical_mantissa in Hvalid.
  apply andb_prop in Hvalid as [Hcan _]. apply Z.eqb_eq in Hcan.
  unfold fexp, emin, F32.prec, F32.emax in Hcan.
  assert (Zpos (digits2_pos m) ≤ 24) as Hdm by lia.
  pose proof (digits2_pos_bounds m) as Hm.
  assert (Zpos m < 2 ^ 24) as Hm24.
  { assert (2 ^ Zpos (digits2_pos m) ≤ 2 ^ 24)
      by (apply Z.pow_le_mono_r; lia). lia. }
  apply leb_finite_positive in Hhundred.
  clear Hzero Hcan Hm.
  unfold F32.mul, F32.hundredth, SFmul. cbn [xorb].
  apply binary_round_aux_small.
  - rewrite Pos2Z.inj_mul. change (2 ^ 23) with 8388608. lia.
  - cbn [Zdigits2]. change (2 ^ 24) with 16777216 in Hm24.
    destruct Hhundred as [He|[-> Hle]].
    + assert (Zpos (digits2_pos (10737418 * m)) ≤ 48); [|lia].
      apply digits2_pos_le; [lia|]. rewrite Pos2Z.inj_mul.
      change (2 ^ 48) with 281474976710656. lia.
    + assert (Zpos (digits2_pos (10737418 * m)) ≤ 47); [|lia].
      apply digits2_pos_le; [lia|]. rewrite Pos2Z.inj_mul.
      change (2 ^ 47) with 140737488355328. lia.
Qed.

(** *** Comparisons *)

Ltac compare_cases :=
  repeat match goal with
  | H : context [Pos.compare_cont Eq ?x ?y] |- _ =>
    change (Pos.compare_cont Eq x y) with (Pos.compare x y) in H
  | |- context [Pos.compare_cont Eq ?x ?y] =>
    change (Pos.compare_cont Eq x y) with (Pos.compare x y)
  end;
  repeat match goal with
  | H : context [Z.compare ?x ?y] |- _ =>
    destruct (Z.compare_spec x y); simpl in H; try done
  | |- context [Z.compare ?x ?y] =>
    destruct (Z.compare_spec x y); simpl; try done
  | H : context [Pos.compare ?x ?y] |- _ =>
    destruct (Pos.compare_spec x y); simpl in H; try done
  | |- context [Pos.compare ?x ?y] =>
    destruct (Pos.compare_spec x y); simpl; try done
  end;
  try (subst; lia).

Lemma ltb_asym a b : F32.ltb a b = true → F32.ltb b a = false.
Proof.
  unfold F32.ltb, SFltb.
  destruct a as [[]|[]| |[] ma ea], b as [[]|[]| |[] mb eb]; simpl; try done;
    intros H; compare_cases.
Qed.

Lemma leb_trans a b c :
  F32.leb a b = true → F32.leb b c = true → F32.leb a c = true.
Proof.
  unfold F32.leb, SFleb.
  destruct a as [[]|[]| |[] ma ea], b as [[]|[]| |[] mb eb],
           c as [[]|[]| |[] mc ec]; simpl; try done;
    intros H1 H2; compare_cases.
Qed.

Lemma leb_antisym a b :
  F32.leb a b = true → F32.leb b a = true → F32.eqb a b = true.
Proof.
  unfold F32.leb, SFleb, F32.eqb, SFeqb.
  destruct a as [[]|[]| |[] ma ea], b as [[]|[]| |[] mb eb]; simpl; try done;
    intros H1 H2; compare_cases.
Qed.

(** Without a NaN, "not less" is "greater or equal". *)
Lemma not_ltb_leb a b :
  a ≠ S754_nan → b ≠ S754_nan →
  F32.ltb b a = false → F32.leb a b = true.
Proof.
  unfold F32.leb, SFleb, F32.ltb, SFltb.
  destruct a as [[]|[]| |[] ma ea], b as [[]|[]| |[] mb eb]; simpl; try done;
    intros _ _ H; compare_cases.
Qed.

Lemma leb_not_ltb a b : F32.leb a b = true → F32.ltb b a = false.
Proof.
  unfold F32.leb, SFleb, F32.ltb, SFltb.
  destruct a as [[]|[]| |[] ma ea], b as [[]|[]| |[] mb eb]; simpl; try done;
    intros H; compare_cases.
Qed.

Lemma is_finite_not_nan x : F32.is_finite x = true → x ≠ S754_nan.
Proof. by destruct x. Qed.

(** Equal finite numbers are the same number, or two zeros. *)
Lemma eqb_finite a b :
  F32.eqb a b = true → F32.is_finite a = true →
  a = b ∨ (∃ s t, a = S754_zero s ∧ b = S754_zero t).
Proof.
  unfold F32.eqb, SFeqb.
  destruct a as [[]|[]| |[] ma ea], b as [[]|[]| |[] mb eb]; simpl; try done;
    intros H _; eauto; left; compare_cases;
    repeat match goal with H : Zpos _ = Zpos _ |- _ => injection H as -> end;
    by subst.
Qed.

(** The difference of two equal finite numbers is below the tolerance of
    the search for a block. *)
Lemma eqb_sub_tolerance a b :
  F32.eqb a b = true → F32.is_finite a = true →
  F32.ltb (F32.abs (F32.sub a b)) F32.tolerance = true.
Proof.
  intros H Hf. destruct (eqb_finite a b H Hf) as [<-|(s & t & -> & ->)].
  - destruct a as [[]|[]| |s m e]; try done.
    unfold F32.sub, SFsub. rewrite Z.sub_diag. done.
  - by destruct s, t.
Qed.

(** Equal numbers have the same distance from any number. *)
Lemma eqb_sub_abs x a b :
  F32.eqb a b = true → F32.is_finite a = true →
  F32.abs (F32.sub x a) = F32.abs (F32.sub x b).
Proof.
  intros H Hf. destruct (eqb_finite a b H Hf) as [<-|(s & t & -> & ->)]; [done|].
  by destruct x as [[]|[]| |[] ? ?], s, t.
Qed.

End F32Facts.

(** ** Keyframe blocks *)

Section KeyframesFacts.

Variable scan_float : string → option (F32.float * string).
Hypothesis scan_float_ok : scan_float_valid scan_float.

Import F32Facts.

Lemma rule_value_small rule v :
  rule_value scan_float rule = Some v → small v.
Proof.
  unfold rule_value.
  destruct (String.eqb _ "from"); [by intros [= <-]|].
  destruct (String.eqb _ "to"); [intros [= <-]; simpl; lia|].
  destruct (sscanf_float_percent scan_float (ToLower rule))
    as [[conversions value] count] eqn:E.
  destruct (conversions =? 1)%Z; [|done].
  destruct (0 <? count); [|done].
  destruct (F32.leb F32.zero value) eqn:E0; [|done].
  destruct (F32.leb value F32.hundred) eqn:E1; [|done].
  intros [= <-]. apply mul_hundredth_small; [|done..].
  unfold sscanf_float_percent in E.
  destruct (scan_float (ToLower rule)) as [[value' rest]|] eqn:Es.
  - apply scan_float_ok in Es. by repeat case_match; simplify_eq.
  - by repeat case_match; simplify_eq.
Qed.

Lemma rule_values_small rules :
  Forall small (rule_values scan_float rules).
Proof.
  unfold rule_values. apply Forall_forall. intros v Hv.
  apply list_elem_of_omap in Hv as (rule & _ & Hv).
  by eapply rule_value_small.
Qed.

Lemma Import_empty (props : PropertyDictionary) : Import ∅ props = props.
Proof. unfold Import. apply (right_id_L ∅ (∪)). Qed.

Lemma set_block_times (Q : F32.float → Prop) v props bs :
  Q v → Forall (λ b, Q (normalized_time b)) bs →
  Forall (λ b, Q (normalized_time b)) (set_block v props bs).
Proof.
  intros Hv. induction 1 as [|b bs Hb Hbs IH]; simpl.
  - by constructor.
  - case_match; constructor; auto.
Qed.

Lemma set_block_keeps_times v props bs b :
  b ∈ bs → ∃ b', b' ∈ set_block v props bs ∧
                 normalized_time b' = normalized_time b.
Proof.
  induction bs as [|c bs IH]; [by intros ?%elem_of_nil|].
  intros [->|Hb]%elem_of_cons; simpl.
  - case_match; eexists; (split; [by left|done]).
  - case_match.
    + exists b. split; [by right|done].
    + destruct (IH Hb) as (b' & ? & ?). exists b'. split; [by right|done].
Qed.

Lemma set_block_properties v props bs b' :
  b' ∈ set_block v props bs → b' ∈ bs ∨ properties b' = props.
Proof.
  induction bs as [|c bs IH]; simpl.
  - intros ->%list_elem_of_singleton. right. apply Import_empty.
  - case_match.
    + intros [->|Hb]%elem_of_cons.
      * right. apply Import_empty.
      * left. by right.
    + intros [->|Hb]%elem_of_cons; [left; by left|].
      destruct (IH Hb); [left; by right|by right].
Qed.

Lemma set_block_apart v props bs : apart bs → apart (set_block v props bs).
Proof.
  induction bs as [|c bs IH]; simpl; [intros _; split; [constructor|done]|].
  intros [Hc Hbs]. destruct (same_time v c) eqn:E; simpl; (split; [|by auto]).
  - exact Hc.
  - apply (set_block_times (λ t, same_time t c = false)); done.
Qed.

Lemma set_block_well_formed v props bs :
  small v → well_formed_blocks bs → well_formed_blocks (set_block v props bs).
Proof.
  intros Hv [Ha Hf]. split; [by apply set_block_apart|].
  apply (set_block_times (λ t, F32.in_unit_interval t = true)); [|done].
  by apply small_in_unit_interval.
Qed.

Lemma in_unit_interval_finite t :
  F32.in_unit_interval t = true → F32.is_finite t = true.
Proof.
  unfold F32.in_unit_interval, F32.leb, SFleb.
  by destruct t as [[]|[]| |[] m e].
Qed.

(** A block at the time of the selector holds the new properties and
    nothing else. *)
Lemma set_block_at_time v props bs b' :
  well_formed_blocks bs →
  b' ∈ set_block v props bs →
  F32.eqb (normalized_time b') v = true →
  properties b' = props.
Proof.
  intros [Ha Hf]. induction bs as [|c bs IH]; simpl.
  - intros ->%list_elem_of_singleton _. apply Import_empty.
  - destruct Ha as [Hc Ha]. apply Forall_cons in Hf as [Hfc Hf].
    destruct (same_time v c) eqn:E.
    + intros [->|Hb]%elem_of_cons Heq; [apply Import_empty|].
      unfold apart_from in Hc.
      rewrite Forall_forall in Hc, Hf. specialize (Hc _ Hb).
      unfold same_time in Hc, E.
      rewrite (eqb_sub_abs _ _ v Heq) in Hc by by apply in_unit_interval_finite, Hf.
      congruence.
    + intros [->|Hb]%elem_of_cons Heq; [|by apply IH].
      unfold same_time in E.
      rewrite (eqb_sub_tolerance _ _ Heq) in E
        by by apply in_unit_interval_finite.
      done.
Qed.

Lemma eqb_sym a b : F32.eqb a b = true → F32.eqb b a = true.
Proof.
  unfold F32.eqb, SFeqb.
  destruct a as [[]|[]| |[] ma ea], b as [[]|[]| |[] mb eb]; simpl; try done;
    intros H; compare_cases.
Qed.

(** At most one block for a time. *)
Lemma well_formed_one_per_time bs i j bi bj :
  well_formed_blocks bs →
  bs !! i = Some bi → bs !! j = Some bj →
  F32.eqb (normalized_time bi) (normalized_time bj) = true →
  i = j.
Proof.
  intros [Ha Hf]. revert i j. induction bs as [|c bs IH]; [done|].
  destruct Ha as [Hc Ha]. apply Forall_cons in Hf as [Hfc Hf].
  assert (∀ b, b ∈ bs →
    F32.eqb (normalized_time c) (normalized_time b) = true → False) as Hno.
  { intros b Hb Heq. unfold apart_from in Hc.
    rewrite Forall_forall in Hc. specialize (Hc _ Hb).
    unfold same_time in Hc.
    rewrite (eqb_sub_tolerance _ _ Heq) in Hc
      by by apply in_unit_interval_finite.
    done. }
  intros [|i] [|j]; simpl; intros Hi Hj Heq; simplify_eq; [done| | |].
  - destruct (Hno bj); [by eapply list_elem_of_lookup_2|done].
  - destruct (Hno bi); [by eapply list_elem_of_lookup_2|by apply eqb_sym].
  - f_equal. by eapply IH.
Qed.

Lemma fold_set_block_times (Q : F32.float → Prop) props values : ∀ bs,
  Forall Q values → Forall (λ b, Q (normalized_time b)) bs →
  Forall (λ b, Q (normalized_time b))
         (foldl (λ bs v, set_block v props bs) bs values).
Proof.
  induction values as [|v values IH]; intros bs Hv Hbs; [done|].
  apply Forall_cons in Hv as [Hv Hvs]. simpl.
  by apply IH, set_block_times.
Qed.

Lemma fold_set_block_well_formed props values : ∀ bs,
  Forall small values → well_formed_blocks bs →
  well_formed_blocks (foldl (λ bs v, set_block v props bs) bs values).
Proof.
  induction values as [|v values IH]; intros bs Hv Hbs; [done|].
  apply Forall_cons in Hv as [Hv Hvs]. simpl.
  by apply IH, set_block_well_formed.
Qed.

Lemma fold_set_block_properties props values : ∀ bs b',
  b' ∈ foldl (λ bs v, set_block v props bs) bs values →
  b' ∈ bs ∨ properties b' = props.
Proof.
  induction values as [|v values IH]; intros bs b' Hb; [by left|].
  simpl in Hb. destruct (IH _ _ Hb) as [Hb'|]; [|by right].
  by apply set_block_properties in Hb'.
Qed.

Lemma fold_set_block_keeps_times props values : ∀ bs b,
  b ∈ bs →
  ∃ b', b' ∈ foldl (λ bs v, set_block v props bs) bs values ∧
        normalized_time b' = normalized_time b.
Proof.
  induction values as [|v values IH]; intros bs b Hb; [by exists b|].
  simpl. destruct (set_block_keeps_times v props bs b Hb) as (b1 & Hb1 & E1).
  destruct (IH _ _ Hb1) as (b' & Hb' & E'). exists b'. split; [done|congruence].
Qed.

Lemma fold_set_block_at_time props values : ∀ bs v b',
  Forall small values → well_formed_blocks bs →
  v ∈ values →
  b' ∈ foldl (λ bs v, set_block v props bs) bs values →
  F32.eqb (normalized_time b') v = true →
  properties b' = props.
Proof.
  induction values as [|v0 values IH]; intros bs v b' Hvs Hbs Hv Hb Heq.
  { by apply elem_of_nil in Hv. }
  apply Forall_cons in Hvs as [Hv0 Hvs]. simpl in Hb.
  apply elem_of_cons in Hv as [->|Hv].
  - destruct (fold_set_block_properties _ _ _ _ Hb) as [Hb'|]; [|done].
    by eapply set_block_at_time.
  - eapply IH; [done| |done..]. by apply set_block_well_formed.
Qed.

(** *** Times that compare equal *)

Lemma distinct_times_Permutation l1 l2 :
  l1 ≡ₚ l2 → distinct_times l1 → distinct_times l2.
Proof.
  induction 1 as [|b l1 l2 Hp IH|a b l|l1 l2 l3 _ IH1 _ IH2]; simpl; auto.
  - intros [Hb Hl]. split; [by rewrite <- Hp|auto].
  - intros [Hb [Ha Hl]]. apply Forall_cons in Hb as [Hba Hb].
    repeat split; try done. apply Forall_cons. split; [|done].
    destruct (F32.eqb (normalized_time a) (normalized_time b)) eqn:E; [|done].
    apply eqb_sym in E. congruence.
Qed.

Lemma well_formed_distinct bs : well_formed_blocks bs → distinct_times bs.
Proof.
  intros [Ha Hf]. induction bs as [|c bs IH]; [done|].
  destruct Ha as [Hc Ha]. apply Forall_cons in Hf as [Hfc Hf].
  split; [|by apply IH]. unfold apart_from in Hc.
  rewrite Forall_forall in Hc |- *. intros b Hb. specialize (Hc _ Hb).
  destruct (F32.eqb (normalized_time c) (normalized_time b)) eqn:E; [|done].
  unfold same_time in Hc.
  rewrite (eqb_sub_tolerance _ _ E) in Hc by by apply in_unit_interval_finite.
  done.
Qed.

Lemma distinct_times_lookup bs i j bi bj :
  distinct_times bs →
  bs !! i = Some bi → bs !! j = Some bj →
  F32.eqb (normalized_time bi) (normalized_time bj) = true →
  i = j.
Proof.
  revert i j. induction bs as [|c bs IH]; [done|].
  intros i j [Hc Hd]. rewrite Forall_forall in Hc.
  destruct i as [|i], j as [|j]; simpl; intros Hi Hj Heq; simplify_eq; [done| | |].
  - apply list_elem_of_lookup_2 in Hj. specialize (Hc _ Hj). congruence.
  - apply list_elem_of_lookup_2 in Hi. specialize (Hc _ Hi).
    apply eqb_sym in Heq. congruence.
  - f_equal. by eapply IH.
Qed.

Lemma distinct_times_elem_of bs x y :
  distinct_times bs → x ∈ bs → y ∈ bs →
  F32.eqb (normalized_time x) (normalized_time y) = true → x = y.
Proof.
  intros Hd [i Hi]%list_elem_of_lookup [j Hj]%list_elem_of_lookup Heq.
  assert (i = j) by by eapply distinct_times_lookup. congruence.
Qed.

(** *** Sorting the blocks *)

Global Instance time_le_trans : Transitive time_le.
Proof. intros a b c. apply leb_trans. Qed.

Lemma Sorted_block_le_time_le l :
  Forall (λ b, normalized_time b ≠ S754_nan) l →
  Sorted block_le l → Sorted time_le l.
Proof.
  intros Hn. induction 1 as [|a l Hs IH Hd]; [constructor|].
  apply Forall_cons in Hn as [Ha Hn]. constructor; [by apply IH|].
  destruct Hd as [|b l Hab]; constructor.
  apply Forall_cons in Hn as [Hb _]. by apply not_ltb_leb.
Qed.

Lemma insert_block_Permutation b l : insert_block b l ≡ₚ b :: l.
Proof.
  induction l as [|c l IH]; simpl; [done|].
  case_match; [|done]. rewrite IH. apply Permutation_swap.
Qed.

Lemma stable_sort_blocks_Permutation l : stable_sort_blocks l ≡ₚ l.
Proof.
  induction l as [|b l IH]; simpl; [done|].
  by rewrite insert_block_Permutation, IH.
Qed.

Lemma insert_block_Sorted b l :
  Sorted block_le l → Sorted block_le (insert_block b l).
Proof.
  induction 1 as [|c l Hs IH Hd]; simpl; [by repeat constructor|].
  destruct (block_lt c b) eqn:E.
  - constructor; [done|].
    destruct Hd as [|d l Hcd]; simpl.
    + constructor. by apply ltb_asym.
    + case_match; constructor; [done|]. by apply ltb_asym.
  - by repeat constructor.
Qed.

Lemma stable_sort_blocks_Sorted l : Sorted block_le (stable_sort_blocks l).
Proof.
  induction l as [|b l IH]; simpl; [constructor|]. by apply insert_block_Sorted.
Qed.

Lemma stable_sort_contract : sort_contract stable_sort_blocks.
Proof.
  intros l _. split;
    [apply stable_sort_blocks_Permutation|apply stable_sort_blocks_Sorted].
Qed.

Lemma well_formed_not_nan bs :
  well_formed_blocks bs → Forall (λ b, normalized_time b ≠ S754_nan) bs.
Proof.
  intros [_ Hf]. eapply Forall_impl; [done|]. simpl. intros b Hb.
  by apply is_finite_not_nan, in_unit_interval_finite.
Qed.

(** With the times the parser stores, any sort that keeps the contract
    gives what a stable sort gives. *)
Lemma sort_blocks_stable sort_blocks bs :
  sort_contract sort_blocks → well_formed_blocks bs →
  sort_blocks bs = stable_sort_blocks bs.
Proof.
  intros Hsort Hwf.
  pose proof (well_formed_not_nan _ Hwf) as Hn.
  destruct (Hsort bs Hn) as [Hp Hs].
  pose proof (well_formed_distinct _ Hwf) as Hd.
  apply (Sorted_unique_strong time_le).
  - intros x y Hx Hy Hxy Hyx.
    rewrite Hp in Hx. rewrite stable_sort_blocks_Permutation in Hy.
    eapply distinct_times_elem_of; [done..|]. by apply leb_antisym.
  - apply Sorted_block_le_time_le; [by rewrite Hp|done].
  - apply Sorted_block_le_time_le;
      [by rewrite stable_sort_blocks_Permutation
      |apply stable_sort_blocks_Sorted].
  - by rewrite Hp, stable_sort_blocks_Permutation.
Qed.

(** *** The names of the animated properties *)

Lemma unique_elem_of l x : x ∈ unique l ↔ x ∈ l.
Proof.
  induction l as [|a l IH]; [done|].
  destruct l as [|b l]; [done|].
  change (unique (a :: b :: l))
    with (if decide (a = b) then unique (b :: l) else a :: unique (b :: l)).
  case_decide as E.
  - rewrite IH. subst. rewrite !elem_of_cons. tauto.
  - rewrite elem_of_cons, IH. by rewrite (elem_of_cons (b :: l)).
Qed.

Lemma unique_StronglySorted (R : relation string) l :
  StronglySorted R l → StronglySorted R (unique l).
Proof.
  induction 1 as [|a l Hs IH Ha]; [constructor|].
  destruct l as [|b l]; [by repeat constructor|].
  change (unique (a :: b :: l))
    with (if decide (a = b) then unique (b :: l) else a :: unique (b :: l)).
  case_decide; [done|]. constructor; [done|].
  rewrite Forall_forall in Ha |- *. intros x Hx. by apply Ha, unique_elem_of.
Qed.

Lemma unique_NoDup l : StronglySorted String.le l → NoDup (unique l).
Proof.
  induction 1 as [|a l Hs IH Ha]; [constructor|].
  destruct l as [|b l]; [apply NoDup_singleton|].
  change (unique (a :: b :: l))
    with (if decide (a = b) then unique (b :: l) else a :: unique (b :: l)).
  case_decide as E; [done|]. constructor; [|done].
  rewrite unique_elem_of. intros [->|Hin]%elem_of_cons; [done|].
  apply E. apply (anti_symm String.le).
  - apply Forall_cons in Ha as [Hab _]. done.
  - apply StronglySorted_cons in Hs as [Hb _].
    rewrite Forall_forall in Hb. by apply Hb.
Qed.

Lemma elem_of_block_names bs x :
  x ∈ block_names bs ↔ ∃ b, b ∈ bs ∧ is_Some (properties b !! x).
Proof.
  unfold block_names, GetProperties. rewrite list_elem_of_join. split.
  - intros (l & Hx & Hl). apply list_elem_of_fmap in Hl as (b & -> & Hb).
    apply list_elem_of_fmap in Hx as ([y v] & -> & Hv).
    apply elem_of_map_to_list in Hv. exists b. split; [done|by exists v].
  - intros (b & Hb & v & Hv). eexists. split; [|by apply list_elem_of_fmap_2].
    apply list_elem_of_fmap. exists (x, v). split; [done|].
    by apply elem_of_map_to_list.
Qed.

(** C5: for every sequence of the map, filled by the parser and not yet
    post-processed, [PostprocessKeyframes] leaves the blocks in ascending
    order of their times, arranged as a stable sort arranges them, and
    [property_names] sorted, without duplicates, and holding exactly the
    names of the properties of the blocks. *)
Theorem PostprocessKeyframes_canonical sort_blocks km name kf :
  sort_contract sort_blocks →
  km !! name = Some kf →
  fresh_sequence kf →
  ∃ kf', PostprocessKeyframes sort_blocks km !! name = Some kf' ∧
         blocks kf' ≡ₚ blocks kf ∧
         Sorted block_le (blocks kf') ∧
         blocks kf' = stable_sort_blocks (blocks kf) ∧
         Sorted String.le (property_names kf') ∧
         NoDup (property_names kf') ∧
         ∀ x, x ∈ property_names kf' ↔
              ∃ b, b ∈ blocks kf ∧ is_Some (properties b !! x).
Proof.
  intros Hsort Hkf [Hnames Hwf].
  exists (postprocess sort_blocks kf).
  unfold PostprocessKeyframes. rewrite lookup_fmap, Hkf. split; [done|].
  destruct (Hsort (blocks kf) (well_formed_not_nan _ Hwf)) as [Hp Hs].
  unfold postprocess. simpl. rewrite Hnames. simpl.
  assert (Sorted String.le (sort_strings (block_names (sort_blocks (blocks kf)))))
    as Hsorted by (apply Sorted_merge_sort; apply _).
  apply Sorted_StronglySorted in Hsorted; [|apply _].
  repeat split; try done.
  - by apply sort_blocks_stable.
  - by apply StronglySorted_Sorted, unique_StronglySorted.
  - by apply unique_NoDup.
  - rewrite unique_elem_of. unfold sort_strings.
    rewrite merge_sort_Permutation, elem_of_block_names.
    intros (b & Hb & Hx). exists b. split; [by rewrite <- Hp|done].
  - rewrite unique_elem_of. unfold sort_strings.
    rewrite merge_sort_Permutation, elem_of_block_names.
    intros (b & Hb & Hx). exists b. split; [by rewrite Hp|done].
Qed.

(** *** [ParseKeyframeBlock] *)

Lemma ParseKeyframeBlock_true km identifier rules props p km' p' :
  GetNumProperties props ≠ 0 →
  ParseKeyframeBlock scan_float km identifier rules props p = (true, km', p') →
  km' = <[identifier :=
            mkKeyframes (property_names (entry km identifier))
              (foldl (λ bs v, set_block v props bs)
                     (blocks (entry km identifier))
                     (rule_values scan_float rules))]> km.
Proof.
  intros Hn. unfold ParseKeyframeBlock.
  destruct (IsValidIdentifier identifier); [|done]. simpl.
  destruct (Nat.eqb_spec (GetNumProperties props) 0); [done|].
  destruct (rule_values scan_float rules) eqn:E; [done|].
  by intros [= <- _].
Qed.

(** C3, as the code has it: a sequence the parser has built has at most
    one block for a time, also after a block of rules has been merged into
    it and it has been post-processed.  When the merged block has
    declarations, a block of the sequence at the time of one of the rules
    holds these declarations and no others, and there is such a block when
    the sequence had a block at this time before.  When the merged block
    has no declaration, the call leaves the map as it is: a block at the
    time of one of the rules keeps the declarations it had. *)
Theorem ParseKeyframeBlock_last_write_wins sort_blocks km identifier rules
    props p km' p' v :
  sort_contract sort_blocks →
  well_formed_blocks (blocks (entry km identifier)) →
  ParseKeyframeBlock scan_float km identifier rules props p = (true, km', p') →
  v ∈ rule_values scan_float rules →
  (∀ kf, PostprocessKeyframes sort_blocks km' !! identifier = Some kf →
     ∀ i j bi bj,
       blocks kf !! i = Some bi → blocks kf !! j = Some bj →
       F32.eqb (normalized_time bi) (normalized_time bj) = true → i = j) ∧
  (GetNumProperties props ≠ 0 →
   ∃ kf, PostprocessKeyframes sort_blocks km' !! identifier = Some kf ∧
     (∀ b, b ∈ blocks kf → F32.eqb (normalized_time b) v = true →
           properties b = props) ∧
     ((∃ b0, b0 ∈ blocks (entry km identifier) ∧
             F32.eqb (normalized_time b0) v = true) →
      ∃ b, b ∈ blocks kf ∧ F32.eqb (normalized_time b) v = true)) ∧
  (GetNumProperties props = 0 → km' = km).
Proof.
  intros Hsort Hwf Hparse Hv.
  assert (∀ bs kf, well_formed_blocks bs →
            postprocess sort_blocks (mkKeyframes (property_names kf) bs) = kf →
            ∀ i j bi bj,
              blocks kf !! i = Some bi → blocks kf !! j = Some bj →
              F32.eqb (normalized_time bi) (normalized_time bj) = true → i = j)
    as Hone.
  { intros bs kf Hbs <- i j bi bj. unfold postprocess. simpl.
    destruct (Hsort bs (well_formed_not_nan _ Hbs)) as [Hp Hs].
    apply distinct_times_lookup.
    apply (distinct_times_Permutation bs); [done|].
    by apply well_formed_distinct. }
  destruct (Nat.eq_dec (GetNumProperties props) 0) as [Hz|Hn].
  - assert (km' = km) as ->.
    { revert Hparse. unfold ParseKeyframeBlock.
      destruct (IsValidIdentifier identifier); [|done]. simpl.
      rewrite Hz. simpl. by intros [= <- _]. }
    split; [|split; [done|done]].
    intros kf. unfold PostprocessKeyframes. rewrite lookup_fmap.
    destruct (km !! identifier) as [kf0|] eqn:Ek; [|done]. intros [= <-].
    unfold entry in Hwf. rewrite Ek in Hwf. simpl in Hwf.
    unfold postprocess. simpl.
    destruct (Hsort _ (well_formed_not_nan _ Hwf)) as [Hp Hs].
    intros i j bi bj. apply distinct_times_lookup.
    apply (distinct_times_Permutation (blocks kf0)); [done|].
    by apply well_formed_distinct.
  - apply ParseKeyframeBlock_true in Hparse as ->; [|done].
    set (bs := foldl (λ bs v, set_block v props bs)
                     (blocks (entry km identifier))
                     (rule_values scan_float rules)).
    assert (well_formed_blocks bs) as Hbs
      by (apply fold_set_block_well_formed; [apply rule_values_small|done]).
    destruct (Hsort bs (well_formed_not_nan _ Hbs)) as [Hp Hs].
    unfold PostprocessKeyframes. rewrite lookup_fmap, lookup_insert_eq.
    split; [|split; [|done]].
    + intros kf [= <-]. unfold postprocess. simpl. fold bs.
      intros i j bi bj. apply distinct_times_lookup.
      apply (distinct_times_Permutation bs); [done|].
      by apply well_formed_distinct.
    + intros _. eexists. split; [done|].
      unfold postprocess. simpl. fold bs. split.
      * intros b Hb Heq. rewrite Hp in Hb.
        apply (fold_set_block_at_time props (rule_values scan_float rules)
                 (blocks (entry km identifier)) v b);
          [apply rule_values_small|done|done|exact Hb|done].
      * intros (b0 & Hb0 & Heq).
        destruct (fold_set_block_keeps_times props (rule_values scan_float rules)
                    _ _ Hb0) as (b & Hb & Et).
        exists b. split; [by rewrite Hp|]. by rewrite Et.
Qed.

(** C7, as the code has it: a time selector gives 0 for [from] and 1 for
    [to]; any other selector gives a value exactly when [sscanf] reads a
    number [p] at its start, a percent sign comes next after optional
    white space, and [p] is from 0 to 100, whatever text follows the
    percent sign; the value is then the binary32 product [0.01f * p].
    What a selector gives is in [0, 1], and so is every time
    [ParseKeyframeBlock] stores. *)
Theorem normalized_time_in_unit_interval :
  (∀ rule, ToLower rule = "from" → rule_value scan_float rule = Some F32.zero) ∧
  (∀ rule, ToLower rule = "to" → rule_value scan_float rule = Some F32.one) ∧
  (∀ rule v,
     ToLower rule ≠ "from" → ToLower rule ≠ "to" →
     (rule_value scan_float rule = Some v ↔
      ∃ p rest rest',
        scan_float (ToLower rule) = Some (p, rest) ∧
        strip_left rest = String "%" rest' ∧
        String.length rest' < String.length (ToLower rule) ∧
        F32.leb F32.zero p = true ∧ F32.leb p F32.hundred = true ∧
        v = F32.mul F32.hundredth p)) ∧
  (∀ rule v, rule_value scan_float rule = Some v →
             F32.in_unit_interval v = true) ∧
  (∀ km identifier rules props p name kf,
     (∀ name kf, km !! name = Some kf →
        Forall (λ b, F32.in_unit_interval (normalized_time b) = true) (blocks kf)) →
     (ParseKeyframeBlock scan_float km identifier rules props p).1.2 !! name
       = Some kf →
     Forall (λ b, F32.in_unit_interval (normalized_time b) = true) (blocks kf)).
Proof.
  split; [|split; [|split; [|split]]].
  - intros rule E. unfold rule_value. by rewrite E.
  - intros rule E. unfold rule_value. by rewrite E.
  - intros rule v Hf Ht. unfold rule_value.
    apply String.eqb_neq in Hf, Ht. rewrite Hf, Ht.
    unfold sscanf_float_percent. split.
    + destruct (scan_float (ToLower rule)) as [[value rest]|] eqn:E.
      2:{ by destruct (Str.is_empty _). }
      destruct (strip_left rest) as [|c rest'] eqn:Er; [done|].
      destruct (Ascii.eqb_spec c "%") as [->|Hc].
      2:{ destruct c as [[] [] [] [] [] [] [] []]; done. }
      cbn [Z.eqb Pos.eqb].
      destruct (0 <? _) eqn:Ec; [|done].
      destruct (F32.leb F32.zero value) eqn:E0; [|done].
      destruct (F32.leb value F32.hundred) eqn:E1; [|done].
      cbn [andb]. intros [= <-].
      apply Nat.ltb_lt in Ec.
      exists value, rest, rest'. repeat split; try done.
      clear -Ec. lia.
    + intros (value & rest & rest' & E & Er & Hlen & E0 & E1 & ->).
      rewrite E, Er. cbn [Z.eqb Pos.eqb].
      assert ((0 <? String.length (ToLower rule) - String.length rest') = true)
        as -> by (apply Nat.ltb_lt; clear -Hlen; lia).
      by rewrite E0, E1.
  - intros rule v Hv%rule_value_small. by apply small_in_unit_interval.
  - intros km identifier rules props p name kf Hkm.
    unfold ParseKeyframeBlock.
    destruct (IsValidIdentifier identifier); simpl; [|by apply Hkm].
    destruct (GetNumProperties props =? 0); simpl; [by apply Hkm|].
    destruct (rule_values scan_float rules) as [|v0 vs] eqn:E; simpl;
      [by apply Hkm|].
    destruct (decide (identifier = name)) as [->|Hne].
    2:{ rewrite lookup_insert_ne by done. apply Hkm. }
    rewrite lookup_insert_eq. intros [= <-]. simpl.
    assert (Forall (λ t, F32.in_unit_interval t = true) (v0 :: vs)) as Hvs.
    { rewrite <- E. eapply Forall_impl; [apply rule_values_small|].
      intros t Ht. by apply small_in_unit_interval. }
    assert (Forall (λ b, F32.in_unit_interval (normalized_time b) = true)
                   (blocks (entry km name))) as Hbs.
    { unfold entry. destruct (km !! name) eqn:Ek; simpl; [by eapply Hkm|done]. }
    by apply (fold_set_block_times (λ t, F32.in_unit_interval t = true)
                props (v0 :: vs)).
Qed.

(** C9, as the code has it: [ParseKeyframeBlock] returns [false] exactly
    when the identifier is not valid, or there are properties and no time
    selector of the rules gives a value; the map is then as it was.  With
    a valid identifier and no properties it returns [true], whatever the
    rules are, and the map is as it was as well. *)
Theorem ParseKeyframeBlock_false_iff km identifier rules props p :
  let r := ParseKeyframeBlock scan_float km identifier rules props p in
  (r.1.1 = false ↔
     IsValidIdentifier identifier = false ∨
     (GetNumProperties props ≠ 0 ∧ rule_values scan_float rules = [])) ∧
  (r.1.1 = false → r.1.2 = km) ∧
  (IsValidIdentifier identifier = true → GetNumProperties props = 0 →
   r.1.1 = true ∧ r.1.2 = km).
Proof.
  unfold ParseKeyframeBlock.
  destruct (IsValidIdentifier identifier); simpl.
  2:{ repeat split; auto; done. }
  destruct (Nat.eqb_spec (GetNumProperties props) 0) as [E|E]; simpl.
  { repeat split; try done. intros [|[]]; done. }
  destruct (rule_values scan_float rules) as [|v vs]; simpl.
  - repeat split; auto; done.
  - repeat split; try done. intros [|[]]; done.
Qed.

Lemma ParseKeyframeBlock_fresh km identifier rules props p :
  fresh_keyframes km →
  fresh_keyframes
    (ParseKeyframeBlock scan_float km identifier rules props p).1.2.
Proof.
  intros Hkm. unfold ParseKeyframeBlock.
  destruct (IsValidIdentifier identifier); simpl; [|done].
  destruct (GetNumProperties props =? 0); simpl; [done|].
  destruct (rule_values scan_float rules) as [|v0 vs] eqn:E; simpl; [done|].
  assert (fresh_sequence (entry km identifier)) as [Hn Hwf].
  { unfold entry. destruct (km !! identifier) eqn:Ek; simpl; [by eapply Hkm|].
    repeat split; constructor. }
  intros name kf. destruct (decide (identifier = name)) as [->|Hne].
  2:{ rewrite lookup_insert_ne by done. apply Hkm. }
  rewrite lookup_insert_eq. intros [= <-]. split; [done|]. simpl.
  apply (fold_set_block_well_formed props (v0 :: vs)); [|done].
  rewrite <- E. apply rule_values_small.
Qed.

End KeyframesFacts.

(** ** The keyframes of a whole parse *)

Section ParseKeyframes.

Variable read_size : nat.
Variable ParsePropertyDeclaration :
  PropertyDictionary → string → string → bool * PropertyDictionary.
Variable GetSelector : string → bool.
Variable scan_float : string → option (F32.float * string).
Variable sort_blocks : list KeyframeBlock → list KeyframeBlock.
Hypothesis scan_float_ok : scan_float_valid scan_float.

Lemma Parse_token_fresh token pre c :
  fresh_keyframes (keyframes c) →
  fresh_keyframes
    (keyframes (Parse_token read_size ParsePropertyDeclaration GetSelector
                            scan_float token pre c).2).
Proof.
  intros Hc. unfold Parse_token.
  destruct (ReadProperties read_size ParsePropertyDeclaration ∅ (parser c))
    as [[ok d] p1].
  pose proof (ParseKeyframeBlock_fresh scan_float scan_float_ok (keyframes c)
                (keyframes_identifier c) pre d p1 Hc) as Hk.
  destruct (ParseKeyframeBlock _ _ _ _ _ _) as [[ok' km] p2]. simpl in Hk.
  by repeat case_match.
Qed.

Lemma Parse_tokens_fresh fuel : ∀ c c',
  Parse_tokens read_size ParsePropertyDeclaration GetSelector scan_float fuel c
    = Some c' →
  fresh_keyframes (keyframes c) → fresh_keyframes (keyframes c').
Proof.
  induction fuel as [|fuel IH]; intros c c'; [done|].
  simpl. destruct (FindToken read_size "{@}" true (parser c)) as [[token pre] p].
  destruct (Ascii.eqb token NUL); [by intros [= <-]|].
  intros Hc Hf.
  pose proof (Parse_token_fresh token pre (set_parser p c) Hf) as Ht.
  destruct (Parse_token _ _ _ _ _ _ _) as [f c1]. simpl in Ht.
  destruct f; [by eapply IH|].
  case_decide; [by injection Hc as <-|by eapply IH].
Qed.

Lemma Parse_buffers_fresh fuel : ∀ c c',
  Parse_buffers read_size ParsePropertyDeclaration GetSelector scan_float fuel c
    = Some c' →
  fresh_keyframes (keyframes c) → fresh_keyframes (keyframes c').
Proof.
  induction fuel as [|fuel IH]; intros c c'; [done|].
  rewrite Parse_buffers_S.
  destruct (FillBuffer read_size (parser c)) as [[] p]; [|by intros [= <-]].
  destruct (Parse_tokens _ _ _ _ _ _) as [c1|] eqn:E; [|done].
  intros Hc Hf. apply Parse_tokens_fresh in E; [|done].
  case_decide; [by injection Hc as <-|by eapply IH].
Qed.

(** The keyframes [Parse] gives, when it starts from sequences it has
    filled itself (from none, say), are the post-processed form of
    sequences whose blocks are apart and in [0, 1] and that have no
    names yet. *)
Lemma Parse_keyframes this tree km _stream count tree' km' p' :
  fresh_keyframes km →
  Parse read_size ParsePropertyDeclaration GetSelector scan_float sort_blocks
        this tree km _stream = Some (count, tree', km', p') →
  ∃ km0, fresh_keyframes km0 ∧ km' = PostprocessKeyframes sort_blocks km0.
Proof.
  intros Hkm. unfold Parse.
  destruct (Parse_buffers _ _ _ _ _ _) as [c|] eqn:E; [|done].
  apply Parse_buffers_fresh in E; [|done].
  intros [= _ _ <- _]. by exists (keyframes c).
Qed.

End ParseKeyframes.

(** ** Worked inputs *)



(** What the reader does well: comments are left out also when a refill
    falls between the two characters that open or close them, and a ['/']
    that opens no comment is given without the character after it being
    lost. *)
Example ReadCharacter_comment_across_refills :
  (read_all 4092 99 (new_parser "ab/* c */d/e/")).1 = "abd/e/" ∧
  (read_all 1 99 (new_parser "ab/* c */d/e/")).1 = "abd/e/" ∧
  (read_all 2 99 (new_parser "ab/* c */d/e/")).1 = "abd/e/" ∧
  (read_all 3 99 (new_parser "ab/* c */d/e/")).1 = "abd/e/" ∧
  (read_all 4 99 (new_parser "ab/* c */d/e/")).1 = "abd/e/".
Proof. vm_compute. done. Qed.

(** C8 fails on the code: in a comment the character after a ['*'] is
    passed over without being looked at, unless it is the ['/'] that ends
    the comment.  So [/***/] is not seen to end, and the ['a'] after it is
    never given: the reader reports the end of the stream.  A line feed
    after a ['*'] is not counted either: the two line feeds of the second
    input leave the line counter at 1. *)
Theorem ReadCharacter_star_in_comment :
  (ReadCharacter 4092 (new_parser "/***/a")).1 = None ∧
  (let '(r, p) :=
     ReadCharacter 4092
       (new_parser ("/*" +:+ String NEWLINE "*" +:+ String NEWLINE "*/a")) in
   r = Some "a"%char ∧ line_number p = 1).
Proof. vm_compute. done. Qed.

(** What the declaration reader does well: a [;] and a [}] between the
    quotes are part of the value that is handed on. *)
Example ReadProperties_quoted_value :
  forwarded
    (ReadProperties 4092 keep_declaration ∅
       (new_parser (" content: " +:+ quoted "a;b}c" +:+ "; }"))).2
  = [("content", quoted "a;b}c")].
Proof. vm_compute. done. Qed.

(** C1 fails on the code: the quote that ends a value is not taken for
    the end when the character before it is a ['/'] (not a backslash).  The
    reader then stays between quotes: the [;], the next declaration and the
    [}] of the rule become part of the value, nothing is handed on, and the
    read only ends with the stream.  And a quote after a backslash does end
    the value, so that the [;] after it ends the declaration. *)
Theorem ReadProperties_quote_after_slash :
  (let '(ok, properties, p) :=
     ReadProperties 4092 keep_declaration ∅
       (new_parser (" src: " +:+ quoted "img/" +:+ "; top: 1px; } p { left: 0; }")) in
   properties = ∅ ∧ forwarded p = [] ∧ remaining p = 0 ∧
   log p = [InvalidPropertyDeclaration "src"
              (" " +:+ quoted "img/" +:+ "; top: 1px; } p { left: 0; }") 0]) ∧
  (let '(ok, properties, p) :=
     ReadProperties 4092 keep_declaration ∅
       (new_parser (" content: " +:+ quoted "a\" +:+ ";b" +:+ quoted "; }")) in
   forwarded p = [("content", quoted "a\")]).
Proof. vm_compute. done. Qed.

(** C9 as the claim has it fails on the code: with a valid identifier and
    no properties the result is [true] although no time selector of the
    rules gives a value. *)
Lemma ParseKeyframeBlock_iff_counterexample :
  ¬ ((ParseKeyframeBlock scan_decimal ∅ "spin" "soon" ∅ (new_parser "")).1.1 = false
     ↔ (IsValidIdentifier "spin" = false ∨ rule_values scan_decimal "soon" = [])).
Proof. intros [_ H]. by specialize (H (or_intror eq_refl)). Qed.

(** ** The claims at concrete inputs *)

Lemma scan_decimal_valid : scan_float_valid scan_decimal.
Proof.
  intros input value rest. unfold scan_decimal.
  destruct (scan_digits 0 0 (strip_left input)) as [[whole n] rest0].
  destruct (n =? 0); [done|].
  destruct (match rest0 with
            | String "." rest' => scan_digits whole 0 rest'
            | _ => (whole, 0, rest0)
            end) as [[number places] rest1].
  destruct (F32.valid _) eqn:E; [|done]. by intros [= <- _].
Qed.

(** A sequence with a block at 0; the rules [0%, 0%] with one property. *)
Definition spin_before : KeyframesMap :=
  {[ "spin" := mkKeyframes [] [mkKeyframeBlock F32.zero {[ "top" := "1px" ]}] ]}.

Definition spin_parse : bool * KeyframesMap * Parser :=
  ParseKeyframeBlock scan_decimal spin_before "spin" "0%, 0%"
                     {[ "left" := "2px" ]} (new_parser "").

Lemma spin_before_blocks :
  blocks (entry spin_before "spin")
  = [mkKeyframeBlock F32.zero {[ "top" := "1px" ]}].
Proof. vm_compute. reflexivity. Qed.

Lemma spin_rule_values : rule_values scan_decimal "0%, 0%" = [F32.zero; F32.zero].
Proof. vm_compute. reflexivity. Qed.

Lemma spin_properties : GetNumProperties {[ "left" := "2px" ]} = 1.
Proof. vm_compute. reflexivity. Qed.

Lemma spin_parse_true : spin_parse = (true, spin_parse.1.2, spin_parse.2).
Proof. vm_compute. reflexivity. Qed.

Lemma ParseKeyframeBlock_last_write_wins_witness :
  (∀ kf, PostprocessKeyframes stable_sort_blocks spin_parse.1.2 !! "spin" = Some kf →
     ∀ i j bi bj,
       blocks kf !! i = Some bi → blocks kf !! j = Some bj →
       F32.eqb (normalized_time bi) (normalized_time bj) = true → i = j) ∧
  (GetNumProperties {[ "left" := "2px" ]} ≠ 0 →
   ∃ kf, PostprocessKeyframes stable_sort_blocks spin_parse.1.2 !! "spin" = Some kf ∧
     (∀ b, b ∈ blocks kf → F32.eqb (normalized_time b) F32.zero = true →
           properties b = {[ "left" := "2px" ]}) ∧
     ((∃ b0, b0 ∈ blocks (entry spin_before "spin") ∧
             F32.eqb (normalized_time b0) F32.zero = true) →
      ∃ b, b ∈ blocks kf ∧ F32.eqb (normalized_time b) F32.zero = true)) ∧
  (GetNumProperties {[ "left" := "2px" ]} = 0 → spin_parse.1.2 = spin_before).
Proof.
  apply (ParseKeyframeBlock_last_write_wins scan_decimal scan_decimal_valid
           stable_sort_blocks spin_before "spin" "0%, 0%" {[ "left" := "2px" ]}
           (new_parser "") spin_parse.1.2 spin_parse.2 F32.zero).
  - apply stable_sort_contract.
  - rewrite spin_before_blocks.
    split; [split; [constructor|exact I]|].
    constructor; [vm_compute; reflexivity|constructor].
  - exact spin_parse_true.
  - rewrite spin_rule_values. left.
Defined.

(** The claim of C3 as it stands fails on the code: in
    [@keyframes spin{0%{top:1px;}0%{}}] the second block, which has no
    declaration, is the last one parsed for the time 0, and the block at 0
    still holds [top: 1px] after the parse. *)
Definition emptied_sheet : string := "@keyframes spin{0%{top:1px;}0%{}}".

Definition emptied_parse : nat * StyleSheetNode * KeyframesMap * Parser :=
  default (0, root_node, ∅, new_parser "")
    (Parse 4092 keep_declaration structural scan_decimal stable_sort_blocks
           (new_parser "") root_node ∅ emptied_sheet).

Lemma emptied_parse_eq :
  Parse 4092 keep_declaration structural scan_decimal stable_sort_blocks
        (new_parser "") root_node ∅ emptied_sheet
  = Some emptied_parse.
Proof. vm_compute. reflexivity. Qed.

Lemma emptied_parse_sequence :
  emptied_parse.1.2 !! "spin"
  = Some (mkKeyframes ["top"] [mkKeyframeBlock F32.zero {[ "top" := "1px" ]}]).
Proof. vm_compute. reflexivity. Qed.

Lemma ParseKeyframeBlock_last_write_counterexample :
  ¬ (∀ result,
       Parse 4092 keep_declaration structural scan_decimal stable_sort_blocks
             (new_parser "") root_node ∅ emptied_sheet = Some result →
       ∀ kf b,
         result.1.2 !! "spin" = Some kf → b ∈ blocks kf →
         F32.eqb (normalized_time b) F32.zero = true →
         properties b = ∅).
Proof.
  intros H.
  specialize (H _ emptied_parse_eq _
                (mkKeyframeBlock F32.zero {[ "top" := "1px" ]})
                emptied_parse_sequence).
  simpl in H.
  assert (({[ "top" := "1px" ]} : PropertyDictionary) = ∅) as Habs.
  { apply H; [by left|vm_compute; reflexivity]. }
  by apply map_non_empty_singleton in Habs.
Qed.

(** An ['@'] where the rules of a keyframes block are read. *)
Definition in_keyframes_rules : Parsing :=
  mkParsing KeyframesRules "spin" 1 root_node ∅ (mkParser "" "@ x" 0 0 [] []).

Lemma Parse_illegal_keyframes_token_witness :
  ∃ c' message,
    Parse_rest 4092 keep_declaration structural scan_decimal 1 0 in_keyframes_rules
      = Some c' ∧
    state c' = Invalid ∧
    Parse_finish stable_sort_blocks c'
      = (1, root_node, PostprocessKeyframes stable_sort_blocks ∅, parser c') ∧
    parser c' = warn message (mkParser "" "@ x" 1 0 [] []) ∧
    stream (parser c') = "" ∧
    log (parser c') = [message] ∧
    (message = InvalidCharacterKeyframesIdentifier "@" 0 ∨
     message = InvalidCharacterKeyframes "@" 0).
Proof.
  apply (Parse_illegal_keyframes_token 4092 keep_declaration structural
           scan_decimal stable_sort_blocks 0 0 in_keyframes_rules "@" ""
           (mkParser "" "@ x" 1 0 [] [])).
  - right. repeat split; discriminate.
  - discriminate.
  - vm_compute. reflexivity.
Defined.

(** A sequence with the block for [to] read before the block for [from]. *)
Definition unsorted_sequence : Keyframes :=
  mkKeyframes []
    [mkKeyframeBlock F32.one {[ "transform" := "rotate(360deg)" ]};
     mkKeyframeBlock F32.zero {[ "transform" := "rotate(0deg)" ]}].

Lemma PostprocessKeyframes_canonical_witness :
  ∃ kf', PostprocessKeyframes stable_sort_blocks {[ "spin" := unsorted_sequence ]}
           !! "spin" = Some kf' ∧
         blocks kf' ≡ₚ blocks unsorted_sequence ∧
         Sorted block_le (blocks kf') ∧
         blocks kf' = stable_sort_blocks (blocks unsorted_sequence) ∧
         Sorted String.le (property_names kf') ∧
         NoDup (property_names kf') ∧
         ∀ x, x ∈ property_names kf' ↔
              ∃ b, b ∈ blocks unsorted_sequence ∧ is_Some (properties b !! x).
Proof.
  apply (PostprocessKeyframes_canonical stable_sort_blocks
           {[ "spin" := unsorted_sequence ]} "spin" unsorted_sequence).
  - apply stable_sort_contract.
  - apply lookup_singleton_eq.
  - split; [reflexivity|]. split.
    + split; [|split; [constructor|exact I]].
      constructor; [vm_compute; reflexivity|constructor].
    + constructor; [vm_compute; reflexivity|].
      constructor; [vm_compute; reflexivity|constructor].
Defined.

(** The value of [50%abc]: what follows the percent sign is not read. *)
Lemma normalized_time_in_unit_interval_witness :
  rule_value scan_decimal "50%abc" = Some (S754_finite false 8388608 (-24)) ∧
  F32.in_unit_interval (S754_finite false 8388608 (-24)) = true.
Proof.
  assert (rule_value scan_decimal "50%abc"
          = Some (S754_finite false 8388608 (-24))) as H.
  { apply (proj1 (proj2 (proj2
             (normalized_time_in_unit_interval scan_decimal scan_decimal_valid)))
             "50%abc" (S754_finite false 8388608 (-24))).
    - discriminate.
    - discriminate.
    - exists (S754_finite false 13107200 (-18)), "%abc", "abc".
      repeat split; first [vm_compute; reflexivity|vm_compute; lia]. }
  split; [exact H|].
  exact (proj1 (proj2 (proj2 (proj2
           (normalized_time_in_unit_interval scan_decimal scan_decimal_valid))))
           "50%abc" _ H).
Defined.

(** The claim of C7 as it stands fails on the code: [50%abc] and [50 % to]
    are none of [from], [to] and a percentage, and give the time 0.5; and
    [30%] gives the product [0.01f * 30], which is not the binary32
    quotient of 30 by 100 (the number next below it). *)
Lemma normalized_time_counterexample :
  ¬ (rule_value scan_decimal "50%abc" = None) ∧
  ¬ (rule_value scan_decimal "50 % to" = None) ∧
  ¬ (rule_value scan_decimal "30%"
     = Some (SFdiv F32.prec F32.emax (F32.of_Z 30) (F32.of_Z 100))).
Proof. repeat split; vm_compute; discriminate. Qed.

(** * More properties of the code *)

(** ** The loops with the fuel their wrappers give *)

Lemma FindToken_loop_eq read_size tokens p :
  FindToken_loop read_size (S (remaining p)) "" tokens true p
  = Some (FindToken read_size tokens true p).
Proof.
  destruct (FindToken_loop_total read_size (S (remaining p)) "" tokens p)
    as (c & s & p' & E & _); [lia|].
  unfold FindToken. by rewrite E.
Qed.

Lemma ReadProperties_loop_eq read_size ParsePropertyDeclaration properties p :
  ReadProperties_loop read_size ParsePropertyDeclaration (S (remaining p))
    NAME "" "" NUL properties p
  = Some (ReadProperties read_size ParsePropertyDeclaration properties p).
Proof.
  destruct (ReadProperties_loop_total read_size ParsePropertyDeclaration
              (S (remaining p)) NAME "" "" NUL properties p) as (d & q & E & _);
    [lia|].
  unfold ReadProperties. by rewrite E.
Qed.

(** ** The text that is still to be read *)

Lemma rest_of_refl s : rest_of s s.
Proof. by exists "". Qed.

Lemma rest_of_cons c s t : rest_of s t → rest_of s (String c t).
Proof. intros [k ->]. by exists (String c k). Qed.

Lemma rest_of_trans s t u : rest_of s t → rest_of t u → rest_of s u.
Proof.
  intros [k ->] [k' ->]. exists (k' +:+ k).
  induction k' as [|c k' IH]; [done|].
  change (String c (k' +:+ (k +:+ s)) = String c ((k' +:+ k) +:+ s)). by rewrite IH.
Qed.

Lemma take_drop n s : Str.take n s +:+ Str.drop n s = s.
Proof.
  revert s; induction n; intros [|c s]; try reflexivity.
  change (String c (Str.take n s +:+ Str.drop n s) = String c s). by rewrite IHn.
Qed.

Lemma drop_at n : ∀ s, n < String.length s →
  Str.drop n s = String (Str.at_ s n) (Str.drop (S n) s).
Proof.
  induction n as [|n IH]; intros [|c s] Hn; simpl in *; try lia; [done|].
  rewrite IH by lia. done.
Qed.

Lemma drop_ge n : ∀ s, String.length s ≤ n → Str.drop n s = "".
Proof.
  induction n as [|n IH]; intros [|c s] Hn; simpl in *; try lia; try done.
  apply IH. lia.
Qed.

Lemma pending_lt p :
  parse_buffer_pos p < String.length (parse_buffer p) →
  pending p = String (current p) (pending (advance p)).
Proof. intros H. unfold pending, current. by rewrite drop_at. Qed.

Lemma pending_ge p :
  String.length (parse_buffer p) ≤ parse_buffer_pos p → pending p = stream p.
Proof. intros H. unfold pending. by rewrite drop_ge. Qed.

Lemma line_number_advance p : line_number (advance p) = line_number p.
Proof. done. Qed.

Section PendingText.

Variable read_size : nat.
Hypothesis read_size_pos : 0 < read_size.

Lemma FillBuffer_true_pending p p' :
  FillBuffer read_size p = (true, p') →
  pending p' = stream p ∧ line_number p' = line_number p ∧
  parse_buffer_pos p' < String.length (parse_buffer p').
Proof.
  intros H. pose proof (FillBuffer_true _ _ _ H) as (Hp & Hb & _ & _ & Hl).
  split; [|split; [done|lia]].
  unfold FillBuffer, IsEOS, Read in H.
  destruct (Str.is_empty (stream p)); [done|].
  destruct (Str.is_empty (Str.take read_size (stream p))); [done|].
  injection H as <-. unfold pending. simpl. apply take_drop.
Qed.

Lemma FillBuffer_false_eos p p' :
  FillBuffer read_size p = (false, p') → p' = p ∧ stream p = "".
Proof.
  unfold FillBuffer, IsEOS, Read.
  destruct (stream p) as [|c s] eqn:E; simpl; [by intros [= <-]|].
  destruct read_size; [lia|]. done.
Qed.

Lemma refill_at_end_true_pending p p' :
  refill_at_end read_size p = (true, p') →
  pending p' = pending p ∧ line_number p' = line_number p ∧
  parse_buffer_pos p' < String.length (parse_buffer p') ∧
  (p' = p ∨ parse_buffer_pos p' = 0).
Proof.
  unfold refill_at_end.
  destruct (Nat.leb_spec (String.length (parse_buffer p)) (parse_buffer_pos p))
    as [Hle|Hgt].
  - intros H. pose proof (FillBuffer_true _ _ _ H) as (Hp & _).
    apply FillBuffer_true_pending in H as (? & ? & ?).
    rewrite (pending_ge p) by done. auto.
  - intros [= <-]. auto.
Qed.

Lemma refill_at_end_false_pending p p' :
  refill_at_end read_size p = (false, p') →
  p' = p ∧ pending p = "" ∧ stream p = "" ∧
  String.length (parse_buffer p) ≤ parse_buffer_pos p.
Proof.
  unfold refill_at_end.
  destruct (Nat.leb_spec (String.length (parse_buffer p)) (parse_buffer_pos p))
    as [Hle|Hgt]; [|done].
  intros [-> Hs]%FillBuffer_false_eos. rewrite (pending_ge p) by done. auto.
Qed.

(** What one call of [ReadCharacter] does, told by the pending text. *)
Lemma ReadCharacter_loop_reads fuel : ∀ comment p r p',
  ReadCharacter_loop read_size fuel comment p = Some (r, p') →
  reads comment p r p'.
Proof.
  induction fuel as [|fuel IH]; intros comment p r p'; [done|].
  simpl.
  assert (∀ c q r p', reads c q r p' →
    ∀ k, pending p = k +:+ pending q →
      logical comment (pending p) = logical c (pending q) →
      line_number q + counted_lines c (pending q)
        = line_number p + counted_lines comment (pending p) →
      reads comment p r p') as Hstep.
  { intros c q r0 q' Hr k Hk Hl Hn. unfold reads in *.
    destruct r0 as [ch|].
    - destruct Hr as (H1 & H2 & H3). rewrite Hl. repeat split; [done|lia|].
      eapply rest_of_trans; [done|]. by exists k.
    - destruct Hr as (H1 & H2 & H3). rewrite Hl. repeat split; [done|lia|done]. }
  destruct (Nat.ltb_spec (parse_buffer_pos p) (String.length (parse_buffer p)))
    as [Hlt|Hge].
  - pose proof (pending_lt p Hlt) as Hp.
    remember (current p) as c eqn:Ec.
    destruct (Ascii.eqb c NEWLINE) eqn:Enl.
    { intros H%IH. eapply (Hstep _ _ _ _ H (String c "")).
      - exact Hp.
      - rewrite Hp. cbn [logical]. by rewrite Enl.
      - rewrite Hp. cbn [counted_lines]. rewrite Enl.
        change (pending (advance (set_line (S (line_number p)) p)))
          with (pending (advance p)).
        change (line_number (advance (set_line (S (line_number p)) p)))
          with (S (line_number p)). lia. }
    destruct comment.
    + destruct (Ascii.eqb c "*") eqn:Es.
      2:{ intros H%IH. eapply (Hstep _ _ _ _ H (String c "")).
          - exact Hp.
          - rewrite Hp. cbn [logical]. by rewrite Enl, Es.
          - rewrite Hp. cbn [counted_lines]. by rewrite Enl, Es. }
      destruct (refill_at_end read_size (advance p)) as [[] p2] eqn:E.
      * apply refill_at_end_true_pending in E as (Hpend & Hline & Hpos & _).
        pose proof (pending_lt p2 Hpos) as Hp2.
        intros H%IH.
        eapply (Hstep _ _ _ _ H (String c (String (current p2) ""))).
        -- rewrite Hp, <- Hpend, Hp2. done.
        -- rewrite Hp, <- Hpend, Hp2. cbn [logical]. by rewrite Enl, Es.
        -- rewrite Hp, <- Hpend, Hp2. cbn [counted_lines]. rewrite Enl, Es.
           rewrite !line_number_advance. by rewrite Hline.
      * apply refill_at_end_false_pending in E as (-> & Hpe & _).
        intros [= <- <-]. unfold reads. rewrite Hp, Hpe. cbn [logical counted_lines].
        rewrite Enl, Es. rewrite line_number_advance. repeat split; lia || done.
    + destruct (Ascii.eqb c "/") eqn:Es.
      2:{ intros [= <- <-]. unfold reads. rewrite Hp. cbn [logical counted_lines].
          rewrite Enl, Es. split; [done|split; [done|]]. by exists (String c ""). }
      destruct (refill_at_end read_size (advance p)) as [[] p2] eqn:E.
      * apply refill_at_end_true_pending in E as (Hpend & Hline & Hpos & Hc).
        pose proof (pending_lt p2 Hpos) as Hp2.
        destruct (Ascii.eqb (current p2) "*") eqn:Ex.
        { intros H%IH.
          eapply (Hstep _ _ _ _ H (String c (String (current p2) ""))).
          -- rewrite Hp, <- Hpend, Hp2. done.
          -- rewrite Hp, <- Hpend, Hp2. cbn [logical]. by rewrite Enl, Es, Ex.
          -- rewrite Hp, <- Hpend, Hp2. cbn [counted_lines]. rewrite Enl, Es, Ex.
             rewrite !line_number_advance. by rewrite Hline. }
        assert (∀ q, pending (advance q) = pending p2 →
                     line_number q = line_number p →
                     reads false p (Some "/"%char) q) as Hret.
        { intros q Hq Hl. unfold reads. rewrite Hq, Hl, Hp, <- Hpend.
          split; [|split; [|by exists (String c "")]].
          - rewrite Hp2. cbn [logical]. by rewrite Enl, Es, Ex.
          - rewrite Hp2. cbn [counted_lines]. by rewrite Enl, Es, Ex. }
        destruct (Nat.eqb_spec (parse_buffer_pos p2) 0) as [Hz|Hz];
          intros [= <- <-]; apply Hret; try done.
        unfold pending, advance, retreat, set_pos. simpl.
        by destruct (parse_buffer_pos p2).
      * apply refill_at_end_false_pending in E as (-> & Hpe & Hs & Hle).
        intros [= <- <-]. unfold reads.
        assert (pending (advance (set_buffer "/" (advance p))) = "") as ->.
        { unfold pending, advance, set_buffer in *. simpl in *. rewrite Hs.
          by destruct (parse_buffer_pos p). }
        rewrite Hp, Hpe. cbn [logical counted_lines]. rewrite Enl, Es.
        split; [done|split; [done|]]. by exists (String c "").
  - destruct (FillBuffer read_size p) as [[] p2] eqn:E.
    + apply FillBuffer_true_pending in E as (Hpend & Hline & _).
      intros H%IH. eapply (Hstep _ _ _ _ H "").
      * by rewrite (pending_ge p Hge), Hpend.
      * by rewrite (pending_ge p Hge), Hpend.
      * by rewrite (pending_ge p Hge), Hpend, Hline.
    + apply FillBuffer_false_eos in E as [-> Hs].
      intros [= <- <-]. unfold reads. rewrite (pending_ge p Hge), Hs.
      repeat split; simpl; lia || done.
Qed.

Lemma ReadCharacter_reads p r p' :
  ReadCharacter read_size p = (r, p') → reads false p r p'.
Proof.
  intros H. destruct (ReadCharacter_spec read_size p) as (r0 & p0 & E & El & _).
  rewrite H in E. injection E as <- <-.
  by apply ReadCharacter_loop_reads in El.
Qed.

(** Where a call that gives a character leaves the cursor. *)
Lemma ReadCharacter_loop_unread fuel : ∀ comment p c0 p',
  ReadCharacter_loop read_size fuel comment p = Some (Some c0, p') →
  pending (advance p') = unread_after comment (pending p) ∧
  (c0 ≠ "/"%char → pending p' = String c0 (pending (advance p'))).
Proof.
  induction fuel as [|fuel IH]; intros comment p c0 p'; [done|].
  simpl.
  destruct (Nat.ltb_spec (parse_buffer_pos p) (String.length (parse_buffer p)))
    as [Hlt|Hge].
  - pose proof (pending_lt p Hlt) as Hp.
    remember (current p) as c eqn:Ec.
    destruct (Ascii.eqb c NEWLINE) eqn:Enl.
    { intros [H1 H2]%IH. split; [|done].
      rewrite H1, Hp. cbn [unread_after]. by rewrite Enl. }
    destruct comment.
    + destruct (Ascii.eqb c "*") eqn:Es.
      2:{ intros [H1 H2]%IH. split; [|done].
          rewrite H1, Hp. cbn [unread_after]. by rewrite Enl, Es. }
      destruct (refill_at_end read_size (advance p)) as [[] p2] eqn:E; [|done].
      apply refill_at_end_true_pending in E as (Hpend & Hline & Hpos & _).
      pose proof (pending_lt p2 Hpos) as Hp2.
      intros [H1 H2]%IH. split; [|done].
      rewrite H1, Hp, <- Hpend, Hp2. cbn [unread_after]. by rewrite Enl, Es.
    + destruct (Ascii.eqb c "/") eqn:Es.
      2:{ intros [= <- <-]. split.
          - rewrite Hp. cbn [unread_after]. by rewrite Enl, Es.
          - intros _. exact Hp. }
      destruct (refill_at_end read_size (advance p)) as [[] p2] eqn:E.
      * apply refill_at_end_true_pending in E as (Hpend & Hline & Hpos & Hc).
        pose proof (pending_lt p2 Hpos) as Hp2.
        destruct (Ascii.eqb (current p2) "*") eqn:Ex.
        { intros [H1 H2]%IH. split; [|done].
          rewrite H1, Hp, <- Hpend, Hp2. cbn [unread_after].
          by rewrite Enl, Es, Ex. }
        assert (unread_after false (pending p) = pending p2) as Hu.
        { rewrite Hp, <- Hpend, Hp2. cbn [unread_after]. by rewrite Enl, Es, Ex. }
        destruct (Nat.eqb_spec (parse_buffer_pos p2) 0) as [Hz|Hz];
          intros [= <- <-]; (split; [|done]); rewrite Hu; [done|].
        unfold pending, advance, retreat, set_pos. simpl.
        by destruct (parse_buffer_pos p2).
      * apply refill_at_end_false_pending in E as (-> & Hpe & Hs & Hle).
        intros [= <- <-]. split; [|done].
        assert (pending (advance (set_buffer "/" (advance p))) = "") as ->.
        { unfold pending, advance, set_buffer in *. simpl in *. rewrite Hs.
          by destruct (parse_buffer_pos p). }
        rewrite Hp, Hpe. cbn [unread_after]. by rewrite Enl, Es.
  - destruct (FillBuffer read_size p) as [[] p2] eqn:E; [|done].
    apply FillBuffer_true_pending in E as (Hpend & Hline & _).
    intros [H1 H2]%IH. split; [|done].
    by rewrite H1, Hpend, (pending_ge p Hge).
Qed.

Lemma ReadCharacter_unread p c p' :
  ReadCharacter read_size p = (Some c, p') →
  pending (advance p') = unread_after false (pending p) ∧
  (c ≠ "/"%char → pending p' = String c (pending (advance p'))).
Proof.
  intros H. destruct (ReadCharacter_spec read_size p) as (r0 & p0 & E & El & _).
  rewrite H in E. injection E as <- <-.
  by apply ReadCharacter_loop_unread in El.
Qed.

End PendingText.

(** ** The characters of a text *)

Lemma app_String c s t : String c s +:+ t = String c (s +:+ t).
Proof. done. Qed.

Lemma app_assoc_string (s t u : string) : (s +:+ t) +:+ u = s +:+ (t +:+ u).
Proof. induction s as [|c s IH]; [done|]. by rewrite !app_String, IH. Qed.

Lemma app_empty_r (s : string) : s +:+ "" = s.
Proof. induction s as [|c s IH]; [done|]. by rewrite app_String, IH. Qed.

Lemma length_app_string (s t : string) :
  String.length (s +:+ t) = String.length s + String.length t.
Proof. induction s as [|c s IH]; [done|]. rewrite app_String. simpl. by rewrite IH. Qed.

Lemma logical_plain a b :
  all_chars (is_not "/") a = true →
  logical false (a +:+ b) = without NEWLINE a +:+ logical false b.
Proof.
  induction a as [|c a IH]; [done|]. simpl all_chars.
  intros [Hc Ha]%andb_prop. rewrite app_String. cbn [logical without].
  unfold is_not in Hc. apply negb_true_iff in Hc. rewrite Hc.
  destruct (Ascii.eqb c NEWLINE); [by apply IH|].
  rewrite app_String. by rewrite IH.
Qed.

Lemma counted_lines_plain s : ∀ comment,
  all_chars (is_not "*") s = true →
  counted_lines comment s = occurrences NEWLINE s.
Proof.
  induction s as [|c s IH]; [done|]. simpl all_chars.
  intros comment [Hc Hs]%andb_prop. cbn [counted_lines occurrences].
  unfold is_not in Hc. apply negb_true_iff in Hc. rewrite Hc.
  destruct (Ascii.eqb c NEWLINE); [by rewrite IH|].
  destruct comment; [by apply IH|].
  destruct (Ascii.eqb c "/"); [|by apply IH].
  destruct s as [|x s']; [done|].
  simpl in Hs. apply andb_prop in Hs as [Hx Hs'].
  unfold is_not in Hx. apply negb_true_iff in Hx. rewrite Hx.
  apply IH. simpl. unfold is_not. by rewrite Hx.
Qed.

Lemma logical_comment c b :
  all_chars (is_not "*") c = true →
  logical true (c +:+ "*/" +:+ b) = logical false b.
Proof.
  induction c as [|x c IH]; [done|]. simpl all_chars.
  intros [Hx Hc]%andb_prop. rewrite app_String. cbn [logical].
  unfold is_not in Hx. apply negb_true_iff in Hx. rewrite Hx.
  destruct (Ascii.eqb x NEWLINE); by apply IH.
Qed.

Lemma remaining_pending p : remaining p = String.length (pending p).
Proof.
  unfold remaining, pending. by rewrite length_app_string, StrFacts.length_drop.
Qed.

Lemma pending_new_parser s : pending (new_parser s) = s.
Proof. done. Qed.

Lemma FillBuffer_outputs read_size p b p' :
  FillBuffer read_size p = (b, p') → outputs p' = outputs p.
Proof.
  unfold FillBuffer. case_match; [by intros [= _ <-]|].
  unfold Read. by intros [= _ <-].
Qed.

Lemma refill_at_end_outputs read_size p b p' :
  refill_at_end read_size p = (b, p') → outputs p' = outputs p.
Proof.
  unfold refill_at_end. case_match; [apply FillBuffer_outputs|].
  by intros [= _ <-].
Qed.

Lemma ReadCharacter_loop_outputs read_size fuel : ∀ comment p r p',
  ReadCharacter_loop read_size fuel comment p = Some (r, p') →
  outputs p' = outputs p.
Proof.
  induction fuel as [|fuel IH]; intros comment p r p'; [done|].
  simpl. repeat case_match; try (intros [= <- <-]);
    repeat match goal with
    | H : refill_at_end _ _ = _ |- _ => apply refill_at_end_outputs in H
    | H : FillBuffer _ _ = _ |- _ => apply FillBuffer_outputs in H
    end; try done;
    intros Hr%IH; by rewrite Hr.
Qed.

Lemma ReadCharacter_outputs read_size p r p' :
  ReadCharacter read_size p = (r, p') → outputs p' = outputs p.
Proof.
  unfold ReadCharacter. destruct (ReadCharacter_loop _ _ _ _) as [[r0 p0]|] eqn:E.
  - intros [= <- <-]. by eapply ReadCharacter_loop_outputs.
  - by intros [= _ <-].
Qed.

Lemma ReadCharacter_loop_no_newline read_size fuel : ∀ comment p c p',
  ReadCharacter_loop read_size fuel comment p = Some (Some c, p') →
  c ≠ NEWLINE.
Proof.
  induction fuel as [|fuel IH]; intros comment p c p'; [done|].
  simpl. repeat case_match; try done; try (by apply IH).
  all: intros [= <- <-]; (by apply Ascii.eqb_neq) || done.
Qed.

Section Characters.

Variable read_size : nat.
Hypothesis read_size_pos : 0 < read_size.

Lemma read_all_logical fuel : ∀ p,
  remaining p < fuel →
  (read_all read_size fuel p).1 = logical false (pending p) ∧
  line_number (read_all read_size fuel p).2
    = line_number p + counted_lines false (pending p) ∧
  pending (read_all read_size fuel p).2 = "".
Proof.
  induction fuel as [|fuel IH]; intros p Hfuel; [lia|].
  simpl. destruct (ReadCharacter_spec read_size p)
    as (r & p1 & E & _ & _ & Hlt & _).
  rewrite E. apply (ReadCharacter_reads read_size read_size_pos) in E.
  destruct r as [c|]; simpl in E.
  - destruct E as (El & En & _).
    specialize (Hlt (mk_is_Some _ _ eq_refl)).
    destruct (IH (advance p1)) as (H1 & H2 & H3); [lia|].
    destruct (read_all read_size fuel (advance p1)) as [s q]. simpl in *.
    rewrite El, H1, H3. split; [done|]. split; [|done].
    rewrite ?line_number_advance in H2. lia.
  - destruct E as (El & En & Hp). simpl. by rewrite El, En, Hp.
Qed.

(** X3: a text without ['/'] is given character by character, its line
    feeds left out; when it has no ['*'] either, every line feed is
    counted. *)
Theorem reader_plain_text s fuel :
  all_chars (is_not "/") s = true →
  String.length s < fuel →
  (read_all read_size fuel (new_parser s)).1 = without NEWLINE s ∧
  (all_chars (is_not "*") s = true →
   line_number (read_all read_size fuel (new_parser s)).2
     = occurrences NEWLINE s).
Proof.
  intros Hs Hfuel. destruct (read_all_logical fuel (new_parser s)) as (H1 & H2 & _).
  { by rewrite remaining_pending, pending_new_parser. }
  rewrite H1, H2, pending_new_parser. split.
  - rewrite <- (app_empty_r s) at 1. rewrite logical_plain by done.
    apply app_empty_r.
  - intros Hstar. by rewrite counted_lines_plain.
Qed.

(** X4: a comment whose text has no ['*'] is left out, wherever the buffer
    is refilled. *)
Theorem reader_skips_comment a c b fuel :
  all_chars (is_not "/") a = true →
  all_chars (is_not "*") c = true →
  all_chars (is_not "/") b = true →
  String.length (a +:+ "/*" +:+ c +:+ "*/" +:+ b) < fuel →
  (read_all read_size fuel (new_parser (a +:+ "/*" +:+ c +:+ "*/" +:+ b))).1
  = without NEWLINE a +:+ without NEWLINE b.
Proof.
  intros Ha Hc Hb Hfuel.
  destruct (read_all_logical fuel (new_parser (a +:+ "/*" +:+ c +:+ "*/" +:+ b)))
    as (H1 & _).
  { by rewrite remaining_pending, pending_new_parser. }
  rewrite H1, pending_new_parser, logical_plain by done. f_equal.
  change ("/*" +:+ c +:+ "*/" +:+ b)
    with (String "/" (String "*" (c +:+ "*/" +:+ b))).
  cbn [logical]. change (Ascii.eqb "/" NEWLINE) with false.
  change (Ascii.eqb "/" "/") with true. change (Ascii.eqb "*" "*") with true.
  cbn iota. rewrite logical_comment by done.
  rewrite <- (app_empty_r b) at 1. rewrite logical_plain by done.
  apply app_empty_r.
Qed.

(** [FindToken] told by the pending text: [pre_token_str] is the text read
    up to the first token character, which is the result; the characters
    after it are still to be read. *)
Lemma FindToken_loop_logical fuel : ∀ buffer tokens p token pre p',
  FindToken_loop read_size fuel buffer tokens true p = Some (token, pre, p') →
  ∃ text,
    pre = buffer +:+ text ∧
    all_chars (λ c, negb (Str.strchr tokens c)) text = true ∧
    rest_of (pending p') (pending p) ∧
    ((Str.strchr tokens token = true ∧
      logical false (pending p) = text +:+ String token (logical false (pending p')))
     ∨ (token = NUL ∧ logical false (pending p) = text ∧ pending p' = "")).
Proof.
  induction fuel as [|fuel IH]; intros buffer tokens p token pre p'; [done|].
  simpl. destruct (ReadCharacter read_size p) as [[c|] p1] eqn:E;
    apply (ReadCharacter_reads read_size read_size_pos) in E; simpl in E.
  - destruct E as (El & _ & Hrest).
    destruct (Str.strchr tokens c) eqn:Et.
    + intros [= <- <- <-]. exists "". rewrite app_empty_r.
      split; [done|]. split; [done|]. split; [done|]. left. by rewrite El.
    + intros (text & -> & Hall & Hr & Hcases)%IH.
      exists (String c text). split.
      { unfold Str.push. by rewrite app_assoc_string. }
      split; [simpl; by rewrite Et|].
      split; [by eapply rest_of_trans|].
      rewrite El. destruct Hcases as [[Ht ->]|(-> & -> & Hp)]; [left|right]; done.
  - destruct E as (El & _ & Hp). intros [= <- <- <-]. exists "".
    rewrite app_empty_r. split; [done|]. split; [done|]. split; [|by right].
    rewrite Hp. exists (pending p). by rewrite app_empty_r.
Qed.

End Characters.

(** ** The declarations of a text *)

Section DeclarationText.

Variable read_size : nat.
Hypothesis read_size_pos : 0 < read_size.
Variable ParsePropertyDeclaration :
  PropertyDictionary → string → string → bool * PropertyDictionary.

(** X5: [FindToken] gives the first token character of the characters that
    are to be read ([NUL] when they end without one) and, as
    [pre_token_str], the characters in front of it, none of which is a
    token; the characters after the token stay to be read. *)
Theorem FindToken_first_token tokens p token pre p' :
  FindToken read_size tokens true p = (token, pre, p') →
  all_chars (λ c, negb (Str.strchr tokens c)) pre = true ∧
  rest_of (pending p') (pending p) ∧
  ((Str.strchr tokens token = true ∧
    logical false (pending p) = pre +:+ String token (logical false (pending p')))
   ∨ (token = NUL ∧ logical false (pending p) = pre ∧ pending p' = "")).
Proof.
  intros H. pose proof (FindToken_loop_eq read_size tokens p) as E. rewrite H in E.
  apply (FindToken_loop_logical read_size read_size_pos) in E
    as (text & -> & Hall & Hrest & Hcases).
  auto.
Qed.

Lemma pending_warn m p : pending (warn m p) = pending p.
Proof. done. Qed.

Lemma pending_forward n v p : pending (forward n v p) = pending p.
Proof. done. Qed.

Lemma is_empty_true s : Str.is_empty s = true → s = "".
Proof. by destruct s. Qed.

(** The loop of [ReadProperties] told by the pending text. *)
Lemma ReadProperties_loop_scan fuel : ∀ st name value previous properties p r,
  ReadProperties_loop read_size ParsePropertyDeclaration fuel st name value
    previous properties p = Some r →
  let '(declarations, rest) :=
    scan_declarations st name value previous (logical false (pending p)) in
  forwarded r.2 = (forwarded p ++ declarations)%list ∧
  r.1.2 = declare ParsePropertyDeclaration properties declarations ∧
  logical false (pending r.2) = rest ∧
  rest_of (pending r.2) (pending p).
Proof.
  induction fuel as [|fuel IH]; intros st name value previous properties p r;
    [done|].
  simpl. destruct (ReadCharacter read_size p) as [[c|] p1] eqn:E;
    pose proof (ReadCharacter_outputs _ _ _ _ E) as Hout;
    apply (ReadCharacter_reads read_size read_size_pos) in E; simpl in E.
  2:{ destruct E as (-> & _ & Hp). intros [= <-]. simpl.
      assert (∀ q, pending q = pending p1 → forwarded q = forwarded p1 →
        forwarded q = (forwarded p ++ [])%list ∧ properties = properties ∧
        logical false (pending q) = "" ∧ rest_of (pending q) (pending p)) as Hq.
      { intros q -> ->. rewrite Hp, app_nil_r. injection Hout as _ ->.
        repeat split; try done. exists (pending p). by rewrite app_empty_r. }
      case_match; by apply Hq. }
  destruct E as (-> & _ & Hrest). injection Hout as _ Hfw.
  assert (∀ st name value previous properties q r ds0,
    pending q = pending (advance p1) →
    forwarded q = (forwarded p ++ ds0)%list →
    ReadProperties_loop read_size ParsePropertyDeclaration fuel st name value
      previous properties q = Some r →
    let '(declarations, rest) :=
      scan_declarations st name value previous
        (logical false (pending (advance p1))) in
    forwarded r.2 = (forwarded p ++ ds0 ++ declarations)%list ∧
    r.1.2 = declare ParsePropertyDeclaration properties declarations ∧
    logical false (pending r.2) = rest ∧
    rest_of (pending r.2) (pending p)) as Hrec.
  { intros st' n' v' c' d' q r' ds0 Hq Hf Hr. apply IH in Hr. rewrite Hq in Hr.
    destruct (scan_declarations _ _ _ _ _) as [ds rest].
    destruct Hr as (H1 & H2 & H3 & H4). rewrite H1, Hf, <- app_assoc.
    repeat split; try done. by eapply rest_of_trans. }
  assert (∀ q, pending q = pending (advance p1) →
    forwarded q = forwarded p →
    forwarded q = (forwarded p ++ [])%list ∧
    properties = declare ParsePropertyDeclaration properties [] ∧
    logical false (pending q) = logical false (pending (advance p1)) ∧
    rest_of (pending q) (pending p)) as Hret.
  { intros q Hq ->. rewrite Hq, app_nil_r. done. }
  cbn [scan_declarations].
  destruct st.
  - destruct (Ascii.eqb c ";").
    { destruct (negb (Str.is_empty (StripWhitespace name))) eqn:En.
      - intros Hr. apply (Hrec _ _ _ _ _ _ _ []) in Hr;
          [|done|by rewrite app_nil_r].
        by destruct (scan_declarations _ _ _ _ _).
      - apply negb_false_iff, is_empty_true in En. rewrite En.
        intros Hr. apply (Hrec _ _ _ _ _ _ _ []) in Hr;
          [|done|by rewrite app_nil_r].
        by destruct (scan_declarations _ _ _ _ _). }
    destruct (Ascii.eqb c "}").
    { intros [= <-]. cbn [fst snd]. case_match; by apply Hret. }
    destruct (Ascii.eqb c ":");
      intros Hr; (apply (Hrec _ _ _ _ _ _ _ []) in Hr;
          [|done|by rewrite app_nil_r]);
      by destruct (scan_declarations _ _ _ _ _).
  - destruct (Ascii.eqb c ";").
    { destruct (ParsePropertyDeclaration properties name (StripWhitespace value))
        as [ok d] eqn:Ed.
      intros Hr.
      apply (Hrec _ _ _ _ _ _ _ [(name, StripWhitespace value)]) in Hr.
      - destruct (scan_declarations NAME "" "" c _) as [ds rest].
        destruct Hr as (H1 & H2 & H3 & H4). repeat split; try done.
        rewrite H2. unfold declare. simpl. by rewrite Ed.
      - by destruct ok.
      - destruct ok; simpl; by rewrite Hfw. }
    destruct (Ascii.eqb c "}").
    { intros [= <-]. cbn [fst snd]. by apply Hret. }
    intros Hr; (apply (Hrec _ _ _ _ _ _ _ []) in Hr;
          [|done|by rewrite app_nil_r]);
      by destruct (scan_declarations _ _ _ _ _).
  - intros Hr; (apply (Hrec _ _ _ _ _ _ _ []) in Hr;
          [|done|by rewrite app_nil_r]);
      by destruct (scan_declarations _ _ _ _ _).
Qed.

End DeclarationText.

(** ** Round trip: declarations written out and read back *)

Lemma all_chars_app P a b :
  all_chars P (a +:+ b) = all_chars P a && all_chars P b.
Proof.
  induction a as [|c a IH]; [done|]. rewrite app_String. simpl.
  by rewrite IH, andb_assoc.
Qed.

Lemma all_chars_impl (P Q : ascii → bool) s :
  (∀ c, P c = true → Q c = true) →
  all_chars P s = true → all_chars Q s = true.
Proof.
  intros HPQ. induction s as [|c s IH]; [done|]. simpl.
  intros [Hc Hs]%andb_prop. by rewrite (HPQ _ Hc), IH.
Qed.

Lemma without_plain c s :
  all_chars (is_not c) s = true → without c s = s.
Proof.
  induction s as [|d s IH]; [done|]. simpl. intros [Hd Hs]%andb_prop.
  unfold is_not in Hd. apply negb_true_iff in Hd. by rewrite Hd, IH.
Qed.

Lemma name_character_spec c :
  name_character c = true →
  Ascii.eqb c ";" = false ∧ Ascii.eqb c "}" = false ∧ Ascii.eqb c ":" = false ∧
  Ascii.eqb c "/" = false ∧ Ascii.eqb c NEWLINE = false.
Proof.
  unfold name_character. intros H%negb_true_iff.
  repeat (apply orb_false_elim in H as [H ?]). done.
Qed.

Lemma scan_name_previous name value c c' s :
  scan_declarations NAME name value c s = scan_declarations NAME name value c' s.
Proof. by destruct s. Qed.

Lemma scan_name n : ∀ acc value previous rest,
  all_chars name_character n = true →
  scan_declarations NAME acc value previous (n +:+ String ":" rest)
  = scan_declarations VALUE (StripWhitespace (acc +:+ n)) value ":" rest.
Proof.
  induction n as [|c n IH]; intros acc value previous rest.
  - intros _. by rewrite app_empty_r.
  - simpl all_chars. intros [Hc Hn]%andb_prop. rewrite app_String.
    apply name_character_spec in Hc as (H1 & H2 & H3 & _).
    cbn [scan_declarations]. rewrite H1, H2, H3, IH by done.
    unfold Str.push. by rewrite app_assoc_string.
Qed.

Lemma scan_value v : ∀ quote name acc previous rest,
  value_text quote v = true →
  (quote = true → previous ≠ "/"%char) →
  scan_declarations (if quote then QUOTE else VALUE) name acc previous
                    (v +:+ String ";" rest)
  = ((name, StripWhitespace (acc +:+ v))
       :: (scan_declarations NAME "" "" ";" rest).1,
     (scan_declarations NAME "" "" ";" rest).2).
Proof.
  induction v as [|c v IH]; intros quote name acc previous rest.
  - destruct quote; [done|]. intros _ _. rewrite app_empty_r.
    change ("" +:+ String ";" rest) with (String ";" rest).
    cbn [scan_declarations]. change (Ascii.eqb ";" ";") with true. cbn iota.
    by destruct (scan_declarations NAME "" "" ";" rest).
  - cbn [value_text]. intros [Hc Hv]%andb_prop Hprevious. rewrite app_String.
    apply negb_true_iff, orb_false_elim in Hc as [Hslash _].
    assert (c ≠ "/"%char) as Hc by by apply Ascii.eqb_neq.
    assert (acc +:+ String c v = Str.push acc c +:+ v) as ->.
    { unfold Str.push. by rewrite app_assoc_string. }
    destruct quote; cbn [scan_declarations].
    + apply Ascii.eqb_neq in Hprevious; [|done]. rewrite Hprevious.
      destruct (Ascii.eqb c DQUOTE); simpl.
      * by apply (IH false).
      * by apply (IH true).
    + apply andb_prop in Hv as [Hend Hv].
      apply negb_true_iff, orb_false_elim in Hend as [H1 H2].
      rewrite H1, H2. by apply (IH (Ascii.eqb c DQUOTE)).
Qed.

Lemma value_text_plain quote v :
  value_text quote v = true →
  all_chars (λ c, is_not "/" c && is_not NEWLINE c) v = true.
Proof.
  revert quote. induction v as [|c v IH]; intros quote; [done|].
  cbn [value_text all_chars]. intros [Hc Hv]%andb_prop.
  apply negb_true_iff, orb_false_elim in Hc as [H1 H2].
  unfold is_not. rewrite H1, H2. simpl.
  destruct quote; [by eapply IH|].
  apply andb_prop in Hv as [_ Hv]. by eapply IH.
Qed.

Lemma render_cons_app n v ds tail :
  render ((n, v) :: ds) +:+ tail
  = n +:+ String ":" (v +:+ String ";" (render ds +:+ tail)).
Proof. cbn [render]. by rewrite !app_assoc_string. Qed.

Lemma scan_render ds : ∀ previous tail,
  Forall plain_declaration ds →
  scan_declarations NAME "" "" previous (render ds +:+ tail)
  = (ds ++ (scan_declarations NAME "" "" previous tail).1,
     (scan_declarations NAME "" "" previous tail).2)%list.
Proof.
  induction ds as [|[n v] ds IH]; intros previous tail Hds.
  - change (render [] +:+ tail) with tail.
    by destruct (scan_declarations NAME "" "" previous tail).
  - apply Forall_cons in Hds as [Hd Hds].
    destruct Hd as (Hn & Hn' & Hv & Hv'). cbn [fst snd] in *.
    rewrite render_cons_app.
    rewrite scan_name by done. change ("" +:+ n) with n. rewrite Hn'.
    rewrite (scan_value v false) by done. change ("" +:+ v) with v. rewrite Hv'.
    rewrite IH by done. by rewrite (scan_name_previous _ _ ";" previous).
Qed.

Lemma render_plain ds :
  Forall plain_declaration ds →
  all_chars (λ c, is_not "/" c && is_not NEWLINE c) (render ds) = true.
Proof.
  induction 1 as [|[n v] ds (Hn & _ & Hv & _) _ IH]; [done|]. simpl in *.
  rewrite !all_chars_app. simpl. rewrite IH, !andb_true_r.
  apply andb_true_intro; split; [|by eapply value_text_plain].
  eapply all_chars_impl; [|done].
  intros c (_ & _ & _ & H1 & H2)%name_character_spec.
  unfold is_not; by rewrite H1, H2.
Qed.

Lemma logical_render ds tail :
  Forall plain_declaration ds →
  logical false (render ds +:+ tail) = render ds +:+ logical false tail.
Proof.
  intros Hds%render_plain. rewrite logical_plain.
  - rewrite without_plain; [done|].
    eapply all_chars_impl; [|done]. by intros c [_ ?]%andb_prop.
  - eapply all_chars_impl; [|done]. by intros c [? _]%andb_prop.
Qed.

Section DeclarationsRead.

Variable read_size : nat.
Hypothesis read_size_pos : 0 < read_size.
Variable ParsePropertyDeclaration :
  PropertyDictionary → string → string → bool * PropertyDictionary.

Lemma ReadProperties_loop_scan_wrapped properties p ok properties' p' :
  ReadProperties read_size ParsePropertyDeclaration properties p
    = (ok, properties', p') →
  forwarded p'
    = (forwarded p
       ++ (scan_declarations NAME "" "" NUL (logical false (pending p))).1)%list ∧
  properties'
    = declare ParsePropertyDeclaration properties
        (scan_declarations NAME "" "" NUL (logical false (pending p))).1 ∧
  logical false (pending p')
    = (scan_declarations NAME "" "" NUL (logical false (pending p))).2.
Proof.
  intros H. pose proof (ReadProperties_loop_eq read_size ParsePropertyDeclaration properties p) as E.
  rewrite H in E.
  apply (ReadProperties_loop_scan read_size read_size_pos) in E.
  destruct (scan_declarations _ _ _ _ _) as [ds rest]. simpl in *.
  by destruct E as (? & ? & ? & _).
Qed.

(** X7: what [ReadProperties] hands to the declaration parser, and the
    dictionary it leaves, are those of one pass over the characters that
    are to be read; the characters after the closing brace stay to be
    read. *)
Theorem ReadProperties_declarations properties p ok properties' p' :
  ReadProperties read_size ParsePropertyDeclaration properties p
    = (ok, properties', p') →
  forwarded p'
    = (forwarded p
       ++ (scan_declarations NAME "" "" NUL (logical false (pending p))).1)%list ∧
  properties'
    = declare ParsePropertyDeclaration properties
        (scan_declarations NAME "" "" NUL (logical false (pending p))).1 ∧
  logical false (pending p')
    = (scan_declarations NAME "" "" NUL (logical false (pending p))).2.
Proof. apply ReadProperties_loop_scan_wrapped. Qed.

(** X8: a list of declarations written as [name:value;] one after the
    other and closed by a brace is read back as it is: the declarations
    are handed to the declaration parser in their order, and what follows
    the brace stays to be read.  The names are without [;], [}], [:],
    ['/'] and line feeds; the values are without ['/'] and line feeds,
    their quotes are closed, and they have [;] and [}] between quotes
    only; neither has white space at its ends. *)
Theorem ReadProperties_round_trip ds tail properties p ok properties' p' :
  Forall plain_declaration ds →
  pending p = render ds +:+ String "}" tail →
  ReadProperties read_size ParsePropertyDeclaration properties p
    = (ok, properties', p') →
  ok = true ∧
  forwarded p' = (forwarded p ++ ds)%list ∧
  properties' = declare ParsePropertyDeclaration properties ds ∧
  logical false (pending p') = logical false tail.
Proof.
  intros Hds Hp H. pose proof (ReadProperties_loop_eq read_size ParsePropertyDeclaration properties p) as E.
  rewrite H in E.
  destruct (ReadProperties_loop_total read_size ParsePropertyDeclaration
              (S (remaining p)) NAME "" "" NUL properties p)
    as (d & q & E' & _); [lia|].
  rewrite E in E'. injection E' as -> _ _.
  apply (ReadProperties_loop_scan read_size read_size_pos) in E.
  rewrite Hp, logical_render, scan_render in E by done.
  cbn [logical scan_declarations fst snd] in E.
  change (Ascii.eqb "}" NEWLINE) with false in E.
  change (Ascii.eqb "}" "/") with false in E.
  change (Ascii.eqb "}" ";") with false in E.
  change (Ascii.eqb "}" "}") with true in E.
  cbn iota in E. rewrite app_nil_r in E.
  by destruct E as (? & ? & ? & _).
Qed.

(** X9: [ParseProperties] does not clear the buffer: what a former call has
    left unread in it is read in front of the text, as if it were written
    there. *)
Theorem ParseProperties_reads_leftover this parsed_properties text
    ok properties' this' :
  ParseProperties read_size ParsePropertyDeclaration this parsed_properties text
    = (ok, properties', this') →
  forwarded this'
    = (forwarded this
       ++ (scan_declarations NAME "" "" NUL
             (logical false
                (Str.drop (parse_buffer_pos this) (parse_buffer this) +:+ text))).1)%list ∧
  properties'
    = declare ParsePropertyDeclaration parsed_properties
        (scan_declarations NAME "" "" NUL
           (logical false
              (Str.drop (parse_buffer_pos this) (parse_buffer this) +:+ text))).1.
Proof.
  unfold ParseProperties.
  destruct (ReadProperties _ _ _ _) as [[ok0 d] q] eqn:E.
  intros [= <- <- <-].
  apply (ReadProperties_loop_scan_wrapped) in E.
  by destruct E as (? & ? & _).
Qed.

(** X10: [ParseProperties] on a parser that has nothing left in its buffer
    reads the declarations of a text of [name:value;] parts back as they
    are written, one call of the declaration parser for each in their
    order. *)
Theorem ParseProperties_round_trip ds this parsed_properties
    ok properties' this' :
  Forall plain_declaration ds →
  String.length (parse_buffer this) ≤ parse_buffer_pos this →
  ParseProperties read_size ParsePropertyDeclaration this parsed_properties
                  (render ds)
    = (ok, properties', this') →
  ok = true ∧
  forwarded this' = (forwarded this ++ ds)%list ∧
  properties' = declare ParsePropertyDeclaration parsed_properties ds.
Proof.
  intros Hds Hbuf. unfold ParseProperties.
  destruct (ReadProperties _ _ _ _) as [[ok0 d] q] eqn:E.
  intros [= <- <- <-].
  destruct (ReadProperties_spec read_size ParsePropertyDeclaration
              parsed_properties
              (mkParser (render ds) (parse_buffer this) (parse_buffer_pos this)
                 (line_number this) (log this) (forwarded this)))
    as (d' & q' & E' & _).
  rewrite E in E'. injection E' as -> _ _.
  apply ReadProperties_loop_scan_wrapped in E.
  unfold pending in E. cbn [parse_buffer parse_buffer_pos stream forwarded] in E.
  rewrite drop_ge in E by done. change ("" +:+ render ds) with (render ds) in E.
  rewrite <- (app_empty_r (render ds)) in E.
  rewrite logical_render, scan_render in E by done.
  cbn [logical scan_declarations fst snd] in E. rewrite app_nil_r in E.
  by destruct E as (? & ? & _).
Qed.

End DeclarationsRead.

(** ** More on keyframes *)

Lemma sorted_names_unique (l1 l2 : list string) :
  StronglySorted String.le l1 → StronglySorted String.le l2 →
  NoDup l1 → NoDup l2 → (∀ x, x ∈ l1 ↔ x ∈ l2) → l1 = l2.
Proof.
  intros Hs1 Hs2 Hn1 Hn2 Hel.
  apply (Sorted_unique String.le);
    [by apply StronglySorted_Sorted..|by apply NoDup_Permutation].
Qed.

Lemma sort_strings_sorted l : StronglySorted String.le (sort_strings l).
Proof.
  apply Sorted_StronglySorted; [apply _|].
  apply Sorted_merge_sort; apply _.
Qed.

Lemma elem_of_sort_strings l x : x ∈ sort_strings l ↔ x ∈ l.
Proof. unfold sort_strings. by rewrite merge_sort_Permutation. Qed.

Section PostprocessFacts.

Variable sort_blocks : list KeyframeBlock → list KeyframeBlock.

(** X17: whatever names a sequence has when [PostprocessKeyframes] comes to
    it, it leaves the names in ascending order, each one once: the names it
    had, and those of the properties of its blocks. *)
Theorem PostprocessKeyframes_names km name kf' :
  PostprocessKeyframes sort_blocks km !! name = Some kf' →
  ∃ kf, km !! name = Some kf ∧
    blocks kf' = sort_blocks (blocks kf) ∧
    Sorted String.le (property_names kf') ∧
    NoDup (property_names kf') ∧
    ∀ x, x ∈ property_names kf' ↔
         x ∈ property_names kf ∨
         ∃ b, b ∈ blocks kf' ∧ is_Some (properties b !! x).
Proof.
  unfold PostprocessKeyframes. rewrite lookup_fmap.
  destruct (km !! name) as [kf|]; [|done]. intros [= <-].
  exists kf. split; [done|]. split; [done|]. unfold postprocess. simpl.
  pose proof (sort_strings_sorted
                (property_names kf ++ block_names (sort_blocks (blocks kf))))
    as Hsorted.
  split; [by apply StronglySorted_Sorted, unique_StronglySorted|].
  split; [by apply unique_NoDup|].
  intros x. rewrite unique_elem_of, elem_of_sort_strings, elem_of_app.
  by rewrite elem_of_block_names.
Qed.

Lemma sorted_blocks_unique l1 l2 :
  Forall (λ b, normalized_time b ≠ S754_nan) l1 →
  distinct_times l1 →
  l1 ≡ₚ l2 → Sorted block_le l1 → Sorted block_le l2 → l1 = l2.
Proof.
  intros Hn Hd Hp Hs1 Hs2.
  apply (Sorted_unique_strong time_le).
  - intros x y Hx Hy Hxy Hyx. rewrite <- Hp in Hy.
    eapply distinct_times_elem_of; [done..|]. by apply F32Facts.leb_antisym.
  - by apply Sorted_block_le_time_le.
  - apply Sorted_block_le_time_le; [by rewrite <- Hp|done].
  - done.
Qed.

Lemma postprocess_idempotent kf :
  sort_contract sort_blocks →
  well_formed_blocks (blocks kf) →
  postprocess sort_blocks (postprocess sort_blocks kf) = postprocess sort_blocks kf.
Proof.
  intros Hsort Hwf.
  pose proof (well_formed_not_nan _ Hwf) as Hn.
  destruct (Hsort _ Hn) as [Hp Hs].
  assert (Forall (λ b, normalized_time b ≠ S754_nan) (sort_blocks (blocks kf)))
    as Hn' by by rewrite Hp.
  destruct (Hsort _ Hn') as [Hp' Hs'].
  assert (sort_blocks (sort_blocks (blocks kf)) = sort_blocks (blocks kf)) as Hb.
  { apply sorted_blocks_unique; try done.
    - by rewrite Hp'.
    - apply (distinct_times_Permutation (blocks kf)); [by rewrite Hp', Hp|].
      by apply well_formed_distinct. }
  unfold postprocess. simpl. rewrite Hb. f_equal.
  apply sorted_names_unique.
  - apply unique_StronglySorted, sort_strings_sorted.
  - apply unique_StronglySorted, sort_strings_sorted.
  - apply unique_NoDup, sort_strings_sorted.
  - apply unique_NoDup, sort_strings_sorted.
  - intros x. rewrite !unique_elem_of, !elem_of_sort_strings, !elem_of_app.
    rewrite unique_elem_of, elem_of_sort_strings, elem_of_app. tauto.
Qed.

(** X18: post-processing a map a second time changes nothing, when the blocks
    of its sequences are as the parser makes them (pairwise apart, times
    in [0, 1]): the blocks stay in their order and the names as they
    are. *)
Theorem PostprocessKeyframes_idempotent km :
  sort_contract sort_blocks →
  (∀ name kf, km !! name = Some kf → well_formed_blocks (blocks kf)) →
  PostprocessKeyframes sort_blocks (PostprocessKeyframes sort_blocks km)
  = PostprocessKeyframes sort_blocks km.
Proof.
  intros Hsort Hkm. unfold PostprocessKeyframes. apply map_eq. intros name.
  rewrite !lookup_fmap. destruct (km !! name) as [kf|] eqn:E; [|done].
  simpl. f_equal. apply postprocess_idempotent; [done|]. by eapply Hkm.
Qed.

End PostprocessFacts.

Lemma set_block_extends v props bs :
  ∃ added,
    normalized_time <$> set_block v props bs
      = ((normalized_time <$> bs) ++ added)%list ∧
    (added = [] ∨ added = [v]).
Proof.
  induction bs as [|b bs (added & E & H)]; cbn [set_block].
  - exists [v]. auto.
  - case_match.
    + exists []. rewrite app_nil_r. auto.
    + exists added. rewrite !fmap_cons, E. auto.
Qed.

Lemma fold_set_block_extends props values : ∀ bs,
  ∃ added,
    normalized_time <$> foldl (λ bs v, set_block v props bs) bs values
      = ((normalized_time <$> bs) ++ added)%list ∧
    added ⊆ values.
Proof.
  induction values as [|v values IH]; intros bs; simpl.
  - exists []. by rewrite app_nil_r.
  - destruct (set_block_extends v props bs) as (a1 & E1 & H1).
    destruct (IH (set_block v props bs)) as (a2 & E2 & H2).
    exists (a1 ++ a2)%list. rewrite E2, E1, <- app_assoc. split; [done|].
    intros x [Hx|Hx]%elem_of_app.
    + destruct H1 as [->| ->]; [by apply elem_of_nil in Hx|].
      apply list_elem_of_singleton in Hx as ->. by left.
    + right. by apply H2.
Qed.

Lemma set_block_lookup v props bs i b :
  bs !! i = Some b →
  ∃ b', set_block v props bs !! i = Some b' ∧
        normalized_time b' = normalized_time b ∧
        (properties b' = properties b ∨ properties b' = props).
Proof.
  revert i. induction bs as [|c bs IH]; intros i; [done|]. cbn [set_block].
  destruct (same_time v c) eqn:E, i as [|i]; cbn [lookup list_lookup].
  - intros [= <-]. eexists. split; [done|]. split; [done|].
    right. apply Import_empty.
  - intros ->. eauto.
  - intros [= <-]. eauto.
  - apply IH.
Qed.

Lemma fold_set_block_lookup props values : ∀ bs i b,
  bs !! i = Some b →
  ∃ b', foldl (λ bs v, set_block v props bs) bs values !! i = Some b' ∧
        normalized_time b' = normalized_time b ∧
        (properties b' = properties b ∨ properties b' = props).
Proof.
  induction values as [|v values IH]; intros bs i b Hb; simpl; [eauto|].
  destruct (set_block_lookup v props bs i b Hb) as (b1 & H1 & Ht1 & Hp1).
  destruct (IH _ _ _ H1) as (b' & H' & Ht' & Hp').
  exists b'. split; [done|]. split; [congruence|].
  destruct Hp' as [->|]; auto.
Qed.

Section KeyframeBlockFacts.

Variable scan_float : string → option (F32.float * string).

(** X16: [ParseKeyframeBlock] touches the sequence of its identifier only.
    There the names stay as they are, and every block that was there stays
    at its place with its time, its properties either as they were or
    replaced by those of the call; blocks are added at the end only, each
    at a time one of the rules gives. *)
Theorem ParseKeyframeBlock_extends km identifier rules props p :
  let km' := (ParseKeyframeBlock scan_float km identifier rules props p).1.2 in
  (∀ other, other ≠ identifier → km' !! other = km !! other) ∧
  property_names (entry km' identifier) = property_names (entry km identifier) ∧
  (∀ i b, blocks (entry km identifier) !! i = Some b →
     ∃ b', blocks (entry km' identifier) !! i = Some b' ∧
           normalized_time b' = normalized_time b ∧
           (properties b' = properties b ∨ properties b' = props)) ∧
  ∃ added,
    normalized_time <$> blocks (entry km' identifier)
      = ((normalized_time <$> blocks (entry km identifier)) ++ added)%list ∧
    added ⊆ rule_values scan_float rules.
Proof.
  unfold ParseKeyframeBlock.
  assert (∀ l : list F32.float, ([] : list F32.float) ⊆ l) as Hnil
    by (intros l x Hx; by apply elem_of_nil in Hx).
  destruct (IsValidIdentifier identifier); simpl.
  2:{ repeat split; eauto. exists []. by rewrite app_nil_r. }
  destruct (GetNumProperties props =? 0); simpl.
  { repeat split; eauto. exists []. by rewrite app_nil_r. }
  destruct (rule_values scan_float rules) as [|v vs] eqn:E; simpl.
  { repeat split; eauto. exists []. by rewrite app_nil_r. }
  split; [intros other Hne; by rewrite lookup_insert_ne|].
  set (old := entry km identifier).
  unfold entry. rewrite lookup_insert_eq. cbn [default property_names blocks].
  split; [done|]. split.
  - intros i b Hb. by apply (fold_set_block_lookup props (v :: vs)).
  - apply (fold_set_block_extends props (v :: vs)).
Qed.

End KeyframeBlockFacts.

(** ** What every sequence of a parse is like *)

Section ParseInvariant.

Variable read_size : nat.
Variable ParsePropertyDeclaration :
  PropertyDictionary → string → string → bool * PropertyDictionary.
Variable GetSelector : string → bool.
Variable scan_float : string → option (F32.float * string).
Variable sort_blocks : list KeyframeBlock → list KeyframeBlock.

(** What [ParseKeyframeBlock] keeps, the loops of [Parse] keep. *)
Variable kept : KeyframesMap → Prop.
Hypothesis ParseKeyframeBlock_keeps : ∀ km identifier rules props p,
  kept km → kept (ParseKeyframeBlock scan_float km identifier rules props p).1.2.

Lemma Parse_token_keeps token pre c :
  kept (keyframes c) →
  kept (keyframes (Parse_token read_size ParsePropertyDeclaration GetSelector
                               scan_float token pre c).2).
Proof.
  intros Hc. unfold Parse_token.
  destruct (ReadProperties read_size ParsePropertyDeclaration ∅ (parser c))
    as [[ok d] p1].
  pose proof (ParseKeyframeBlock_keeps (keyframes c) (keyframes_identifier c)
                pre d p1 Hc) as Hk.
  destruct (ParseKeyframeBlock _ _ _ _ _ _) as [[ok' km] p2]. simpl in Hk.
  by repeat case_match.
Qed.

Lemma Parse_tokens_keeps fuel : ∀ c c',
  Parse_tokens read_size ParsePropertyDeclaration GetSelector scan_float fuel c
    = Some c' →
  kept (keyframes c) → kept (keyframes c').
Proof.
  induction fuel as [|fuel IH]; intros c c'; [done|].
  simpl. destruct (FindToken read_size "{@}" true (parser c)) as [[token pre] p].
  destruct (Ascii.eqb token NUL); [by intros [= <-]|].
  intros Hc Hf.
  pose proof (Parse_token_keeps token pre (set_parser p c) Hf) as Ht.
  destruct (Parse_token _ _ _ _ _ _ _) as [f c1]. simpl in Ht.
  destruct f; [by eapply IH|].
  case_decide; [by injection Hc as <-|by eapply IH].
Qed.

Lemma Parse_buffers_keeps fuel : ∀ c c',
  Parse_buffers read_size ParsePropertyDeclaration GetSelector scan_float fuel c
    = Some c' →
  kept (keyframes c) → kept (keyframes c').
Proof.
  induction fuel as [|fuel IH]; intros c c'; [done|].
  rewrite Parse_buffers_S.
  destruct (FillBuffer read_size (parser c)) as [[] p]; [|by intros [= <-]].
  destruct (Parse_tokens _ _ _ _ _ _) as [c1|] eqn:E; [|done].
  intros Hc Hf. apply Parse_tokens_keeps in E; [|done].
  case_decide; [by injection Hc as <-|by eapply IH].
Qed.

End ParseInvariant.

Lemma set_block_not_nil v props bs : set_block v props bs ≠ [].
Proof. destruct bs; simpl; [done|]. by case_match. Qed.

Lemma fold_set_block_not_nil props values : ∀ bs,
  bs ≠ [] → foldl (λ bs v, set_block v props bs) bs values ≠ [].
Proof.
  induction values as [|v values IH]; intros bs Hbs; [done|].
  simpl. apply IH, set_block_not_nil.
Qed.

Lemma ParseKeyframeBlock_tidy scan_float km identifier rules props p :
  tidy_keyframes km →
  tidy_keyframes (ParseKeyframeBlock scan_float km identifier rules props p).1.2.
Proof.
  intros Hkm. unfold ParseKeyframeBlock.
  destruct (IsValidIdentifier identifier) eqn:Hid; simpl; [|done].
  destruct (Nat.eqb_spec (GetNumProperties props) 0) as [|Hn]; simpl; [done|].
  destruct (rule_values scan_float rules) as [|v0 vs] eqn:E; simpl; [done|].
  intros name kf. destruct (decide (identifier = name)) as [->|Hne].
  2:{ rewrite lookup_insert_ne by done. apply Hkm. }
  rewrite lookup_insert_eq. intros [= <-]. split; [done|]. simpl. split.
  - apply fold_set_block_not_nil, set_block_not_nil.
  - apply Forall_forall. intros b Hb.
    apply (fold_set_block_properties props (v0 :: vs)) in Hb as [Hb| ->].
    + unfold entry in Hb. destruct (km !! name) as [kf|] eqn:Ek; simpl in Hb.
      * destruct (Hkm _ _ Ek) as (_ & _ & Hf). rewrite Forall_forall in Hf. auto.
      * by apply elem_of_nil in Hb.
    + intros ->. by apply Hn.
Qed.

Section ParseTidy.

Variable read_size : nat.
Variable ParsePropertyDeclaration :
  PropertyDictionary → string → string → bool * PropertyDictionary.
Variable GetSelector : string → bool.
Variable scan_float : string → option (F32.float * string).
Variable sort_blocks : list KeyframeBlock → list KeyframeBlock.
Hypothesis scan_float_ok : scan_float_valid scan_float.
Hypothesis sort_blocks_ok : sort_contract sort_blocks.

(** X15: every sequence [Parse] leaves in a map that was empty has an
    identifier for its name, at least one block, times from 0 to 1 that
    ascend and of which no two are equal, no block without properties, and
    so at least one name in [property_names]. *)
Theorem Parse_sequences this tree _stream count tree' km' p' name kf :
  Parse read_size ParsePropertyDeclaration GetSelector scan_float sort_blocks
        this tree ∅ _stream = Some (count, tree', km', p') →
  km' !! name = Some kf →
  IsValidIdentifier name = true ∧
  blocks kf ≠ [] ∧
  Forall (λ b, F32.in_unit_interval (normalized_time b) = true
               ∧ properties b ≠ ∅) (blocks kf) ∧
  Sorted block_le (blocks kf) ∧
  distinct_times (blocks kf) ∧
  property_names kf ≠ [].
Proof.
  unfold Parse.
  destruct (Parse_buffers _ _ _ _ _ _) as [c|] eqn:E; [|done].
  apply (Parse_buffers_keeps read_size ParsePropertyDeclaration GetSelector
           scan_float (λ km, fresh_keyframes km ∧ tidy_keyframes km)) in E.
  - intros [= _ _ <- _]. unfold PostprocessKeyframes. rewrite lookup_fmap.
    destruct E as [Hfresh Htidy].
    destruct (keyframes c !! name) as [kf0|] eqn:Ek; [|done].
    intros [= <-]. destruct (Hfresh _ _ Ek) as [Hnames Hwf].
    destruct (Htidy _ _ Ek) as (Hid & Hne & Hprops).
    destruct (sort_blocks_ok _ (well_formed_not_nan _ Hwf)) as [Hp Hs].
    assert (sort_blocks (blocks kf0) ≠ []) as Hne'.
    { intros Hnil. rewrite Hnil in Hp. by apply Permutation_nil_l in Hp. }
    split; [done|]. split; [done|]. split; [|split; [done|split]].
    + rewrite Hp. destruct Hwf as [_ Htimes].
      rewrite Forall_forall in Htimes, Hprops |- *. auto.
    + apply (distinct_times_Permutation (blocks kf0)); [done|].
      by apply well_formed_distinct.
    + unfold postprocess. simpl. rewrite Hnames. simpl.
      destruct (sort_blocks (blocks kf0)) as [|b bs] eqn:Eb; [done|].
      assert (b ∈ blocks kf0) as Hb by (rewrite <- Hp; by left).
      rewrite Forall_forall in Hprops. specialize (Hprops _ Hb).
      apply map_choose in Hprops as (x & v & Hx).
      intros Hnil.
      assert (x ∈ unique (sort_strings (block_names (b :: bs)))) as Hin.
      { rewrite unique_elem_of, elem_of_sort_strings, elem_of_block_names.
        exists b. split; [by left|by exists v]. }
      rewrite Hnil in Hin. by apply elem_of_nil in Hin.
  - intros km identifier rules props p [Hfresh Htidy]. split.
    + by apply ParseKeyframeBlock_fresh.
    + by apply ParseKeyframeBlock_tidy.
  - simpl. split; intros n k Hk; by rewrite lookup_empty in Hk.
Qed.

End ParseTidy.

(** ** The identifiers of a compound selector *)

Lemma identifiers_from_concat cur rest :
  String.concat "" (identifiers_from cur rest) = cur +:+ rest.
Proof.
  revert cur. induction rest as [|c rest IH]; intros cur.
  - simpl. by rewrite app_empty_r.
  - cbn [identifiers_from]. destruct (is_delimiter c).
    + assert (∀ l, String.concat "" (cur :: l) = cur +:+ String.concat "" l) as E.
      { intros [|x l]; simpl; [by rewrite app_empty_r|done]. }
      by rewrite E, IH.
    + rewrite IH. unfold Str.push. by rewrite app_assoc_string.
Qed.

Lemma all_chars_push P s c :
  all_chars P s = true → P c = true → all_chars P (Str.push s c) = true.
Proof.
  intros Hs Hc. unfold Str.push. rewrite all_chars_app, Hs. simpl. by rewrite Hc.
Qed.

Lemma identifiers_from_shape c0 cur rest :
  all_chars (λ d, negb (is_delimiter d)) cur = true →
  ∃ first others,
    identifiers_from (String c0 cur) rest = String c0 first :: others ∧
    all_chars (λ d, negb (is_delimiter d)) first = true ∧
    Forall (λ i, ∃ c tail, i = String c tail ∧ is_delimiter c = true ∧
                  all_chars (λ d, negb (is_delimiter d)) tail = true) others.
Proof.
  revert c0 cur. induction rest as [|c rest IH]; intros c0 cur Hcur.
  - exists cur, []. done.
  - cbn [identifiers_from]. destruct (is_delimiter c) eqn:Ec.
    + destruct (IH c "" eq_refl) as (first & others & -> & Hfirst & Hothers).
      exists cur, (String c first :: others). split; [done|]. split; [done|].
      constructor; [|done]. eauto.
    + change (Str.push (String c0 cur) c) with (String c0 (Str.push cur c)).
      apply IH, all_chars_push; [done|]. by rewrite Ec.
Qed.

Lemma add_identifier_delimiter GetSelector compound c tail :
  is_delimiter c = true →
  tag (add_identifier GetSelector compound (String c tail)) = tag compound.
Proof.
  unfold is_delimiter.
  destruct (Ascii.eqb_spec c "#") as [->|_]; [done|].
  destruct (Ascii.eqb_spec c ".") as [->|_]; [done|].
  destruct (Ascii.eqb_spec c ":") as [->|_]; [|done].
  intros _. simpl. by destruct (GetSelector tail).
Qed.

Lemma add_identifier_tag GetSelector compound c tail :
  is_delimiter c = false →
  tag (add_identifier GetSelector compound (String c tail)) = String c tail.
Proof. by destruct c as [[] [] [] [] [] [] [] []]. Qed.

Lemma fold_add_identifier_tag GetSelector others : ∀ compound,
  Forall (λ i, ∃ c tail, i = String c tail ∧ is_delimiter c = true ∧
                all_chars (λ d, negb (is_delimiter d)) tail = true) others →
  tag (foldl (add_identifier GetSelector) compound others) = tag compound.
Proof.
  induction others as [|i others IH]; intros compound Hothers; [done|].
  apply Forall_cons in Hothers as [(c & tail & -> & Hc & _) Hothers].
  simpl. rewrite IH by done. by apply add_identifier_delimiter.
Qed.

(** X19: the scan of a compound selector cuts its text into identifiers
    without losing a character: put together again they give the text.
    The first identifier starts with the first character of the text,
    whatever it is; every other one starts with ['#'], ['.'] or [':'];
    and none has one of these after its first character.  So the tag is
    the first identifier, or empty when the text starts with one of the
    three. *)
Theorem identifiers_partition GetSelector name :
  String.concat "" (identifiers name) = name ∧
  match name with
  | "" => identifiers name = []
  | String c0 _ =>
    ∃ first others,
      identifiers name = String c0 first :: others ∧
      all_chars (λ d, negb (is_delimiter d)) first = true ∧
      Forall (λ i, ∃ c tail, i = String c tail ∧ is_delimiter c = true ∧
                    all_chars (λ d, negb (is_delimiter d)) tail = true) others ∧
      tag (decompose GetSelector name)
      = if is_delimiter c0 then "" else String c0 first
  end.
Proof.
  destruct name as [|c0 rest]; [done|]. unfold identifiers. split.
  - by rewrite identifiers_from_concat.
  - destruct (identifiers_from_shape c0 "" rest eq_refl)
      as (first & others & E & Hfirst & Hothers).
    exists first, others. unfold decompose, identifiers. rewrite E.
    repeat split; try done. cbn [foldl].
    rewrite fold_add_identifier_tag by done.
    destruct (is_delimiter c0) eqn:Ec.
    + by rewrite add_identifier_delimiter.
    + by rewrite add_identifier_tag.
Qed.

(** ** The style tree after a rule has been added *)

Lemma in_child_key k f n : node_key (in_child k f n) = node_key n.
Proof. done. Qed.

Lemma at_path_key path f n :
  (∀ m, node_key (f m) = node_key m) →
  node_key (at_path path f n) = node_key n.
Proof. intros Hf. destruct path; [apply Hf|done]. Qed.

Lemma find_in_children k g cs :
  (∀ m, node_key (g m) = node_key m) →
  List.find (λ c, bool_decide (node_key c = k)) (in_children k g cs)
  = Some (g (default (new_node k)
                     (List.find (λ c, bool_decide (node_key c = k)) cs))).
Proof.
  intros Hg. induction cs as [|c cs IH]; simpl.
  - rewrite bool_decide_eq_true_2; [done|]. rewrite Hg. by destruct k.
  - case_decide as E; simpl.
    + rewrite !bool_decide_eq_true_2; [done|done|by rewrite Hg].
    + by rewrite bool_decide_eq_false_2.
Qed.

Lemma find_in_children_ne k k' g cs :
  k' ≠ k →
  (∀ m, node_key (g m) = node_key m) →
  List.find (λ c, bool_decide (node_key c = k')) (in_children k g cs)
  = List.find (λ c, bool_decide (node_key c = k')) cs.
Proof.
  intros Hne Hg. induction cs as [|c cs IH]; simpl.
  - rewrite bool_decide_eq_false_2; [done|]. rewrite Hg. by destruct k.
  - case_decide as E; simpl.
    + rewrite !bool_decide_eq_false_2; [done|congruence|rewrite Hg; congruence].
    + by rewrite IH.
Qed.

Lemma find_node_new path k :
  path ≠ [] → find_node path (new_node k) = None.
Proof. by destruct path. Qed.

Lemma find_node_at_path path f : ∀ n,
  (∀ m, node_key (f m) = node_key m) →
  ∃ leaf, find_node path (at_path path f n) = Some leaf ∧
    ∃ old, leaf = f old ∧ node_properties old = properties_at path n.
Proof.
  intros n Hf. revert n. induction path as [|k path IH]; intros n.
  - exists (f n). split; [done|]. by exists n.
  - cbn [at_path find_node in_child node_children].
    rewrite find_in_children by (intros m; by apply at_path_key).
    unfold properties_at. cbn [find_node].
    destruct (List.find _ (node_children n)) as [c|]; simpl.
    + apply IH.
    + destruct (IH (new_node k)) as (leaf & E & old & -> & Hold).
      exists (f old). split; [done|]. exists old. split; [done|].
      rewrite Hold. unfold properties_at.
      destruct path; [done|]. done.
Qed.

Lemma find_node_at_path_other path f : ∀ path' n m,
  changes_properties_only f →
  find_node path' n = Some m →
  ∃ m', find_node path' (at_path path f n) = Some m' ∧
        node_key m' = node_key m ∧
        (path' ≠ path → node_properties m' = node_properties m).
Proof.
  intros path' n m Hf. revert path' n m.
  assert (∀ m, node_key (f m) = node_key m) as Hkey.
  { intros m. destruct (Hf m) as (H1 & H2 & _). unfold node_key. by rewrite H1, H2. }
  induction path as [|k path IH]; intros path' n m.
  - cbn [at_path]. destruct path' as [|k' q].
    + intros [= <-]. exists (f n). by rewrite Hkey.
    + cbn [find_node]. destruct (Hf n) as (_ & _ & ->).
      intros E. exists m. by rewrite E.
  - cbn [at_path]. destruct path' as [|k' q].
    + intros [= <-]. eexists. split; [done|]. done.
    + cbn [find_node in_child node_children].
      destruct (decide (k' = k)) as [->|Hne].
      * rewrite find_in_children by (intros c; by apply at_path_key).
        destruct (List.find _ (node_children n)) as [c|]; [|done]. simpl.
        intros (m' & E & Hk & Hp)%IH. exists m'. split; [done|]. split; [done|].
        intros Hq. apply Hp. congruence.
      * rewrite find_in_children_ne by (done || (intros c; by apply at_path_key)).
        intros E. exists m. by rewrite E.
Qed.

Lemma node_ImportProperties_only props specificity :
  changes_properties_only (node_ImportProperties props specificity).
Proof. done. Qed.

Section TreeFacts.

Variable GetSelector : string → bool.

(** X20: after [ImportProperties] the node at the end of the way the
    selector describes exists, and it holds for every property what the
    merge of the rule into the properties that were there gives: what was
    there when the rule does not have the property; the value of the rule,
    with its specificity, when nothing was there or what was there has at
    most this specificity; and what was there when its specificity is
    higher. *)
Theorem ImportProperties_leaf node names props specificity :
  ∃ leaf,
    find_node (leaf_path GetSelector names)
              (ImportProperties GetSelector node names props specificity).2
      = Some leaf ∧
    ∀ x, node_properties leaf !! x
         = match props !! x,
                 properties_at (leaf_path GetSelector names) node !! x with
           | None, old => old
           | Some v, Some (v0, s0) =>
             if s0 <=? specificity then Some (v, specificity) else Some (v0, s0)
           | Some v, None => Some (v, specificity)
           end.
Proof.
  unfold ImportProperties. cbn [snd].
  destruct (find_node_at_path (leaf_path GetSelector names)
              (node_ImportProperties props specificity) node)
    as (leaf & E & old & -> & Hold); [done|].
  eexists. split; [done|]. intros x.
  unfold node_ImportProperties. cbn [node_properties].
  rewrite lookup_merge, Hold. unfold import_entry.
  destruct (props !! x), (properties_at _ _ !! x) as [[]|]; done.
Qed.

(** X21: [ImportProperties] loses nothing: every node of the tree is found
    where it was, with its kind and name, and with the properties it had
    unless it is the node at the end of the way of the selector. *)
Theorem ImportProperties_keeps_nodes node names props specificity path m :
  find_node path node = Some m →
  ∃ m',
    find_node path (ImportProperties GetSelector node names props specificity).2
      = Some m' ∧
    node_name m' = node_name m ∧ node_type m' = node_type m ∧
    (path ≠ leaf_path GetSelector names →
     node_properties m' = node_properties m).
Proof.
  intros Hm. unfold ImportProperties. cbn [snd].
  destruct (find_node_at_path_other (leaf_path GetSelector names)
              (node_ImportProperties props specificity) path node m)
    as (m' & E & Hk & Hp); [done..|].
  exists m'. split; [done|]. injection Hk as Ht Hn. auto.
Qed.

End TreeFacts.

(** ** The order of the way down, and the leaf of a reordered selector *)

Section SelectorOrder.

Variable GetSelector : string → bool.




End SelectorOrder.


(** ** Whole style sheets *)

Lemma logical_all_chars P n : ∀ s comment,
  String.length s ≤ n →
  all_chars P s = true → all_chars P (logical comment s) = true.
Proof.
  induction n as [|n IH]; intros s comment Hn.
  { destruct s; [done|simpl in Hn; lia]. }
  destruct s as [|c s]; [done|]. simpl in Hn. cbn [all_chars].
  intros [Hc Hs]%andb_prop. cbn [logical].
  destruct (Ascii.eqb c NEWLINE); [apply IH; [lia|done]|].
  destruct comment.
  - destruct (Ascii.eqb c "*"); [|apply IH; [lia|done]].
    destruct s as [|x s]; [done|]. simpl in Hn, Hs.
    apply andb_prop in Hs as [_ Hs]. apply IH; [lia|done].
  - destruct (Ascii.eqb_spec c "/") as [->|_].
    + destruct s as [|x s]; [simpl; by rewrite Hc|].
      destruct (Ascii.eqb x "*").
      * simpl in Hn, Hs. apply andb_prop in Hs as [_ Hs]. apply IH; [lia|done].
      * cbn [all_chars]. rewrite Hc. apply IH; [lia|done].
    + cbn [all_chars]. rewrite Hc. apply IH; [lia|done].
Qed.

Lemma rest_of_all_chars P s t :
  rest_of s t → all_chars P t = true → all_chars P s = true.
Proof.
  intros [skipped ->]. rewrite all_chars_app. by intros [_ ?]%andb_prop.
Qed.

Lemma all_chars_elem P pre c rest :
  all_chars P (pre +:+ String c rest) = true → P c = true.
Proof.
  rewrite all_chars_app. simpl. intros [_ [? _]%andb_prop]%andb_prop. done.
Qed.

Lemma first_token_unique P pre : ∀ sel t t' L R,
  all_chars P pre = true → all_chars P sel = true →
  P t = false → P t' = false →
  pre +:+ String t L = sel +:+ String t' R →
  pre = sel ∧ t = t' ∧ L = R.
Proof.
  induction pre as [|c pre IH]; intros [|d sel] t t' L R Hpre Hsel Ht Ht'; simpl.
  - by intros [= -> ->].
  - intros [= -> _]. simpl in Hsel. apply andb_prop in Hsel as [Hd _]. congruence.
  - intros [= -> _]. simpl in Hpre. apply andb_prop in Hpre as [Hc _]. congruence.
  - intros [= -> E]. simpl in Hpre, Hsel.
    apply andb_prop in Hpre as [_ Hpre]. apply andb_prop in Hsel as [_ Hsel].
    destruct (IH _ _ _ _ _ Hpre Hsel Ht Ht' E) as (-> & -> & ->). done.
Qed.

Section Sheets.

Variable read_size : nat.
Hypothesis read_size_pos : 0 < read_size.
Variable ParsePropertyDeclaration :
  PropertyDictionary → string → string → bool * PropertyDictionary.
Variable GetSelector : string → bool.
Variable scan_float : string → option (F32.float * string).
Variable sort_blocks : list KeyframeBlock → list KeyframeBlock.

Local Abbreviation token_step' :=
  (Parse_token read_size ParsePropertyDeclaration GetSelector scan_float).
Local Abbreviation token_loop' :=
  (Parse_tokens read_size ParsePropertyDeclaration GetSelector scan_float).
Local Abbreviation buffer_loop' :=
  (Parse_buffers read_size ParsePropertyDeclaration GetSelector scan_float).

Lemma FindToken_text tokens p token pre p' :
  FindToken read_size tokens true p = (token, pre, p') →
  all_chars (λ c, negb (Str.strchr tokens c)) pre = true ∧
  rest_of (pending p') (pending p) ∧
  ((Str.strchr tokens token = true ∧
    logical false (pending p) = pre +:+ String token (logical false (pending p')))
   ∨ (token = NUL ∧ logical false (pending p) = pre ∧ pending p' = "")).
Proof.
  intros H. pose proof (FindToken_loop_eq read_size tokens p) as E. rewrite H in E.
  apply (FindToken_loop_logical read_size read_size_pos) in E
    as (text & -> & Hall & Hrest & Hcases).
  auto.
Qed.

Lemma ReadProperties_text properties p :
  ∃ properties' p',
    ReadProperties read_size ParsePropertyDeclaration properties p
      = (true, properties', p') ∧
    remaining p' ≤ remaining p ∧
    rest_of (pending p') (pending p) ∧
    forwarded p'
      = (forwarded p
         ++ (scan_declarations NAME "" "" NUL (logical false (pending p))).1)%list ∧
    properties'
      = declare ParsePropertyDeclaration properties
          (scan_declarations NAME "" "" NUL (logical false (pending p))).1 ∧
    logical false (pending p')
      = (scan_declarations NAME "" "" NUL (logical false (pending p))).2.
Proof.
  destruct (ReadProperties_spec read_size ParsePropertyDeclaration properties p)
    as (d & p' & E & Hle).
  exists d, p'. split; [done|]. split; [done|].
  pose proof (ReadProperties_loop_eq read_size ParsePropertyDeclaration
                properties p) as El.
  rewrite E in El.
  apply (ReadProperties_loop_scan read_size read_size_pos) in El.
  destruct (scan_declarations _ _ _ _ _) as [ds rest]. simpl in *.
  by destruct El as (? & ? & ? & ?).
Qed.

(** *** A text without the at sign *)

Lemma Parse_tokens_no_at km fuel : ∀ c c',
  token_loop' fuel c = Some c' → no_at km c → no_at km c'.
Proof.
  induction fuel as [|fuel IH]; intros c c'; [done|].
  simpl. destruct (FindToken read_size "{@}" true (parser c))
    as [[token pre] p] eqn:E.
  apply FindToken_text in E as (_ & Hrest & Hcases).
  intros Hc (Hstate & Hkm & Hall).
  pose proof (rest_of_all_chars _ _ _ Hrest Hall) as Hp.
  destruct (Ascii.eqb_spec token NUL) as [->|Hnul].
  { injection Hc as <-. done. }
  destruct Hcases as [[Htoken Hl]|[-> _]]; [|done].
  assert (token ≠ "@"%char) as Hat.
  { intros ->.
    assert (all_chars (is_not "@") (logical false (pending (parser c))) = true)
      as Hlog by by eapply logical_all_chars.
    rewrite Hl in Hlog. by apply all_chars_elem in Hlog. }
  revert Hc.
  assert (state (set_parser p c) = Global) as Hstate0 by done.
  assert (parser (set_parser p c) = p) as Hparser0 by done.
  assert (keyframes (set_parser p c) = km) as Hkm0 by done.
  destruct (set_parser p c) as [st0 id0 count0 node0 km0 p0].
  cbn [state parser keyframes] in Hstate0, Hparser0, Hkm0. subst st0 p0 km0.
  unfold Parse_token. cbn [state parser].
  destruct (ReadProperties_text ∅ p) as (d & p1 & -> & _ & Hrest1 & _).
  cbn [negb].
  destruct (Ascii.eqb token "{").
  - case_decide as Hinv; [done|]. intros Hc. eapply IH; [done|].
    split; [done|]. split; [done|]. by eapply rest_of_all_chars.
  - destruct (Ascii.eqb_spec token "@") as [|_]; [done|].
    case_decide as Hinv; [done|].
    intros Hc. eapply IH; [done|]. done.
Qed.

Lemma Parse_buffers_no_at km fuel : ∀ c c',
  buffer_loop' fuel c = Some c' →
  state c = Global → keyframes c = km →
  all_chars (is_not "@") (stream (parser c)) = true →
  keyframes c' = km.
Proof.
  induction fuel as [|fuel IH]; intros c c'; [done|].
  rewrite Parse_buffers_S.
  destruct (FillBuffer read_size (parser c)) as [[] p] eqn:E;
    [|by intros [= <-]].
  apply (FillBuffer_true_pending read_size read_size_pos) in E as (Hp & _).
  destruct (Parse_tokens _ _ _ _ _ _) as [c1|] eqn:Et; [|done].
  intros Hc Hstate Hkm Hall.
  apply (Parse_tokens_no_at km) in Et as (Hstate1 & Hkm1 & Hall1).
  2:{ split; [done|]. split; [done|]. simpl. by rewrite Hp. }
  case_decide; [by injection Hc as <-|].
  apply (IH c1 c'); [done|done|done|].
  apply (rest_of_all_chars _ _ (pending (parser c1))); [|done].
  by exists (Str.drop (parse_buffer_pos (parser c1)) (parse_buffer (parser c1))).
Qed.

(** X13: a style sheet without an at sign leaves the keyframes as they
    are, but for the post-processing [Parse] always ends with. *)
Theorem Parse_without_at this tree km _stream :
  all_chars (is_not "@") _stream = true →
  ∃ count tree' p',
    Parse read_size ParsePropertyDeclaration GetSelector scan_float sort_blocks
          this tree km _stream
    = Some (count, tree', PostprocessKeyframes sort_blocks km, p').
Proof.
  intros Hall. unfold Parse.
  destruct (Parse_buffers_total read_size ParsePropertyDeclaration GetSelector
              scan_float (S (String.length _stream))
              (Parse_start this tree km _stream)) as (c & Eb);
    [apply Nat.lt_succ_diag_r|].
  rewrite Eb. exists (rule_count c), (node c), (parser c).
  apply (Parse_buffers_no_at km) in Eb; [|done..].
  unfold Parse_finish. simpl. by rewrite Eb.
Qed.

(** *** A sheet of rules and keyframes *)

Local Abbreviation not_token := (λ c : ascii, negb (Str.strchr "{@}" c)).

Lemma selector_character_spec c :
  selector_character c = true →
  Str.strchr "{@}" c = false ∧ Ascii.eqb c "/" = false ∧
  Ascii.eqb c NEWLINE = false.
Proof.
  unfold selector_character. intros H%negb_true_iff.
  apply orb_false_elim in H as [H H3]. apply orb_false_elim in H as [H1 H2].
  done.
Qed.

Lemma selector_not_token s :
  all_chars selector_character s = true → all_chars not_token s = true.
Proof.
  apply all_chars_impl. by intros x (-> & _)%selector_character_spec.
Qed.

Lemma selector_plain s :
  all_chars selector_character s = true →
  all_chars (λ c, is_not "/" c && is_not NEWLINE c) s = true.
Proof.
  apply all_chars_impl.
  intros c (_ & H1 & H2)%selector_character_spec. unfold is_not. by rewrite H1, H2.
Qed.

Lemma render_sheet_plain rules :
  Forall plain_rule rules →
  all_chars (λ c, is_not "/" c && is_not NEWLINE c) (render_sheet rules) = true.
Proof.
  induction 1 as [|[sel ds] rules [Hsel Hds] _ IH]; [done|].
  cbn [render_sheet fst snd] in *. rewrite !all_chars_app. simpl.
  by rewrite IH, (render_plain ds Hds), (selector_plain sel Hsel).
Qed.

Lemma render_items_plain items :
  Forall plain_item items →
  all_chars (λ c, is_not "/" c && is_not NEWLINE c) (render_items items) = true.
Proof.
  induction 1 as [|[sel ds|prelude blocks|text] items Hitem _ IH]; [done|..];
    cbn [render_items render_item]; rewrite !all_chars_app, IH.
  - destruct Hitem as [Hsel Hds]. simpl in Hsel, Hds. simpl.
    by rewrite (render_plain ds Hds), (selector_plain sel Hsel).
  - destruct Hitem as [Hprelude Hblocks]. simpl.
    by rewrite (render_sheet_plain blocks Hblocks),
      (selector_plain prelude Hprelude).
  - simpl in Hitem. simpl. by rewrite (selector_plain text Hitem).
Qed.

Lemma logical_render_items items :
  Forall plain_item items →
  logical false (render_items items) = render_items items.
Proof.
  intros H%render_items_plain.
  rewrite <- (app_empty_r (render_items items)) at 1.
  rewrite logical_plain, without_plain, app_empty_r; [done|..];
    (eapply all_chars_impl; [|done]); by intros c [? ?]%andb_prop.
Qed.

Lemma scan_rule ds rest :
  Forall plain_declaration ds →
  scan_declarations NAME "" "" NUL (render ds +:+ String "}" rest) = (ds, rest).
Proof.
  intros Hds. rewrite scan_render by done.
  cbn [scan_declarations fst snd].
  change (Ascii.eqb "}" ";") with false. change (Ascii.eqb "}" "}") with true.
  cbn iota. cbn [fst snd]. by rewrite app_nil_r.
Qed.

(** The token, when the text that is to be read starts as [sel t ...]. *)
Lemma FindToken_at p sel t R :
  logical false (pending p) = sel +:+ String t R →
  all_chars not_token sel = true →
  Str.strchr "{@}" t = true → t ≠ NUL →
  ∃ p1, FindToken read_size "{@}" true p = (t, sel, p1) ∧
        logical false (pending p1) = R ∧
        remaining p1 < remaining p ∧
        outputs p1 = outputs p.
Proof.
  intros Htext Hsel Ht Hnul.
  destruct (FindToken_spec read_size "{@}" p)
    as (token & pre & p1 & E & Hle & Hlt & Hout).
  pose proof (FindToken_text _ _ _ _ _ E) as (Hpre & _ & Hcases).
  destruct Hcases as [[Htoken Hl]|(-> & Hl & _)].
  2:{ rewrite Htext in Hl. rewrite <- Hl in Hpre.
      apply all_chars_elem in Hpre. by rewrite Ht in Hpre. }
  rewrite Htext in Hl.
  assert (not_token token = false) as Htoken' by by rewrite Htoken.
  assert (not_token t = false) as Ht' by by rewrite Ht.
  destruct (first_token_unique not_token pre sel token t _ _ Hpre Hsel
              Htoken' Ht' (eq_sym Hl)) as (-> & -> & Hl1).
  exists p1. auto.
Qed.

Lemma FindToken_at_end p :
  logical false (pending p) = "" →
  ∃ p1, FindToken read_size "{@}" true p = (NUL, "", p1) ∧
        pending p1 = "" ∧ outputs p1 = outputs p.
Proof.
  intros Htext.
  destruct (FindToken_spec read_size "{@}" p)
    as (token & pre & p1 & E & _ & _ & Hout).
  pose proof (FindToken_text _ _ _ _ _ E) as (_ & _ & Hcases).
  destruct Hcases as [[_ Hl]|(-> & Hl & Hp)].
  { rewrite Htext in Hl. by destruct pre. }
  rewrite Htext in Hl. subst pre. exists p1. auto.
Qed.

Lemma ReadProperties_at p ds R :
  Forall plain_declaration ds →
  logical false (pending p) = render ds +:+ String "}" R →
  ∃ p2, ReadProperties read_size ParsePropertyDeclaration ∅ p
          = (true, declare ParsePropertyDeclaration ∅ ds, p2) ∧
        logical false (pending p2) = R ∧
        remaining p2 ≤ remaining p ∧
        forwarded p2 = (forwarded p ++ ds)%list.
Proof.
  intros Hds Htext.
  destruct (ReadProperties_text ∅ p) as (d & p2 & E & Hle & _ & Hfw & Hd & Hl).
  rewrite Htext, scan_rule in Hfw, Hd, Hl by done. cbn [fst snd] in Hfw, Hd, Hl.
  exists p2. by rewrite E, Hd.
Qed.

Lemma ParseKeyframeBlock_result km identifier rules props p :
  ParseKeyframeBlock scan_float km identifier rules props p
  = ((ParseKeyframeBlock scan_float km identifier rules props p).1.1,
     (ParseKeyframeBlock scan_float km identifier rules props (new_parser "")).1.2,
     (ParseKeyframeBlock scan_float km identifier rules props p).2) ∧
  pending (ParseKeyframeBlock scan_float km identifier rules props p).2
    = pending p ∧
  remaining (ParseKeyframeBlock scan_float km identifier rules props p).2
    = remaining p ∧
  forwarded (ParseKeyframeBlock scan_float km identifier rules props p).2
    = forwarded p.
Proof. unfold ParseKeyframeBlock. by repeat case_match. Qed.

(** One round of the token loop. *)
Lemma Parse_tokens_step fuel c token pre p f c1 :
  FindToken read_size "{@}" true (parser c) = (token, pre, p) →
  token ≠ NUL →
  token_step' token pre (set_parser p c) = (f, c1) →
  state c1 ≠ Invalid →
  token_loop' (S fuel) c = token_loop' fuel c1.
Proof.
  intros E Hnul Et Hstate. cbn [Parse_tokens]. rewrite E.
  destruct (Ascii.eqb_spec token NUL) as [|_]; [done|]. rewrite Et.
  destruct f; [done|]. by case_decide.
Qed.

Lemma Parse_token_rule pre c d p2 :
  state c = Global →
  ReadProperties read_size ParsePropertyDeclaration ∅ (parser c) = (true, d, p2) →
  token_step' "{" pre c
  = (AtEnd,
     mkParsing Global (keyframes_identifier c) (S (rule_count c))
       (foldl (λ node name,
                 (ImportProperties GetSelector node name d (rule_count c)).2)
              (node c) (ExpandString pre ","))
       (keyframes c) p2).
Proof. intros Hstate E. unfold Parse_token. by rewrite Hstate, E. Qed.

Lemma Parse_token_at pre c :
  state c = Global →
  token_step' "@" pre c = (AtEnd, set_state KeyframesIdentifier c).
Proof. intros Hstate. unfold Parse_token. by rewrite Hstate. Qed.

Lemma Parse_token_identifier prelude c :
  state c = KeyframesIdentifier →
  token_step' "{" prelude c
  = (AtEnd,
     mkParsing KeyframesRules (at_rule_identifier prelude) (rule_count c) (node c)
               (keyframes c) (parser c)).
Proof. intros Hstate. unfold Parse_token. by rewrite Hstate. Qed.

Lemma Parse_token_block pre c ds p2 :
  state c = KeyframesRules →
  ReadProperties read_size ParsePropertyDeclaration ∅ (parser c)
    = (true, declare ParsePropertyDeclaration ∅ ds, p2) →
  ∃ f p3,
    token_step' "{" pre c
    = (f,
       mkParsing KeyframesRules (keyframes_identifier c) (rule_count c) (node c)
         (import_block ParsePropertyDeclaration scan_float
            (keyframes_identifier c) (keyframes c) (pre, ds))
         p3) ∧
    pending p3 = pending p2 ∧ remaining p3 = remaining p2 ∧
    forwarded p3 = forwarded p2.
Proof.
  intros Hstate E. unfold Parse_token. rewrite Hstate, E. cbn [negb].
  change (Ascii.eqb "{" "{") with true. cbn iota.
  destruct (ParseKeyframeBlock_result (keyframes c) (keyframes_identifier c) pre
              (declare ParsePropertyDeclaration ∅ ds) p2)
    as (-> & Hp & Hr & Hf).
  eexists _, _. split; [done|]. done.
Qed.

Lemma Parse_token_stray pre c :
  state c = Global →
  token_step' "}" pre c
  = (AtEnd,
     set_parser
       (warn (InvalidCharacterGlobal "}" (line_number (parser c))) (parser c)) c).
Proof. intros Hstate. unfold Parse_token. by rewrite Hstate. Qed.

Lemma Parse_token_close pre c :
  state c = KeyframesRules →
  token_step' "}" pre c = (AtEnd, set_state Global c).
Proof. intros Hstate. unfold Parse_token. by rewrite Hstate. Qed.

Lemma render_sheet_cons_app sel ds rules tail :
  render_sheet ((sel, ds) :: rules) +:+ tail
  = sel +:+ String "{" (render ds +:+ String "}" (render_sheet rules +:+ tail)).
Proof. cbn [render_sheet]. by rewrite !app_assoc_string. Qed.

(** The blocks of a keyframes at-rule, up to the brace that closes it. *)
Lemma Parse_tokens_blocks blocks : ∀ fuel c R,
  Forall plain_rule blocks →
  state c = KeyframesRules →
  logical false (pending (parser c)) = render_sheet blocks +:+ String "}" R →
  remaining (parser c) < fuel →
  ∃ fuel1 c1,
    token_loop' fuel c = token_loop' fuel1 c1 ∧
    remaining (parser c1) < fuel1 ∧
    state c1 = Global ∧
    logical false (pending (parser c1)) = R ∧
    rule_count c1 = rule_count c ∧ node c1 = node c ∧
    keyframes c1
      = foldl (import_block ParsePropertyDeclaration scan_float
                 (keyframes_identifier c)) (keyframes c) blocks ∧
    forwarded (parser c1)
      = (forwarded (parser c) ++ concat (snd <$> blocks))%list.
Proof.
  induction blocks as [|[sel ds] blocks IH]; intros fuel c R Hblocks Hstate Htext
    Hfuel; (destruct fuel as [|fuel]; [lia|]).
  - change (render_sheet [] +:+ String "}" R) with ("" +:+ String "}" R) in Htext.
    destruct (FindToken_at _ _ _ _ Htext) as (p1 & E & Hl & Hlt & Hout);
      [done..|].
    exists fuel, (set_state Global (set_parser p1 c)).
    split.
    { eapply Parse_tokens_step; [done|done| |done].
      by apply Parse_token_close. }
    cbn [set_state set_parser parser state rule_count node keyframes].
    split; [lia|]. split; [done|]. split; [done|]. split; [done|].
    split; [done|]. split; [done|]. rewrite app_nil_r. by injection Hout.
  - apply Forall_cons in Hblocks as [[Hsel Hds] Hblocks].
    cbn [fst snd] in Hsel, Hds.
    rewrite render_sheet_cons_app in Htext.
    destruct (FindToken_at _ _ _ _ Htext) as (p1 & E & Hl & Hlt & Hout);
      [by apply selector_not_token|done..|].
    destruct (ReadProperties_at p1 ds _ Hds Hl) as (p2 & Er & Hl2 & Hle2 & Hfw2).
    destruct (Parse_token_block sel (set_parser p1 c) ds p2)
      as (f & p3 & Et & Hp3 & Hr3 & Hf3); [done|done|].
    cbn [set_parser keyframes_identifier rule_count node keyframes] in Et.
    match type of Et with
    | _ = (_, ?c2) =>
      destruct (IH fuel c2 R) as (fuel1 & c1 & Eloop & Hfuel1 & Hstate1 & Hl1
                                  & Hcount1 & Hnode1 & Hkm1 & Hfw1);
        [done|done|cbn [parser]; by rewrite Hp3|cbn [parser]; lia|]
    end.
    cbn [parser keyframes_identifier rule_count node keyframes] in *.
    exists fuel1, c1. split.
    { rewrite <- Eloop. eapply Parse_tokens_step; [done|done|done|done]. }
    repeat (split; [done|]).
    rewrite Hfw1, Hf3, Hfw2. cbn [fmap list_fmap concat snd].
    injection Hout as _ ->. by rewrite <- !app_assoc.
Qed.

Lemma render_items_rule sel ds items :
  render_items (StyleRule sel ds :: items)
  = sel +:+ String "{" (render ds +:+ String "}" (render_items items)).
Proof. cbn [render_items render_item]. by rewrite !app_assoc_string. Qed.

Lemma render_items_at prelude blocks items :
  render_items (AtRule prelude blocks :: items)
  = "" +:+ String "@" (prelude
      +:+ String "{" (render_sheet blocks +:+ String "}" (render_items items))).
Proof. cbn [render_items render_item]. by rewrite !app_assoc_string. Qed.

Lemma render_items_stray text items :
  render_items (Stray text :: items) = text +:+ String "}" (render_items items).
Proof. cbn [render_items render_item]. by rewrite !app_assoc_string. Qed.

Lemma Parse_tokens_items items : ∀ fuel c,
  Forall plain_item items →
  state c = Global →
  logical false (pending (parser c)) = render_items items →
  remaining (parser c) < fuel →
  ∃ c', token_loop' fuel c = Some c' ∧
    state c' = Global ∧
    (rule_count c', node c', keyframes c')
      = foldl (import_item ParsePropertyDeclaration GetSelector scan_float)
              (rule_count c, node c, keyframes c) items ∧
    pending (parser c') = "" ∧
    forwarded (parser c')
      = (forwarded (parser c) ++ concat (item_declarations <$> items))%list.
Proof.
  induction items as [|[sel ds|prelude blocks|text] items IH];
    intros fuel c Hitems Hstate Htext Hfuel; (destruct fuel as [|fuel]; [lia|]).
  - destruct (FindToken_at_end _ Htext) as (p1 & E & Hp & Hout).
    cbn [Parse_tokens]. rewrite E. change (Ascii.eqb NUL NUL) with true. cbn iota.
    eexists. split; [done|].
    cbn [state rule_count node keyframes parser set_parser].
    repeat split; try done. rewrite app_nil_r. by injection Hout.
  - apply Forall_cons in Hitems as [[Hsel Hds] Hitems].
    cbn [fst snd] in Hsel, Hds. rewrite render_items_rule in Htext.
    destruct (FindToken_at _ _ _ _ Htext) as (p1 & E & Hl & Hlt & Hout);
      [by apply selector_not_token|done..|].
    destruct (ReadProperties_at p1 ds _ Hds Hl) as (p2 & Er & Hl2 & Hle2 & Hfw2).
    pose proof (Parse_token_rule sel (set_parser p1 c) _ p2 Hstate Er) as Et.
    cbn [set_parser keyframes_identifier rule_count node keyframes] in Et.
    match type of Et with
    | _ = (_, ?c2) =>
      destruct (IH fuel c2) as (c' & Eloop & Hstate' & Hfold & Hp' & Hfw');
        [done|done|done|cbn [parser]; lia|];
      rewrite (Parse_tokens_step fuel c _ _ _ _ c2 E ltac:(done) Et ltac:(done))
    end.
    cbn [parser keyframes_identifier rule_count node keyframes] in *.
    exists c'. split; [done|]. split; [done|]. split; [by rewrite Hfold|].
    split; [done|]. rewrite Hfw', Hfw2. cbn [fmap list_fmap concat item_declarations].
    injection Hout as _ ->. by rewrite <- !app_assoc.
  - apply Forall_cons in Hitems as [[Hprelude Hblocks] Hitems].
    rewrite render_items_at in Htext.
    destruct (FindToken_at _ _ _ _ Htext) as (p1 & E & Hl & Hlt & Hout);
      [done..|].
    pose proof (Parse_token_at "" (set_parser p1 c) Hstate) as Et.
    rewrite (Parse_tokens_step fuel c _ _ _ _ _ E ltac:(done) Et ltac:(done)).
    destruct fuel as [|fuel]; [lia|].
    destruct (FindToken_at p1 _ _ _ Hl) as (p2 & E2 & Hl2 & Hlt2 & Hout2);
      [by apply selector_not_token|done..|].
    pose proof (Parse_token_identifier prelude
                  (set_parser p2 (set_state KeyframesIdentifier (set_parser p1 c)))
                  eq_refl) as Et2.
    rewrite (Parse_tokens_step fuel
               (set_state KeyframesIdentifier (set_parser p1 c))
               _ _ _ _ _ E2 ltac:(done) Et2 ltac:(done)).
    cbn [set_parser set_state keyframes_identifier rule_count node keyframes parser]
      in *.
    match goal with
    | |- context [Parse_tokens _ _ _ _ fuel ?c2] =>
      destruct (Parse_tokens_blocks blocks fuel c2 _ Hblocks eq_refl Hl2)
        as (fuel1 & c1 & Eloop & Hfuel1 & Hstate1 & Hl1 & Hcount1 & Hnode1
            & Hkm1 & Hfw1); [cbn [parser]; lia|]
    end.
    cbn [parser keyframes_identifier rule_count node keyframes] in *.
    destruct (IH fuel1 c1) as (c' & Eloop' & Hstate' & Hfold & Hp' & Hfw');
      [done..|].
    exists c'. split; [by rewrite Eloop|]. split; [done|]. split.
    { rewrite Hfold, Hcount1, Hnode1, Hkm1. done. }
    split; [done|]. rewrite Hfw', Hfw1.
    cbn [fmap list_fmap concat item_declarations].
    injection Hout2 as _ ->. injection Hout as _ ->. by rewrite <- !app_assoc.
  - apply Forall_cons in Hitems as [Htext' Hitems]. simpl in Htext'.
    rewrite render_items_stray in Htext.
    destruct (FindToken_at _ _ _ _ Htext) as (p1 & E & Hl & Hlt & Hout);
      [by apply selector_not_token|done..|].
    pose proof (Parse_token_stray text (set_parser p1 c) Hstate) as Et.
    rewrite (Parse_tokens_step fuel c _ _ _ _ _ E ltac:(done) Et
               ltac:(cbn [state set_parser]; by rewrite Hstate)).
    match goal with
    | |- context [Parse_tokens _ _ _ _ fuel ?c2] =>
      destruct (IH fuel c2) as (c' & Eloop & Hstate' & Hfold & Hp' & Hfw');
        [done|done|done|cbn [parser set_parser]; rewrite remaining_warn; lia|]
    end.
    cbn [parser set_parser keyframes_identifier rule_count node keyframes
         forwarded warn] in *.
    exists c'. split; [done|]. split; [done|]. split; [done|]. split; [done|].
    rewrite Hfw'. cbn [fmap list_fmap concat item_declarations app].
    by injection Hout as _ ->.
Qed.

Lemma Parse_items items this tree km :
  Forall plain_item items →
  ∃ p',
    Parse read_size ParsePropertyDeclaration GetSelector scan_float sort_blocks
          this tree km (render_items items)
    = Some
        (let '(count, tree', km') :=
           foldl (import_item ParsePropertyDeclaration GetSelector scan_float)
                 (0, tree, km) items in
         (count, tree', PostprocessKeyframes sort_blocks km', p')) ∧
    forwarded p'
      = (forwarded this ++ concat (item_declarations <$> items))%list.
Proof.
  intros Hitems. unfold Parse.
  set (s := render_items items). rewrite Parse_buffers_S.
  set (c0 := Parse_start this tree km s).
  destruct (FillBuffer read_size (parser c0)) as [[] p] eqn:E.
  - pose proof (FillBuffer_true _ _ _ E) as (_ & Hbuf & Hlen & Hout & _).
    unfold c0 in Hlen, Hout. cbn [parser Parse_start stream] in Hlen.
    apply (FillBuffer_true_pending read_size read_size_pos) in E as (Hp & _).
    destruct (Parse_tokens_items items (S (remaining p)) (set_parser p c0))
      as (c' & -> & Hstate & Hfold & Hp' & Hfw);
      [done|done| |apply Nat.lt_succ_diag_r|].
    { simpl. rewrite Hp. by apply logical_render_items. }
    case_decide as Hinv; [congruence|].
    assert (stream (parser c') = "") as Hs'.
    { unfold pending in Hp'. by destruct (Str.drop _ _). }
    destruct (String.length s) as [|n] eqn:En; [lia|].
    rewrite Parse_buffers_S. unfold FillBuffer, IsEOS. rewrite Hs'. simpl.
    exists (parser c'). split.
    + unfold Parse_finish. cbn [rule_count node keyframes parser set_parser].
      cbn [set_parser rule_count node keyframes c0 Parse_start] in Hfold.
      rewrite <- Hfold. done.
    + rewrite Hfw. cbn [parser set_parser]. by injection Hout as _ ->.
  - apply (FillBuffer_false_eos read_size read_size_pos) in E as [-> Hs].
    cbn [parser c0 Parse_start stream] in Hs.
    destruct items as [|[sel ds|prelude blocks|text] items].
    + eexists. split; [done|]. simpl. by rewrite app_nil_r.
    + unfold s in Hs. rewrite render_items_rule in Hs. by destruct sel.
    + unfold s in Hs. by rewrite render_items_at in Hs.
    + unfold s in Hs. rewrite render_items_stray in Hs. by destruct text.
Qed.

(** X14: a style sheet written plainly, rules [selectors{name:value;...}],
    at-rules [@prelude{selectors{name:value;...}...}] and stray closing
    braces one after the other, is parsed item by item.  A rule is
    counted, and the dictionary its declarations give is imported at every
    selector of the rule with the number of the rule as specificity.
    Every block of an at-rule goes to [ParseKeyframeBlock] with the
    dictionary of the block and the identifier of the at-rule: the text
    after the keyword [keyframes], without the white space around it, and
    nothing when the at-rule does not start with the keyword.  A
    closing brace that closes nothing is passed over with the text in
    front of it.  The declaration parser gets all the declarations in
    their order, and the keyframes are post-processed at the end. *)
Theorem Parse_sheet items this tree km :
  Forall plain_item items →
  ∃ p',
    Parse read_size ParsePropertyDeclaration GetSelector scan_float sort_blocks
          this tree km (render_items items)
    = Some
        (let '(count, tree', km') :=
           foldl (import_item ParsePropertyDeclaration GetSelector scan_float)
                 (0, tree, km) items in
         (count, tree', PostprocessKeyframes sort_blocks km', p')) ∧
    forwarded p'
      = (forwarded this ++ concat (item_declarations <$> items))%list.
Proof. apply Parse_items. Qed.

Lemma import_blocks_no_identifier blocks : ∀ km,
  foldl (import_block ParsePropertyDeclaration scan_float "") km blocks = km.
Proof. induction blocks as [|block blocks IH]; intros km; [done|apply IH]. Qed.

(** X22: an at-rule that does not start with the keyword [keyframes] is
    passed over with all its blocks: the declarations of the blocks are
    read and go to the declaration parser, but no rule is counted, and the
    tree and the keyframes stay as they are (the keyframes are
    post-processed as always). *)
Theorem Parse_unknown_at_rule prelude blocks this tree km :
  all_chars selector_character prelude = true →
  Forall plain_rule blocks →
  Substring prelude 0 (Some (String.length KEYFRAMES)) ≠ KEYFRAMES →
  ∃ p',
    Parse read_size ParsePropertyDeclaration GetSelector scan_float sort_blocks
          this tree km ("@" +:+ prelude +:+ "{" +:+ render_sheet blocks +:+ "}")
    = Some (0, tree, PostprocessKeyframes sort_blocks km, p') ∧
    forwarded p' = (forwarded this ++ concat (snd <$> blocks))%list.
Proof.
  intros Hprelude Hblocks Hkeyword.
  destruct (Parse_items [AtRule prelude blocks] this tree km)
    as (p' & E & Hfw); [by repeat constructor|].
  exists p'. cbn [render_items render_item] in E. rewrite app_empty_r in E.
  cbn [fmap list_fmap concat item_declarations] in Hfw.
  rewrite app_nil_r in Hfw. split; [|done]. rewrite E.
  cbn [foldl import_item fst snd]. unfold at_rule_identifier.
  apply String.eqb_neq in Hkeyword. rewrite Hkeyword.
  by rewrite import_blocks_no_identifier.
Qed.

End Sheets.

(** ** One call of the reader, and readers with different buffers *)

Lemma occurrences_app c a b :
  occurrences c (a +:+ b) = occurrences c a + occurrences c b.
Proof.
  induction a as [|d a IH]; [done|]. rewrite app_String. simpl.
  rewrite IH. by destruct (Ascii.eqb d c).
Qed.

Lemma unread_after_comment body x :
  all_chars (is_not "*") body = true →
  unread_after true (body +:+ "*/" +:+ x) = unread_after false x.
Proof.
  induction body as [|c body IH]; [done|]. simpl all_chars.
  intros [Hc Hbody]%andb_prop. rewrite app_String. cbn [unread_after].
  unfold is_not in Hc. apply negb_true_iff in Hc. rewrite Hc.
  destruct (Ascii.eqb c NEWLINE); by apply IH.
Qed.

Lemma counted_lines_comment body x :
  all_chars (is_not "*") body = true →
  counted_lines true (body +:+ "*/" +:+ x)
  = occurrences NEWLINE body + counted_lines false x.
Proof.
  induction body as [|c body IH]; [done|]. simpl all_chars.
  intros [Hc Hbody]%andb_prop. rewrite app_String.
  cbn [counted_lines occurrences].
  unfold is_not in Hc. apply negb_true_iff in Hc. rewrite Hc.
  destruct (Ascii.eqb c NEWLINE); rewrite IH by done; lia.
Qed.

Lemma render_blanks_cons blank blanks x :
  render_blanks (blank :: blanks) +:+ x
  = render_blank blank +:+ (render_blanks blanks +:+ x).
Proof. cbn [render_blanks]. by rewrite app_assoc_string. Qed.

Lemma render_comment body x :
  render_blank (Comment body) +:+ x
  = String "/" (String "*" (body +:+ "*/" +:+ x)).
Proof. cbn [render_blank]. by rewrite !app_assoc_string. Qed.

Lemma occurrences_comment body :
  occurrences NEWLINE (render_blank (Comment body)) = occurrences NEWLINE body.
Proof.
  cbn [render_blank]. rewrite !occurrences_app.
  change (occurrences NEWLINE "/*") with 0.
  change (occurrences NEWLINE "*/") with 0. lia.
Qed.

Lemma blanks_logical blanks x :
  Forall star_free blanks →
  logical false (render_blanks blanks +:+ x) = logical false x.
Proof.
  induction 1 as [|[|body] blanks Hb _ IH]; [done|..];
    rewrite render_blanks_cons.
  - exact IH.
  - rewrite render_comment. cbn [logical].
    change (Ascii.eqb "/" NEWLINE) with false.
    change (Ascii.eqb "/" "/") with true. change (Ascii.eqb "*" "*") with true.
    cbn iota. by rewrite logical_comment.
Qed.

Lemma blanks_unread blanks x :
  Forall star_free blanks →
  unread_after false (render_blanks blanks +:+ x) = unread_after false x.
Proof.
  induction 1 as [|[|body] blanks Hb _ IH]; [done|..];
    rewrite render_blanks_cons.
  - exact IH.
  - rewrite render_comment. cbn [unread_after].
    change (Ascii.eqb "/" NEWLINE) with false.
    change (Ascii.eqb "/" "/") with true. change (Ascii.eqb "*" "*") with true.
    cbn iota. by rewrite unread_after_comment.
Qed.

Lemma blanks_counted blanks x :
  Forall star_free blanks →
  counted_lines false (render_blanks blanks +:+ x)
  = occurrences NEWLINE (render_blanks blanks) + counted_lines false x.
Proof.
  induction 1 as [|[|body] blanks Hb _ IH]; [done|..];
    rewrite render_blanks_cons; cbn [render_blanks]; rewrite occurrences_app.
  - change (render_blank LineFeed +:+ ?y) with (String NEWLINE y).
    cbn [counted_lines]. change (Ascii.eqb NEWLINE NEWLINE) with true.
    cbn iota. rewrite IH. change (occurrences NEWLINE (render_blank LineFeed)) with 1.
    lia.
  - rewrite render_comment, occurrences_comment. cbn [counted_lines].
    change (Ascii.eqb "/" NEWLINE) with false.
    change (Ascii.eqb "/" "/") with true. change (Ascii.eqb "*" "*") with true.
    cbn iota. rewrite counted_lines_comment by done. rewrite IH. lia.
Qed.

Section ReaderTheorems.

Variable ParsePropertyDeclaration :
  PropertyDictionary → string → string → bool * PropertyDictionary.
Variable GetSelector : string → bool.
Variable scan_float : string → option (F32.float * string).
Variable sort_blocks : list KeyframeBlock → list KeyframeBlock.

(** X1: one call of [ReadCharacter] on a text that starts with line feeds
    and comments, the comments without a ['*'] in their bodies, in any
    number and order.  When a character other than a line feed and a
    ['/'] follows them, the call gives this character with the cursor on
    it: the character and what follows it are what is left to be read.
    When nothing follows them, the call gives nothing and nothing is left
    to be read.  In both cases the line counter has grown by the number of
    line feeds passed, those in the comments counted.  This holds wherever
    the text is divided between the buffer and the stream, and for every
    read size. *)
Theorem ReadCharacter_one_pass read_size p blanks tail :
  0 < read_size →
  Forall star_free blanks →
  first_character tail ≠ Some NEWLINE →
  first_character tail ≠ Some "/"%char →
  pending p = render_blanks blanks +:+ tail →
  ∃ p', ReadCharacter read_size p = (first_character tail, p') ∧
        pending p' = tail ∧
        line_number p'
          = line_number p + occurrences NEWLINE (render_blanks blanks).
Proof.
  intros Hpos Hblanks Hnl Hslash Hp.
  destruct (ReadCharacter read_size p) as [r p'] eqn:E.
  pose proof (ReadCharacter_reads read_size Hpos _ _ _ E) as Hr.
  unfold reads in Hr. rewrite Hp in Hr.
  rewrite blanks_logical, blanks_counted in Hr by done.
  destruct tail as [|c rest]; cbn [first_character] in *.
  - cbn [logical counted_lines] in Hr.
    destruct r as [c'|]; [by destruct Hr as [? _]|].
    destruct Hr as (_ & Hn & Hp'). exists p'. split; [done|]. split; [done|lia].
  - assert (Ascii.eqb c NEWLINE = false) as Enl
      by (apply Ascii.eqb_neq; congruence).
    assert (Ascii.eqb c "/" = false) as Es
      by (apply Ascii.eqb_neq; congruence).
    cbn [logical counted_lines] in Hr. rewrite Enl, Es in Hr.
    destruct r as [c'|]; [|by destruct Hr as [? _]].
    destruct Hr as ([= <- Hl] & Hn & _).
    apply (ReadCharacter_unread read_size Hpos) in E as [Hu Hc].
    rewrite Hp, blanks_unread in Hu by done.
    cbn [unread_after] in Hu. rewrite Enl, Es in Hu.
    exists p'. split; [done|]. split.
    + rewrite Hc, Hu; [done|]. by apply Ascii.eqb_neq.
    + rewrite Hu in Hn. lia.
Qed.

(** X2: [ReadCharacter] never gives a line feed: line feeds are passed,
    inside comments and outside, whatever the read size is. *)
Theorem ReadCharacter_never_newline read_size p :
  (ReadCharacter read_size p).1 ≠ Some NEWLINE.
Proof.
  destruct (ReadCharacter_spec read_size p) as (r & p' & -> & E & _).
  destruct r as [c|]; [|done]. simpl. intros [= ->].
  by apply ReadCharacter_loop_no_newline in E.
Qed.

Lemma FindToken_same_text rs1 rs2 tokens p1 p2 :
  0 < rs1 → 0 < rs2 →
  pending p1 = pending p2 →
  (FindToken rs1 tokens true p1).1 = (FindToken rs2 tokens true p2).1.
Proof.
  intros H1 H2 Hp.
  destruct (FindToken rs1 tokens true p1) as [[t1 pre1] q1] eqn:E1.
  destruct (FindToken rs2 tokens true p2) as [[t2 pre2] q2] eqn:E2.
  apply (FindToken_text rs1 H1) in E1 as (Hpre1 & _ & Hc1).
  apply (FindToken_text rs2 H2) in E2 as (Hpre2 & _ & Hc2).
  rewrite Hp in Hc1. simpl.
  destruct Hc1 as [[Ht1 Hl1]|(-> & Hl1 & _)], Hc2 as [[Ht2 Hl2]|(-> & Hl2 & _)].
  - rewrite Hl1 in Hl2.
    assert (negb (Str.strchr tokens t1) = false) as Ht1' by by rewrite Ht1.
    assert (negb (Str.strchr tokens t2) = false) as Ht2' by by rewrite Ht2.
    by destruct (first_token_unique (λ c, negb (Str.strchr tokens c))
                   pre1 pre2 t1 t2 _ _ Hpre1 Hpre2 Ht1' Ht2' Hl2)
      as (-> & -> & _).
  - rewrite Hl1 in Hl2. rewrite <- Hl2 in Hpre2.
    apply all_chars_elem in Hpre2. by rewrite Ht1 in Hpre2.
  - rewrite Hl2 in Hl1. rewrite <- Hl1 in Hpre1.
    apply all_chars_elem in Hpre1. by rewrite Ht2 in Hpre1.
  - congruence.
Qed.

(** X6: where the buffer ends and how many bytes a refill brings makes no
    difference: two readers that have the same text to read, however it is
    divided between buffer and stream and whatever their read sizes are,
    get the same token and the same text in front of it from [FindToken],
    and the same declarations and the same dictionary from
    [ReadProperties]. *)
Theorem reader_independent_of_read_size rs1 rs2 tokens properties p1 p2 :
  0 < rs1 → 0 < rs2 →
  pending p1 = pending p2 →
  (FindToken rs1 tokens true p1).1 = (FindToken rs2 tokens true p2).1 ∧
  (ReadProperties rs1 ParsePropertyDeclaration properties p1).1
    = (ReadProperties rs2 ParsePropertyDeclaration properties p2).1 ∧
  (forwarded p1 = forwarded p2 →
   forwarded (ReadProperties rs1 ParsePropertyDeclaration properties p1).2
     = forwarded (ReadProperties rs2 ParsePropertyDeclaration properties p2).2).
Proof.
  intros H1 H2 Hp. split; [by apply FindToken_same_text|].
  destruct (ReadProperties_text rs1 H1 ParsePropertyDeclaration properties p1)
    as (d1 & q1 & -> & _ & _ & Hf1 & Hd1 & _).
  destruct (ReadProperties_text rs2 H2 ParsePropertyDeclaration properties p2)
    as (d2 & q2 & -> & _ & _ & Hf2 & Hd2 & _).
  rewrite Hp in Hf1, Hd1. simpl. split; [congruence|]. intros Hf. congruence.
Qed.

(** X12: [Parse] starts by filling the buffer, so what a former call has
    left unread in the buffer is not read; and it sets the line counter to
    zero.  Its results are the same for any two parsers that have logged
    and handed on the same. *)
Theorem Parse_ignores_leftover read_size this this' tree km _stream :
  outputs this = outputs this' →
  fst <$> Parse read_size ParsePropertyDeclaration GetSelector scan_float
                sort_blocks this tree km _stream
  = fst <$> Parse read_size ParsePropertyDeclaration GetSelector scan_float
                  sort_blocks this' tree km _stream.
Proof.
  intros [= Hlog Hfw]. unfold Parse. rewrite !Parse_buffers_S.
  unfold FillBuffer, Parse_start. cbn [parser stream line_number log forwarded].
  rewrite Hlog, Hfw. destruct (IsEOS _stream); [done|].
  by destruct (Read _stream read_size).
Qed.

End ReaderTheorems.

(** ** The properties at concrete inputs *)

(** A comment over two lines, a line feed, and two characters; read two
    bytes at a time. *)
Definition commented_blanks : list Blank :=
  [Comment (String NEWLINE ""); LineFeed].

Lemma ReadCharacter_one_pass_witness :
  ∃ p', ReadCharacter 2 (new_parser (render_blanks commented_blanks +:+ "ab"))
          = (first_character "ab", p') ∧
        pending p' = "ab" ∧
        line_number p'
          = line_number (new_parser (render_blanks commented_blanks +:+ "ab"))
            + occurrences NEWLINE (render_blanks commented_blanks).
Proof.
  apply (ReadCharacter_one_pass 2
           (new_parser (render_blanks commented_blanks +:+ "ab"))
           commented_blanks "ab").
  - lia.
  - repeat constructor.
  - discriminate.
  - discriminate.
  - reflexivity.
Defined.

Definition two_lines : string := String "a" (String NEWLINE "b").

Lemma reader_plain_text_witness :
  (read_all 1 9 (new_parser two_lines)).1 = without NEWLINE two_lines ∧
  (all_chars (is_not "*") two_lines = true →
   line_number (read_all 1 9 (new_parser two_lines)).2
     = occurrences NEWLINE two_lines).
Proof.
  apply (reader_plain_text 1 ltac:(lia) two_lines 9).
  - vm_compute. reflexivity.
  - vm_compute. lia.
Defined.

Lemma reader_skips_comment_witness :
  (read_all 3 99 (new_parser ("ab" +:+ "/*" +:+ " c " +:+ "*/" +:+ "d"))).1
  = without NEWLINE "ab" +:+ without NEWLINE "d".
Proof.
  apply (reader_skips_comment 3 ltac:(lia) "ab" " c " "d" 99).
  - vm_compute. reflexivity.
  - vm_compute. reflexivity.
  - vm_compute. reflexivity.
  - vm_compute. lia.
Defined.

(** A selector, a comment and a rule; four bytes at a time. *)
Definition commented_rule : Parser := new_parser "div /*x*/{a:b;}".

Lemma FindToken_first_token_witness :
  all_chars (λ c, negb (Str.strchr "{@}" c)) "div " = true ∧
  rest_of (pending (FindToken 4 "{@}" true commented_rule).2)
          (pending commented_rule) ∧
  ((Str.strchr "{@}" "{" = true ∧
    logical false (pending commented_rule)
    = "div " +:+ String "{"
        (logical false (pending (FindToken 4 "{@}" true commented_rule).2)))
   ∨ ("{"%char = NUL ∧ logical false (pending commented_rule) = "div " ∧
      pending (FindToken 4 "{@}" true commented_rule).2 = "")).
Proof.
  apply (FindToken_first_token 4 ltac:(lia) "{@}" commented_rule "{" "div "
           (FindToken 4 "{@}" true commented_rule).2).
  vm_compute. reflexivity.
Defined.

(** The same text, all of it in the stream of one reader, and divided
    between the buffer and the stream of the other. *)
Lemma reader_independent_of_read_size_witness :
  (FindToken 1 "{@}" true (new_parser "a{b:c;}")).1
  = (FindToken 4092 "{@}" true (mkParser "b:c;}" "a{" 0 0 [] [])).1 ∧
  (ReadProperties 1 keep_declaration ∅ (new_parser "a{b:c;}")).1
  = (ReadProperties 4092 keep_declaration ∅ (mkParser "b:c;}" "a{" 0 0 [] [])).1 ∧
  (forwarded (new_parser "a{b:c;}") = forwarded (mkParser "b:c;}" "a{" 0 0 [] []) →
   forwarded (ReadProperties 1 keep_declaration ∅ (new_parser "a{b:c;}")).2
   = forwarded (ReadProperties 4092 keep_declaration ∅
                  (mkParser "b:c;}" "a{" 0 0 [] [])).2).
Proof.
  apply (reader_independent_of_read_size keep_declaration 1 4092 "{@}" ∅
           (new_parser "a{b:c;}") (mkParser "b:c;}" "a{" 0 0 [] [])).
  - lia.
  - lia.
  - vm_compute. reflexivity.
Defined.

Definition two_declarations : Parser := new_parser " top : 1px ; left:2px }rest".

Lemma ReadProperties_declarations_witness :
  forwarded (ReadProperties 3 keep_declaration ∅ two_declarations).2
    = (forwarded two_declarations
       ++ (scan_declarations NAME "" "" NUL
             (logical false (pending two_declarations))).1)%list ∧
  (ReadProperties 3 keep_declaration ∅ two_declarations).1.2
    = declare keep_declaration ∅
        (scan_declarations NAME "" "" NUL
           (logical false (pending two_declarations))).1 ∧
  logical false (pending (ReadProperties 3 keep_declaration ∅ two_declarations).2)
    = (scan_declarations NAME "" "" NUL
         (logical false (pending two_declarations))).2.
Proof.
  apply (ReadProperties_declarations 3 ltac:(lia) keep_declaration ∅
           two_declarations
           (ReadProperties 3 keep_declaration ∅ two_declarations).1.1).
  vm_compute. reflexivity.
Defined.

(** A plain declaration, and one with a [;] and a [}] between quotes. *)
Definition written_declarations : list (string * string) :=
  [("top", "1px"); ("content", quoted "a;b}c")].

Lemma written_declarations_plain : Forall plain_declaration written_declarations.
Proof.
  repeat constructor; vm_compute; reflexivity.
Qed.

Lemma ReadProperties_round_trip_witness :
  (ReadProperties 4092 keep_declaration ∅
     (new_parser (render written_declarations +:+ String "}" "x"))).1.1 = true ∧
  forwarded (ReadProperties 4092 keep_declaration ∅
               (new_parser (render written_declarations +:+ String "}" "x"))).2
    = (forwarded (new_parser (render written_declarations +:+ String "}" "x"))
       ++ written_declarations)%list ∧
  (ReadProperties 4092 keep_declaration ∅
     (new_parser (render written_declarations +:+ String "}" "x"))).1.2
    = declare keep_declaration ∅ written_declarations ∧
  logical false
    (pending (ReadProperties 4092 keep_declaration ∅
                (new_parser (render written_declarations +:+ String "}" "x"))).2)
    = logical false "x".
Proof.
  apply (ReadProperties_round_trip 4092 ltac:(lia) keep_declaration
           written_declarations "x" ∅).
  - exact written_declarations_plain.
  - reflexivity.
  - vm_compute. reflexivity.
Defined.

(** A parser that has read [a:b;}] of its buffer and not the [c:d;] after
    it. *)
Definition leftover : Parser := mkParser "" "a:b;}c:d;" 5 0 [] [].

Lemma ParseProperties_reads_leftover_witness :
  forwarded (ParseProperties 4092 keep_declaration leftover ∅ "e:f;").2
    = (forwarded leftover
       ++ (scan_declarations NAME "" "" NUL
             (logical false
                (Str.drop (parse_buffer_pos leftover) (parse_buffer leftover)
                 +:+ "e:f;"))).1)%list ∧
  (ParseProperties 4092 keep_declaration leftover ∅ "e:f;").1.2
    = declare keep_declaration ∅
        (scan_declarations NAME "" "" NUL
           (logical false
              (Str.drop (parse_buffer_pos leftover) (parse_buffer leftover)
               +:+ "e:f;"))).1.
Proof.
  apply (ParseProperties_reads_leftover 4092 ltac:(lia) keep_declaration leftover
           ∅ "e:f;" (ParseProperties 4092 keep_declaration leftover ∅ "e:f;").1.1).
  vm_compute. reflexivity.
Defined.

Lemma ParseProperties_round_trip_witness :
  (ParseProperties 4092 keep_declaration (new_parser "") ∅
     (render written_declarations)).1.1 = true ∧
  forwarded (ParseProperties 4092 keep_declaration (new_parser "") ∅
               (render written_declarations)).2
    = (forwarded (new_parser "") ++ written_declarations)%list ∧
  (ParseProperties 4092 keep_declaration (new_parser "") ∅
     (render written_declarations)).1.2
    = declare keep_declaration ∅ written_declarations.
Proof.
  apply (ParseProperties_round_trip 4092 ltac:(lia) keep_declaration
           written_declarations (new_parser "") ∅).
  - exact written_declarations_plain.
  - simpl. lia.
  - vm_compute. reflexivity.
Defined.

(** A sequence that has names from a former parse and a block with another
    name. *)
Definition named_sequence : Keyframes :=
  mkKeyframes ["top"; "left"] [mkKeyframeBlock F32.zero {[ "width" := "1px" ]}].

Lemma PostprocessKeyframes_names_witness :
  ∃ kf, ({[ "grow" := named_sequence ]} : KeyframesMap) !! "grow" = Some kf ∧
    blocks (postprocess stable_sort_blocks named_sequence)
      = stable_sort_blocks (blocks kf) ∧
    Sorted String.le (property_names (postprocess stable_sort_blocks named_sequence)) ∧
    NoDup (property_names (postprocess stable_sort_blocks named_sequence)) ∧
    ∀ x, x ∈ property_names (postprocess stable_sort_blocks named_sequence) ↔
         x ∈ property_names kf ∨
         ∃ b, b ∈ blocks (postprocess stable_sort_blocks named_sequence)
              ∧ is_Some (properties b !! x).
Proof.
  apply (PostprocessKeyframes_names stable_sort_blocks
           {[ "grow" := named_sequence ]} "grow").
  unfold PostprocessKeyframes. by rewrite lookup_fmap, lookup_singleton_eq.
Defined.

Lemma PostprocessKeyframes_idempotent_witness :
  PostprocessKeyframes stable_sort_blocks
    (PostprocessKeyframes stable_sort_blocks {[ "spin" := unsorted_sequence ]})
  = PostprocessKeyframes stable_sort_blocks {[ "spin" := unsorted_sequence ]}.
Proof.
  apply (PostprocessKeyframes_idempotent stable_sort_blocks).
  - apply stable_sort_contract.
  - intros name kf [_ <-]%lookup_singleton_Some. split.
    + split; [|split; [constructor|exact I]].
      constructor; [vm_compute; reflexivity|constructor].
    + constructor; [vm_compute; reflexivity|].
      constructor; [vm_compute; reflexivity|constructor].
Defined.

(** A keyframes at-rule with the block for [to] in front of the block for
    [from]. *)
Definition spin_sheet : string := "@keyframes spin{to{left:2px;}from{left:0px;}}".

Definition spin_sheet_parse : nat * StyleSheetNode * KeyframesMap * Parser :=
  default (0, root_node, ∅, new_parser "")
    (Parse 4092 keep_declaration structural scan_decimal stable_sort_blocks
           (new_parser "") root_node ∅ spin_sheet).

Definition spin_sheet_sequence : Keyframes :=
  default (mkKeyframes [] []) (spin_sheet_parse.1.2 !! "spin").

Lemma spin_sheet_parse_eq :
  Parse 4092 keep_declaration structural scan_decimal stable_sort_blocks
        (new_parser "") root_node ∅ spin_sheet
  = Some (spin_sheet_parse.1.1.1, spin_sheet_parse.1.1.2, spin_sheet_parse.1.2,
          spin_sheet_parse.2).
Proof. vm_compute. reflexivity. Qed.

Lemma spin_sheet_sequence_eq :
  spin_sheet_parse.1.2 !! "spin" = Some spin_sheet_sequence.
Proof. vm_compute. reflexivity. Qed.

Lemma Parse_sequences_witness :
  IsValidIdentifier "spin" = true ∧
  blocks spin_sheet_sequence ≠ [] ∧
  Forall (λ b, F32.in_unit_interval (normalized_time b) = true
               ∧ properties b ≠ ∅) (blocks spin_sheet_sequence) ∧
  Sorted block_le (blocks spin_sheet_sequence) ∧
  distinct_times (blocks spin_sheet_sequence) ∧
  property_names spin_sheet_sequence ≠ [].
Proof.
  apply (Parse_sequences 4092 keep_declaration structural scan_decimal
           stable_sort_blocks scan_decimal_valid stable_sort_contract
           (new_parser "") root_node spin_sheet
           spin_sheet_parse.1.1.1 spin_sheet_parse.1.1.2 spin_sheet_parse.1.2
           spin_sheet_parse.2 "spin" spin_sheet_sequence).
  - exact spin_sheet_parse_eq.
  - exact spin_sheet_sequence_eq.
Defined.

(** A tree with the nodes of [div.a], and a rule for [p]. *)
Definition div_a_tree : StyleSheetNode :=
  (ImportProperties structural root_node "div.a" {[ "top" := "1px" ]} 0).2.

Definition div_a_node : StyleSheetNode :=
  default root_node (find_node (leaf_path structural "div.a") div_a_tree).

Lemma div_a_node_eq :
  find_node (leaf_path structural "div.a") div_a_tree = Some div_a_node.
Proof. vm_compute. reflexivity. Qed.

Lemma ImportProperties_keeps_nodes_witness :
  ∃ m',
    find_node (leaf_path structural "div.a")
      (ImportProperties structural div_a_tree "p" {[ "left" := "2px" ]} 1).2
      = Some m' ∧
    node_name m' = node_name div_a_node ∧ node_type m' = node_type div_a_node ∧
    (leaf_path structural "div.a" ≠ leaf_path structural "p" →
     node_properties m' = node_properties div_a_node).
Proof.
  apply (ImportProperties_keeps_nodes structural div_a_tree "p"
           {[ "left" := "2px" ]} 1 (leaf_path structural "div.a") div_a_node).
  exact div_a_node_eq.
Defined.

Lemma Parse_without_at_witness :
  ∃ count tree' p',
    Parse 4092 keep_declaration structural scan_decimal stable_sort_blocks
          (new_parser "") root_node {[ "spin" := unsorted_sequence ]} "a{b:c;}"
    = Some (count, tree',
            PostprocessKeyframes stable_sort_blocks {[ "spin" := unsorted_sequence ]},
            p').
Proof.
  apply (Parse_without_at 4092 ltac:(lia) keep_declaration structural scan_decimal
           stable_sort_blocks (new_parser "") root_node
           {[ "spin" := unsorted_sequence ]} "a{b:c;}").
  vm_compute. reflexivity.
Defined.

(** A rule for two selectors, and a keyframes at-rule with two blocks. *)
Definition written_sheet : list Item :=
  [StyleRule "div.a, p" [("top", "1px")];
   Stray "oops";
   AtRule "keyframes spin"
     [("from", [("left", "0px")]); ("to", [("left", "2px")])]].

Lemma written_sheet_plain : Forall plain_item written_sheet.
Proof.
  repeat first [ split | constructor ]; vm_compute; reflexivity.
Qed.

Lemma Parse_sheet_witness :
  ∃ p',
    Parse 2 keep_declaration structural scan_decimal stable_sort_blocks
          (new_parser "") root_node ∅ (render_items written_sheet)
    = Some
        (let '(count, tree', km') :=
           foldl (import_item keep_declaration structural scan_decimal)
                 (0, root_node, ∅) written_sheet in
         (count, tree', PostprocessKeyframes stable_sort_blocks km', p')) ∧
    forwarded p'
      = (forwarded (new_parser "")
         ++ concat (item_declarations <$> written_sheet))%list.
Proof.
  apply (Parse_sheet 2 ltac:(lia) keep_declaration structural scan_decimal
           stable_sort_blocks written_sheet (new_parser "") root_node ∅).
  exact written_sheet_plain.
Defined.

Lemma Parse_ignores_leftover_witness :
  fst <$> Parse 4092 keep_declaration structural scan_decimal stable_sort_blocks
                (new_parser "") root_node ∅ "a{b:c;}"
  = fst <$> Parse 4092 keep_declaration structural scan_decimal stable_sort_blocks
                  leftover root_node ∅ "a{b:c;}".
Proof.
  apply (Parse_ignores_leftover keep_declaration structural scan_decimal
           stable_sort_blocks 4092 (new_parser "") leftover root_node ∅ "a{b:c;}").
  reflexivity.
Defined.

(** A media query, which is not a keyframes at-rule. *)
Lemma Parse_unknown_at_rule_witness :
  ∃ p',
    Parse 4092 keep_declaration structural scan_decimal stable_sort_blocks
          (new_parser "") root_node ∅
          ("@" +:+ "media screen" +:+ "{"
           +:+ render_sheet [("p", [("top", "1px")])] +:+ "}")
    = Some (0, root_node, PostprocessKeyframes stable_sort_blocks ∅, p') ∧
    forwarded p'
      = (forwarded (new_parser "")
         ++ concat (snd <$> [("p", [("top", "1px")])]))%list.
Proof.
  apply (Parse_unknown_at_rule 4092 ltac:(lia) keep_declaration structural
           scan_decimal stable_sort_blocks "media screen"
           [("p", [("top", "1px")])] (new_parser "") root_node ∅).
  - vm_compute. reflexivity.
  - repeat first [ split | constructor ]; vm_compute; reflexivity.
  - discriminate.
Defined.
